(** * Real-time schedulability toolkit: analysis engine and tick simulator

    A shallow embedding of [model.py], [analysis.py], [simulation.py] and the
    CSV loader of [main.py], followed by the properties established for them.

    Conventions of the embedding:
    - Python integers are [Z]; Python exceptions are values of [exn] carried
      by the [result] monad.
    - [Job] instances are mutable objects that the ready queue, the
      completed list and the local variable [current_job] alias.  They live
      in an object store ([heap], a list indexed by allocation order) and
      are referred to by address.
    - [math.ceil(a / b)] on integers is the exact integer ceiling (Python's
      float quotient is exact below 2^53). *)

From Stdlib Require Import ZArith QArith Lia Ascii.
From stdpp Require Import base option list gmap strings sorting.

Local Open Scope Z_scope.

(** ** Exceptions and the result monad *)

Inductive exn : Set :=
  | ZeroDivisionError
  | ValueError
  | TypeError
  | KeyError (column : string)
  | FileNotFoundError.

Inductive result (A : Type) : Type :=
  | Ok (a : A)
  | Raise (e : exn).
Arguments Ok {A} a.
Arguments Raise {A} e.

#[global] Instance result_ret : MRet result := λ A a, Ok a.
#[global] Instance result_bind : MBind result := λ A B f m,
  match m with Ok a => f a | Raise e => Raise e end.

Definition is_Ok {A} (r : result A) : Prop := ∃ a, r = Ok a.

(** ** model.py *)

Record Task : Set := mkTask {
  name : string;
  id : Z;
  bcet : Z;
  wcet : Z;
  period : Z;
  deadline : Z;
  priority : Z
}.

Record Job : Set := mkJob {
  task_id : Z;
  job_id : Z;
  arrival_time : Z;
  absolute_deadline : Z;
  remaining_time : Z;
  start_time : Z;
  finish_time : Z
}.

#[global] Instance Task_eq_dec : EqDecision Task.
Proof. solve_decision. Defined.
#[global] Instance Job_eq_dec : EqDecision Job.
Proof. solve_decision. Defined.
#[global] Instance exn_eq_dec : EqDecision exn.
Proof. solve_decision. Defined.

(** [Job(task_id, job_id, arrival_time, absolute_deadline, remaining_time)]
    with the dataclass defaults [start_time = -1], [finish_time = -1]. *)
Definition new_Job (tid jid arr dl rem : Z) : Job :=
  mkJob tid jid arr dl rem (-1) (-1).

#[global] Instance Job_inhabited : Inhabited Job := populate (new_Job 0 0 0 0 0).

(** [Job.response_time]: [None] while unfinished. *)
Definition response_time (j : Job) : option Z :=
  if decide (finish_time j = -1) then None
  else Some (finish_time j - arrival_time j).

(** [Job.is_missed] *)
Definition is_missed (j : Job) : bool :=
  if decide (finish_time j = -1) then false
  else bool_decide (finish_time j > absolute_deadline j).

Definition set_priority (p : Z) (t : Task) : Task :=
  mkTask (name t) (id t) (bcet t) (wcet t) (period t) (deadline t) p.

Definition set_remaining_time (r : Z) (j : Job) : Job :=
  mkJob (task_id j) (job_id j) (arrival_time j) (absolute_deadline j) r
        (start_time j) (finish_time j).
Definition set_start_time (v : Z) (j : Job) : Job :=
  mkJob (task_id j) (job_id j) (arrival_time j) (absolute_deadline j)
        (remaining_time j) v (finish_time j).
Definition set_finish_time (v : Z) (j : Job) : Job :=
  mkJob (task_id j) (job_id j) (arrival_time j) (absolute_deadline j)
        (remaining_time j) (start_time j) v.

(** ** Python built-ins used by the code *)

(** [a % b] on integers: the sign follows the divisor, as [Z.modulo]. *)
Definition py_mod (a b : Z) : result Z :=
  if decide (b = 0) then Raise ZeroDivisionError else Ok (a `mod` b).

(** Exact integer ceiling of the quotient. *)
Definition ceil_div (a b : Z) : Z := - ((- a) `div` b).

(** [math.ceil(a / b)] *)
Definition py_ceil_truediv (a b : Z) : result Z :=
  if decide (b = 0) then Raise ZeroDivisionError else Ok (ceil_div a b).

(** A stable sort by an integer-comparable key, as [sorted] and
    [list.sort] are: an element is placed before the first later element
    whose key is not smaller. *)
Section stable_sort.
Context {A K : Type} (key : A → K) (ltb : K → K → bool).

Fixpoint insert_by (x : A) (l : list A) : list A :=
  match l with
  | [] => [x]
  | y :: l' => if ltb (key y) (key x) then y :: insert_by x l'
               else x :: y :: l'
  end.

Definition sort_by (l : list A) : list A := foldr insert_by [] l.
End stable_sort.

(** ** analysis.py *)

(** The inner [for] loop of [calculate_exact_wcrt_rm]. *)
Fixpoint interference_loop (R_curr : Z) (hps : list Task) (interference : Z)
  : result Z :=
  match hps with
  | [] => Ok interference
  | hp_task :: hps' =>
      c ← py_ceil_truediv R_curr (period hp_task);
      interference_loop R_curr hps' (interference + c * wcet hp_task)
  end.

(** One pass of the [while True] body up to the computation of [R_new]. *)
Definition wcrt_candidate (task : Task) (hps : list Task) (R_curr : Z)
  : result Z :=
  interference ← interference_loop R_curr hps 0;
  Ok (wcet task + interference).

(** The [while True] loop; [None] stands for a loop that has not left within
    [fuel] iterations. *)
Fixpoint wcrt_loop (fuel : nat) (task : Task) (hps : list Task) (R_curr : Z)
  : option (result Z) :=
  match fuel with
  | O => None
  | S fuel' =>
      match wcrt_candidate task hps R_curr with
      | Raise e => Some (Raise e)
      | Ok R_new =>
          if decide (R_new > deadline task) then Some (Ok R_new)
          else if decide (R_new = R_curr) then Some (Ok R_new)
          else wcrt_loop fuel' task hps R_new
      end
  end.

Definition calculate_exact_wcrt_rm (fuel : nat) (task : Task)
  (higher_priority_tasks : list Task) : option (result Z) :=
  wcrt_loop fuel task higher_priority_tasks (wcet task).

(** A number of passes of the loop that is enough for inputs meeting the
    data model. *)
Definition wcrt_fuel (task : Task) : nat :=
  S (Z.to_nat (deadline task - wcet task)).

(** The interference term of the response-time equation, the sum of
    [ceil(R / T_j) * C_j] over the higher-priority tasks: what the inner loop
    accumulates when no period is zero. *)
Definition interference_of (hps : list Task) (R : Z) : Z :=
  foldr (λ hp acc, ceil_div R (period hp) * wcet hp + acc) 0 hps.

(** The candidate sequence of the iteration, without the exit tests:
    [R_seq 0 = wcet] and [R_seq (n+1) = wcet + interference (R_seq n)]. *)
Fixpoint R_seq (task : Task) (hps : list Task) (n : nat) : Z :=
  match n with
  | O => wcet task
  | S n' => wcet task + interference_of hps (R_seq task hps n')
  end.

(** One entry of the dictionary returned by [perform_rm_analysis];
    [an_Task] is the id that the source formats into the label. *)
Record analytic_record : Set := mkAnalytic {
  an_Task : Z;
  an_Period : Z;
  an_WCET : Z;
  an_WCRT_Analytic : Z;
  an_Schedulable : bool
}.

(** Lexicographic [<] on the key tuples [(x.period, x.id)]. *)
Definition pair_ltb (a b : Z * Z) : bool :=
  bool_decide (a.1 < b.1) || (bool_decide (a.1 = b.1) && bool_decide (a.2 < b.2)).

Definition rm_key (x : Task) : Z * Z := (period x, id x).

(** The [for i, task in enumerate(sorted_tasks)] loop; [done] is
    [sorted_tasks[:i]].  [fuel] bounds each fixed-point iteration; [None] is
    returned when one of them has not left its loop within [fuel] passes. *)
Fixpoint analysis_loop (fuel : nat) (done todo : list Task)
  (results : gmap Z analytic_record)
  : option (result (gmap Z analytic_record)) :=
  match todo with
  | [] => Some (Ok results)
  | task :: todo' =>
      match calculate_exact_wcrt_rm fuel task done with
      | None => None
      | Some (Raise e) => Some (Raise e)
      | Some (Ok wcrt) =>
          let schedulable := bool_decide (wcrt ≤ deadline task) in
          analysis_loop fuel (done ++ [task]) todo'
            (<[id task := mkAnalytic (id task) (period task) (wcet task)
                                      wcrt schedulable]> results)
      end
  end.

Definition perform_rm_analysis (fuel : nat) (tasks : list Task)
  : option (result (gmap Z analytic_record)) :=
  let sorted_tasks := sort_by rm_key pair_ltb tasks in
  analysis_loop fuel [] sorted_tasks ∅.

(** Modelled from the spec: [perform_dm_analysis] is imported by [main.py]
    from [analysis.py] but is not part of the sources at hand.  The spec
    (4.1, response_time_analysis) orders the tasks by ascending deadline and
    computes the exact WCRT of each task against all tasks ordered strictly
    before it, producing the same record per task. *)
Definition perform_dm_analysis (fuel : nat) (tasks : list Task)
  : option (result (gmap Z analytic_record)) :=
  let sorted_tasks := sort_by deadline Z.ltb tasks in
  analysis_loop fuel [] sorted_tasks ∅.

(** [calculate_utilization]: the sum of [wcet / period], kept as the exact
    rational that Python accumulates in floating point; a zero period
    raises at the division. *)
Fixpoint calculate_utilization (tasks : list Task) : result Q :=
  match tasks with
  | [] => Ok 0%Q
  | t :: tasks' =>
      if decide (period t = 0) then Raise ZeroDivisionError
      else u ← calculate_utilization tasks';
           Ok (inject_Z (wcet t) / inject_Z (period t) + u)%Q
  end.

(** [check_ll_bound]: [n = len(tasks)], then the utilisation, then the
    bound, whose [1/n] raises for [n = 0].  The floating-point values of the
    returned triple are not modelled; [ll_values] stands for them. *)
Section ll_bound.
Context {F : Type} (ll_values : nat → Q → bool * F * F).

Definition check_ll_bound (tasks : list Task) : result (bool * F * F) :=
  let n := length tasks in
  u ← calculate_utilization tasks;
  if decide (n = 0%nat) then Raise ZeroDivisionError
  else Ok (ll_values n u).
End ll_bound.

(** ** simulation.py *)

(** The [Scheduler] object.  [heap] is the store of the [Job] objects
    created so far; [ready_queue] and [completed_jobs] hold references. *)
Record Scheduler : Type := mkScheduler {
  tasks : list Task;
  algorithm : string;
  time : Z;
  heap : list Job;
  ready_queue : list nat;
  history : list (Z * option Z);
  completed_jobs : list nat;
  hyperperiod : Z
}.

Definition set_tasks (v : list Task) (s : Scheduler) : Scheduler :=
  mkScheduler v (algorithm s) (time s) (heap s) (ready_queue s) (history s)
              (completed_jobs s) (hyperperiod s).
Definition set_time (v : Z) (s : Scheduler) : Scheduler :=
  mkScheduler (tasks s) (algorithm s) v (heap s) (ready_queue s) (history s)
              (completed_jobs s) (hyperperiod s).
Definition set_heap (v : list Job) (s : Scheduler) : Scheduler :=
  mkScheduler (tasks s) (algorithm s) (time s) v (ready_queue s) (history s)
              (completed_jobs s) (hyperperiod s).
Definition set_ready_queue (v : list nat) (s : Scheduler) : Scheduler :=
  mkScheduler (tasks s) (algorithm s) (time s) (heap s) v (history s)
              (completed_jobs s) (hyperperiod s).
Definition set_history (v : list (Z * option Z)) (s : Scheduler) : Scheduler :=
  mkScheduler (tasks s) (algorithm s) (time s) (heap s) (ready_queue s) v
              (completed_jobs s) (hyperperiod s).
Definition set_completed_jobs (v : list nat) (s : Scheduler) : Scheduler :=
  mkScheduler (tasks s) (algorithm s) (time s) (heap s) (ready_queue s)
              (history s) v (hyperperiod s).

(** The object a reference points to. *)
Definition deref (s : Scheduler) (a : nat) : Job := heap s !!! a.

(** In-place update of the object at address [a]. *)
Definition update_job (a : nat) (f : Job → Job) (s : Scheduler) : Scheduler :=
  set_heap (<[a := f (deref s a)]> (heap s)) s.

(** [math.lcm] applied to the unpacked, non-empty list of periods. *)
Definition py_lcm (periods : list Z) : Z := foldl Z.lcm 1 periods.

(** [for i, t in enumerate(self.tasks): t.priority = i] *)
Definition assign_priorities (ts : list Task) : list Task :=
  imap (λ i t, set_priority (Z.of_nat i) t) ts.

(** [Scheduler.__init__]; [copy.deepcopy] yields an equal value that the
    scheduler owns. *)
Definition Scheduler_init (tasks0 : list Task) (algorithm0 : string) : Scheduler :=
  let tasks1 := tasks0 in
  let periods := period <$> tasks1 in
  let hyper := match periods with [] => 0 | _ => py_lcm periods end in
  let tasks2 :=
    if decide (algorithm0 = "DM"%string)
    then assign_priorities (sort_by deadline Z.ltb tasks1)
    else tasks1 in
  mkScheduler tasks2 algorithm0 0 [] [] [] [] hyper.

(** [Scheduler.get_task] *)
Fixpoint get_task_in (ts : list Task) (tid : Z) : result Task :=
  match ts with
  | [] => Raise ValueError
  | t :: ts' => if decide (id t = tid) then Ok t else get_task_in ts' tid
  end.
Definition get_task (s : Scheduler) (tid : Z) : result Task :=
  get_task_in (tasks s) tid.

(** [min(iterable, key=...)] on a non-empty list: the first element whose
    key is minimal (a later element replaces the candidate only when its key
    is strictly smaller). *)
Fixpoint py_min_from (key : nat → result Z) (best : nat) (best_key : Z)
  (l : list nat) : result nat :=
  match l with
  | [] => Ok best
  | x :: l' =>
      k ← key x;
      if decide (k < best_key) then py_min_from key x k l'
      else py_min_from key best best_key l'
  end.

Definition py_min (key : nat → result Z) (l : list nat) : result nat :=
  match l with
  | [] => Raise ValueError
  | x :: l' => k ← key x; py_min_from key x k l'
  end.

(** The two [key] lambdas of [_get_active_job]. *)
Definition priority_key (s : Scheduler) (a : nat) : result Z :=
  t ← get_task s (task_id (deref s a)); Ok (priority t).
Definition deadline_key (s : Scheduler) (a : nat) : result Z :=
  Ok (absolute_deadline (deref s a)).

(** [Scheduler._get_active_job] *)
Definition _get_active_job (s : Scheduler) : result (option nat) :=
  match ready_queue s with
  | [] => Ok None
  | _ =>
      if decide (algorithm s = "RM"%string ∨ algorithm s = "DM"%string)
      then a ← py_min (priority_key s) (ready_queue s); Ok (Some a)
      else if decide (algorithm s = "EDF"%string)
      then a ← py_min (deadline_key s) (ready_queue s); Ok (Some a)
      else Ok None
  end.

(** Step 1 of the loop body for one task: release at a period boundary.
    [int(t / task.period)] is the exact quotient on a boundary. *)
Definition release_task (t : Z) (task : Task) (s : Scheduler) : result Scheduler :=
  m ← py_mod t (period task);
  if decide (m = 0) then
    let new_job := new_Job (id task) (t `div` period task) t
                           (t + deadline task) (wcet task) in
    let a := length (heap s) in
    Ok (set_ready_queue (ready_queue s ++ [a]) (set_heap (heap s ++ [new_job]) s))
  else Ok s.

(** [for task in self.tasks: ...] *)
Fixpoint release_loop (t : Z) (ts : list Task) (s : Scheduler) : result Scheduler :=
  match ts with
  | [] => Ok s
  | task :: ts' => s' ← release_task t task s; release_loop t ts' s'
  end.

Definition release (t : Z) (s : Scheduler) : result Scheduler :=
  release_loop t (tasks s) s.

(** [next_job != current_job]: dataclass equality compares the field
    tuples; [None] differs from every job. *)
Definition job_ne (s : Scheduler) (next_job current_job : option nat) : bool :=
  match next_job, current_job with
  | None, None => false
  | Some a, Some b => bool_decide (deref s a ≠ deref s b)
  | _, _ => true
  end.

(** Step 3: context switch; returns the scheduler and the new [current_job]. *)
Definition context_switch (t : Z) (s : Scheduler)
  (next_job current_job : option nat) : Scheduler * option nat :=
  if job_ne s next_job current_job then
    match next_job with
    | Some a =>
        if decide (start_time (deref s a) = -1)
        then (update_job a (set_start_time t) s, next_job)
        else (s, next_job)
    | None => (s, next_job)
    end
  else (s, current_job).

(** [list.remove(x)]: drops the first element equal to [x] (here: the first
    reference to an object that is [x] or compares equal to it). *)
Fixpoint list_remove (s : Scheduler) (x : nat) (l : list nat) : result (list nat) :=
  match l with
  | [] => Raise ValueError
  | y :: l' =>
      if decide (y = x ∨ deref s y = deref s x) then Ok l'
      else l'' ← list_remove s x l'; Ok (y :: l'')
  end.

(** Steps 4 and 5: execution for one tick and completion. *)
Definition execute (t : Z) (s : Scheduler) (current_job : option nat)
  : result (Scheduler * option nat) :=
  match current_job with
  | Some a =>
      let s1 := set_history (history s ++ [(t, Some (task_id (deref s a)))]) s in
      let s2 := update_job a (λ j, set_remaining_time (remaining_time j - 1) j) s1 in
      if decide (remaining_time (deref s2 a) = 0) then
        let s3 := update_job a (set_finish_time (t + 1)) s2 in
        let s4 := set_completed_jobs (completed_jobs s3 ++ [a]) s3 in
        q ← list_remove s4 a (ready_queue s4);
        Ok (set_ready_queue q s4, None)
      else Ok (s2, current_job)
  | None => Ok (set_history (history s ++ [(t, None)]) s, current_job)
  end.

(** Steps 1 to 3 of the loop body: releases, scheduling decision and
    context switch.  The result is the scheduler and the job that runs in
    this tick. *)
Definition dispatch (t : Z) (st : Scheduler * option nat)
  : result (Scheduler * option nat) :=
  let s0 := set_time t st.1 in
  s1 ← release t s0;
  next_job ← _get_active_job s1;
  Ok (context_switch t s1 next_job st.2).

(** The body of [for t in range(duration)]. *)
Definition tick (t : Z) (st : Scheduler * option nat)
  : result (Scheduler * option nat) :=
  st2 ← dispatch t st;
  execute t st2.1 st2.2.

Fixpoint run_loop (ticks : list Z) (st : Scheduler * option nat)
  : result (Scheduler * option nat) :=
  match ticks with
  | [] => Ok st
  | t :: ticks' => st' ← tick t st; run_loop ticks' st'
  end.

(** The loop of [run] over the ticks [0, ..., n-1] ([range(n)]), entered
    with [current_job = None]. *)
Definition run_ticks (n : nat) (s : Scheduler) : result (Scheduler * option nat) :=
  run_loop (Z.of_nat <$> seq 0 n) (s, None).

(** [Scheduler.run]: the scheduler after the run and the returned pair
    [(self.completed_jobs, self.history)], the jobs read through their
    references. *)
Definition run (s : Scheduler) (duration : option Z)
  : result (Scheduler * (list Job * list (Z * option Z))) :=
  let duration := match duration with None => hyperperiod s | Some d => d end in
  st ← run_ticks (Z.to_nat duration) s;
  Ok (st.1, (deref st.1 <$> completed_jobs st.1, history st.1)).

(** One entry of the dictionary returned by [analyze_results].  The average
    is kept as the exact quotient that Python rounds to a float. *)
Record sim_stats : Set := mkStats {
  Sim_WCRT : Z;
  Sim_Avg_RT : Q;
  Missed : Z
}.

(** [j.response_time for j in jobs], consumed by [max] and [sum]: an
    unfinished job yields [None], on which they raise [TypeError]. *)
Fixpoint response_times (jobs : list Job) : result (list Z) :=
  match jobs with
  | [] => Ok []
  | j :: jobs' =>
      match response_time j with
      | None => Raise TypeError
      | Some r => rs ← response_times jobs'; Ok (r :: rs)
      end
  end.

(** [max] of a non-empty sequence of integers. *)
Definition py_max (x : Z) (l : list Z) : Z := foldl Z.max x l.

(** [sum] of a sequence of integers. *)
Definition py_sum (l : list Z) : Z := foldl Z.add 0 l.

(** The statistics of one task, from the completed jobs. *)
Definition task_stats (completed : list Job) (task : Task) : result sim_stats :=
  let jobs := filter (λ j, task_id j = id task) completed in
  match jobs with
  | [] => Ok (mkStats 0 0 0)
  | _ =>
      rs ← response_times jobs;
      match rs with
      | [] => Raise ValueError
      | r :: rs' =>
          let max_response := py_max r rs' in
          let avg_response := Qmake (py_sum rs) (Pos.of_nat (length jobs)) in
          let missed_deadlines :=
            py_sum ((λ _, 1) <$> filter (λ j, is_missed j = true) jobs) in
          Ok (mkStats max_response avg_response missed_deadlines)
      end
  end.

Fixpoint stats_loop (completed : list Job) (ts : list Task)
  (stats : gmap Z sim_stats) : result (gmap Z sim_stats) :=
  match ts with
  | [] => Ok stats
  | task :: ts' =>
      st ← task_stats completed task;
      stats_loop completed ts' (<[id task := st]> stats)
  end.

(** [Scheduler.analyze_results] *)
Definition analyze_results (s : Scheduler) : result (gmap Z sim_stats) :=
  stats_loop (deref s <$> completed_jobs s) (tasks s) ∅.

(** ** main.py: the CSV loader *)

(** A value of a [csv.DictReader] row: a string, or [None] for a column the
    row is too short to fill. *)
Inductive cell : Set :=
  | CStr (s : string)
  | CNone.

(** The rows are the dictionaries that [csv.DictReader] yields; the file is
    [None] when [open] raises [FileNotFoundError]. *)
Definition csv_row : Type := gmap string cell.

Definition is_space (c : ascii) : bool :=
  bool_decide (c ∈ [" "; "009"; "010"; "011"; "012"; "013"]%char).

Definition digit_of (c : ascii) : option Z :=
  let n := Z.of_nat (nat_of_ascii c) in
  if decide (48 ≤ n ≤ 57) then Some (n - 48) else None.

(** Digits with single underscores between them, most significant first. *)
Fixpoint digits_value (acc : Z) (after_digit : bool) (cs : list ascii)
  : option Z :=
  match cs with
  | [] => if after_digit then Some acc else None
  | c :: cs' =>
      match digit_of c with
      | Some d => digits_value (10 * acc + d) true cs'
      | None =>
          if bool_decide (c = "_"%char) && after_digit
          then match cs' with
               | [] => None
               | _ => digits_value acc false cs'
               end
          else None
      end
  end.

Fixpoint drop_spaces (cs : list ascii) : list ascii :=
  match cs with
  | c :: cs' => if is_space c then drop_spaces cs' else cs
  | [] => []
  end.

(** [int(s)] for an ASCII string [s]: surrounding whitespace, an optional
    sign, decimal digits. *)
Definition int_of_str (s : string) : option Z :=
  let cs := reverse (drop_spaces (reverse (drop_spaces (String.list_ascii_of_string s)))) in
  match cs with
  | "-"%char :: cs' => Z.opp <$> digits_value 0 false cs'
  | "+"%char :: cs' => digits_value 0 false cs'
  | _ => digits_value 0 false cs
  end.

(** [int(v)] for a row value. *)
Definition py_int (v : cell) : result Z :=
  match v with
  | CNone => Raise TypeError
  | CStr s =>
      match int_of_str s with
      | Some z => Ok z
      | None => Raise ValueError
      end
  end.

(** [row.get(k)] and [row[k]] *)
Definition row_get (row : csv_row) (k : string) : cell :=
  default CNone (row !! k).
Definition row_getitem (row : csv_row) (k : string) : result cell :=
  match row !! k with
  | Some v => Ok v
  | None => Raise (KeyError k)
  end.

(** Truth value of a row value: [None] and the empty string are false. *)
Definition cell_truthy (v : cell) : bool :=
  match v with
  | CNone => false
  | CStr s => negb (bool_decide (s = ""%string))
  end.

(** The generated [Task.__init__] called with keyword arguments: every
    field is required, and a missing one raises [TypeError]. *)
Definition Task_init (name0 : option string)
  (id0 bcet0 wcet0 period0 deadline0 priority0 : option Z) : result Task :=
  match name0, id0, bcet0, wcet0, period0, deadline0, priority0 with
  | Some n, Some i, Some b, Some w, Some p, Some d, Some pr =>
      Ok (mkTask n i b w p d pr)
  | _, _, _, _, _, _, _ => Raise TypeError
  end.

(** The body of the [for row in reader] loop. *)
Definition load_row (row : csv_row) (tasks0 : list Task) : result (list Task) :=
  if negb (cell_truthy (row_get row "Task")) then Ok tasks0
  else
    v ← row_getitem row "Task"; id0 ← py_int v;
    bcet0 ← py_int (row_get row "BCET");
    v ← row_getitem row "WCET"; wcet0 ← py_int v;
    v ← row_getitem row "Period"; period0 ← py_int v;
    v ← row_getitem row "Deadline"; deadline0 ← py_int v;
    priority0 ← py_int (row_get row "Priority");
    t ← Task_init None (Some id0) (Some bcet0) (Some wcet0) (Some period0)
                       (Some deadline0) (Some priority0);
    Ok (tasks0 ++ [t]).

Fixpoint load_rows (rows : list csv_row) (tasks0 : list Task) : result (list Task) :=
  match rows with
  | [] => Ok tasks0
  | row :: rows' => tasks1 ← load_row row tasks0; load_rows rows' tasks1
  end.

(** [load_tasks_from_csv]: the [try] block with its three handlers; any
    other exception leaves the function. *)
Definition load_tasks_from_csv (file : option (list csv_row)) : result (list Task) :=
  let body :=
    match file with
    | None => Raise FileNotFoundError
    | Some rows => load_rows rows []
    end in
  match body with
  | Ok tasks0 => Ok tasks0
  | Raise FileNotFoundError => Ok []
  | Raise (KeyError _) => Ok []
  | Raise ValueError => Ok []
  | Raise e => Raise e
  end.

(** ** Auxiliary notions used in the statements and proofs *)

(** A higher-priority task as the analysis expects it. *)
Definition hp_ok (hp : Task) : Prop := 0 < period hp ∧ 0 ≤ wcet hp.

(** The jobs created by step 1 at tick [t], in task order. *)
Definition released_jobs (t : Z) (ts : list Task) : list Job :=
  (λ task, new_Job (id task) (t `div` period task) t (t + deadline task) (wcet task))
    <$> filter (λ task, t `mod` period task = 0) ts.

(** The scheduler after step 1 at tick [t], in closed form. *)
Definition released (t : Z) (ts : list Task) (s : Scheduler) : Scheduler :=
  set_ready_queue
    (ready_queue s ++ seq (length (heap s)) (length (released_jobs t ts)))
    (set_heap (heap s ++ released_jobs t ts) s).

(** [m] is the first element of [l] whose key is minimal. *)
Definition first_min (kf : nat → Z) (l : list nat) (m : nat) : Prop :=
  ∃ l1 l2, l = l1 ++ m :: l2 ∧
    (∀ x, x ∈ l1 → kf m < kf x) ∧ (∀ x, x ∈ l2 → kf m ≤ kf x).

Definition known_algorithm (alg : string) : Prop :=
  alg = "RM"%string ∨ alg = "DM"%string ∨ alg = "EDF"%string.

(** The key under which [_get_active_job] ranks a ready job. *)
Definition job_key (s : Scheduler) (a : nat) : Z :=
  if decide (algorithm s = "RM"%string ∨ algorithm s = "DM"%string)
  then match priority_key s a with Ok k => k | Raise _ => 0 end
  else absolute_deadline (deref s a).

(** The effect of steps 3 to 5 on the scheduler [s1] reached after the
    releases of tick [t], when the job at address [c] runs ([Some c]) or the
    processor idles ([None]). *)
Definition tick_effect (t : Z) (oc : option nat) (s1 : Scheduler)
  : Scheduler * option nat :=
  match oc with
  | None => (set_history (history s1 ++ [(t, None)]) s1, None)
  | Some c =>
      let j := deref s1 c in
      let j1 := if decide (start_time j = -1) then set_start_time t j else j in
      let j2 := set_remaining_time (remaining_time j1 - 1) j1 in
      let hist := history s1 ++ [(t, Some (task_id j))] in
      if decide (remaining_time j2 = 0) then
        (mkScheduler (tasks s1) (algorithm s1) (time s1)
           (<[c := set_finish_time (t + 1) j2]> (heap s1))
           (filter (λ y, y ≠ c) (ready_queue s1)) hist
           (completed_jobs s1 ++ [c]) (hyperperiod s1), None)
      else
        (mkScheduler (tasks s1) (algorithm s1) (time s1)
           (<[c := j2]> (heap s1)) (ready_queue s1) hist
           (completed_jobs s1) (hyperperiod s1), Some c)
  end.

(** The invariant of the loop of [run] at the head of tick [n]. *)
Record sched_inv (n : Z) (st : Scheduler * option nat) : Prop := {
  inv_ready_valid :
    ∀ a, a ∈ ready_queue st.1 → (a < length (heap st.1))%nat;
  inv_ready_nodup : NoDup (ready_queue st.1);
  inv_ready_unfinished :
    ∀ a, a ∈ ready_queue st.1 → finish_time (deref st.1 a) = -1;
  inv_job_task :
    ∀ a, (a < length (heap st.1))%nat →
      ∃ task, task ∈ tasks st.1 ∧ task_id (deref st.1 a) = id task ∧
        arrival_time (deref st.1 a) `mod` period task = 0 ∧
        0 ≤ arrival_time (deref st.1 a) < n ∧
        absolute_deadline (deref st.1 a) = arrival_time (deref st.1 a) + deadline task;
  inv_cur_ready : ∀ c, st.2 = Some c → c ∈ ready_queue st.1;
  inv_cur_started : ∀ c, st.2 = Some c → start_time (deref st.1 c) ≠ -1;
  inv_completed :
    ∀ a, a ∈ completed_jobs st.1 →
      (a < length (heap st.1))%nat ∧ (a ∉ ready_queue st.1) ∧
      arrival_time (deref st.1 a) < finish_time (deref st.1 a) ≤ n
}.

(** The effect of step 3 alone. *)
Definition dispatch_effect (t : Z) (oc : option nat) (s1 : Scheduler) : Scheduler :=
  match oc with
  | None => s1
  | Some c =>
      if decide (start_time (deref s1 c) = -1)
      then update_job c (set_start_time t) s1 else s1
  end.

(** How the job [oc] that runs in a tick relates to the ready queue of the
    scheduler [s1] reached after the releases: it is the first job of
    minimal key, or the job that was already running when that first job
    compares equal to it. *)
Definition chosen (cur : option nat) (s1 : Scheduler) (oc : option nat) : Prop :=
  match oc with
  | None => ready_queue s1 = [] ∨ ¬ known_algorithm (algorithm s1)
  | Some c =>
      known_algorithm (algorithm s1) ∧
      ∃ m, first_min (job_key s1) (ready_queue s1) m ∧
           (c = m ∨ (cur = Some c ∧ deref s1 c = deref s1 m))
  end.

(** The trace entry appended by step 4 when [st2] is the outcome of
    [dispatch] at tick [t]. *)
Definition trace_entry_of (t : Z) (st2 : Scheduler * option nat) : Z * option Z :=
  (t, (λ c, task_id (deref st2.1 c)) <$> st2.2).

(** The scheduler after [n] ticks in which nothing is dispatched. *)
Fixpoint idle_state (n : nat) (s : Scheduler) : Scheduler :=
  match n with
  | O => s
  | S n' =>
      let s' := idle_state n' s in
      let s1 := released (Z.of_nat n') (tasks s') (set_time (Z.of_nat n') s') in
      set_history (history s1 ++ [(Z.of_nat n', None)]) s1
  end.

(** The way [main] drives one simulation: construct, run, aggregate. *)
Definition simulate_from (s0 : Scheduler) (duration : option Z)
  : result (list Job * list (Z * option Z) * gmap Z sim_stats) :=
  out ← run s0 duration;
  stats ← analyze_results out.1;
  Ok (out.2.1, out.2.2, stats).

Definition simulate (tasks0 : list Task) (alg : string) (duration : option Z)
  : result (list Job * list (Z * option Z) * gmap Z sim_stats) :=
  simulate_from (Scheduler_init tasks0 alg) duration.

(** The entries that [main] compares in its validation step. *)
Definition analytic_wcrt (analysis : option (result (gmap Z analytic_record)))
  (tid : Z) : option Z :=
  match analysis with
  | Some (Ok results) => an_WCRT_Analytic <$> results !! tid
  | _ => None
  end.

Definition simulated_wcrt
  (sim : result (list Job * list (Z * option Z) * gmap Z sim_stats)) (tid : Z)
  : option Z :=
  match sim with
  | Ok out => Sim_WCRT <$> out.2 !! tid
  | Raise _ => None
  end.

(** Enough fuel for every fixed-point iteration of an analysis. *)
Definition analysis_fuel (tasks0 : list Task) : nat :=
  foldr (λ t acc, Nat.max (wcrt_fuel t) acc) 0%nat tasks0.

(** The priorities increase strictly along the list. *)
Definition priorities_follow (order : list Task) : Prop :=
  ∀ (i j : nat) (a b : Task),
    order !! i = Some a → order !! j = Some b → (i < j)%nat →
    priority a < priority b.

(** The sum of a list of integers, as the statistics are specified. *)
Definition Zsum (l : list Z) : Z := foldr Z.add 0 l.

(** The response time of a finished job. *)
Definition finished_response (j : Job) : Z := finish_time j - arrival_time j.

(** The job at address [a] is the one that runs in tick [t] of the run
    started from [s0]. *)
Definition runs_at (s0 : Scheduler) (t a : nat) : Prop :=
  ∃ st s2, run_ticks t s0 = Ok st ∧ dispatch (Z.of_nat t) st = Ok (s2, Some a).

(** The start time of the job at address [a] after [n] ticks of the run
    started from [s0]; [None] when no such job exists yet. *)
Definition start_time_at (s0 : Scheduler) (n a : nat) : option Z :=
  match run_ticks n s0 with
  | Ok st => start_time <$> heap st.1 !! a
  | Raise _ => None
  end.

(** The history part of the pair returned by [run]. *)
Definition trace_of (r : result (Scheduler * (list Job * list (Z * option Z))))
  : result (list (Z * option Z)) :=
  out ← r; Ok out.2.2.

(** The priority assignment that the constructor applies for DM, keyed by
    period instead of deadline: what a rate-monotonic ordering policy applied
    at construction would store. *)
Definition rm_policy_priorities (tasks0 : list Task) : list Task :=
  assign_priorities (sort_by period Z.ltb tasks0).

(** ** The workload recurrences behind the response-time bound *)

(** Execution time released at tick [n] by the tasks [hps]. *)
Definition hp_release (hps : list Task) (n : nat) : Z :=
  Zsum ((λ hp, if decide (Z.of_nat n `mod` period hp = 0) then wcet hp else 0)
          <$> hps).

(** Pending execution time of the jobs of [hps] at the head of tick [n],
    when those jobs have precedence over every other job: what was pending,
    plus what is released, minus the one unit served in a tick that has
    some of it to serve. *)
Fixpoint busy_work (hps : list Task) (n : nat) : Z :=
  match n with
  | O => 0
  | S n' =>
      let w := busy_work hps n' + hp_release hps n' in
      if decide (0 < w) then w - 1 else w
  end.

(** Tick [n] serves a job of [hps]. *)
Definition busy (hps : list Task) (n : nat) : Prop :=
  0 < busy_work hps n + hp_release hps n.

#[global] Instance busy_dec (hps : list Task) (n : nat) : Decision (busy hps n).
Proof. unfold busy. apply _. Defined.

(** Pending execution time, at the head of tick [n], of the jobs of a task
    of execution time [C] and period [T] that runs whenever no job of [hps]
    is pending. *)
Fixpoint own_work (hps : list Task) (C T : Z) (n : nat) : Z :=
  match n with
  | O => 0
  | S n' =>
      let x := own_work hps C T n'
               + (if decide (Z.of_nat n' `mod` T = 0) then C else 0) in
      if decide (¬ busy hps n' ∧ 0 < x) then x - 1 else x
  end.

(** Number of ticks of [a, a + len) that serve a job of [hps]. *)
Fixpoint busy_count (hps : list Task) (a len : nat) : Z :=
  match len with
  | O => 0
  | S l => busy_count hps a l + (if decide (busy hps (a + l)) then 1 else 0)
  end.

(** Execution time released by [hps] in the ticks of [a, a + len). *)
Fixpoint release_sum (hps : list Task) (a len : nat) : Z :=
  match len with
  | O => 0
  | S l => release_sum hps a l + hp_release hps (a + l)
  end.

(** ** Pending work in the simulator *)

(** Remaining execution time of the ready jobs whose task id satisfies [P]. *)
Definition pending (P : Z → Prop) `{!∀ i, Decision (P i)} (s : Scheduler) : Z :=
  Zsum ((λ a, if decide (P (task_id (deref s a)))
              then remaining_time (deref s a) else 0) <$> ready_queue s).

(** The tasks that have precedence over [task] under fixed priorities. *)
Definition higher_priority (ts : list Task) (task : Task) : list Task :=
  filter (λ hp, priority hp < priority task) ts.

(** Every ready job still has execution time left. *)
Definition work_inv (s : Scheduler) : Prop :=
  ∀ a, a ∈ ready_queue s → 0 < remaining_time (deref s a).

(** The job object after it has run in tick [t]. *)
Definition executed_job (t : Z) (j : Job) : Job :=
  let j1 := if decide (start_time j = -1) then set_start_time t j else j in
  let j2 := set_remaining_time (remaining_time j1 - 1) j1 in
  if decide (remaining_time j2 = 0) then set_finish_time (t + 1) j2 else j2.

(** ** main.py: the blocks of the Gantt chart *)

(** The loop of [plot_gantt] that merges consecutive trace entries of the
    same task: a block [(start, length, task_id)] is closed when the task of
    the entry read differs from the current one. *)
Fixpoint merge_loop (history0 : list (Z * option Z)) (current_start_time : Z)
  (current_task_id : option Z) (merged_blocks0 : list (Z * Z * Z))
  : list (Z * Z * Z) * Z * option Z :=
  match history0 with
  | [] => (merged_blocks0, current_start_time, current_task_id)
  | (t, task_id0) :: history' =>
      if decide (task_id0 ≠ current_task_id) then
        let blocks :=
          match current_task_id with
          | Some c => merged_blocks0 ++ [(current_start_time, t - current_start_time, c)]
          | None => merged_blocks0
          end in
        merge_loop history' t task_id0 blocks
      else merge_loop history' current_start_time current_task_id merged_blocks0
  end.

(** The list [merged_blocks] that [plot_gantt] draws: the loop started from
    the first entry, then the final block, which ends one past the time of
    the last entry. *)
Definition merged_blocks (history0 : list (Z * option Z)) : list (Z * Z * Z) :=
  match history0 with
  | [] => []
  | first :: _ =>
      let '(blocks, current_start_time, current_task_id) :=
        merge_loop history0 first.1 first.2 [] in
      match current_task_id with
      | Some c =>
          let last_t := (default first (last history0)).1 + 1 in
          blocks ++ [(current_start_time, last_t - current_start_time, c)]
      | None => blocks
      end
  end.

(** The trace entries that a block stands for. *)
Definition block_entries (b : Z * Z * Z) : list (Z * option Z) :=
  (λ i : nat, (b.1.1 + Z.of_nat i, Some b.2)) <$> seq 0 (Z.to_nat b.1.2).

(** ** The life of a job *)

(** [j] is a job object released by [task]: the fields written at its
    creation. *)
Definition job_of (task : Task) (j : Job) : Prop :=
  task_id j = id task ∧
  arrival_time j `mod` period task = 0 ∧
  job_id j = arrival_time j `div` period task ∧
  absolute_deadline j = arrival_time j + deadline task ∧
  0 ≤ arrival_time j.

(** The three phases of a job of execution time [C] at the head of tick
    [n]: not yet started; started at some earlier tick and run for at most
    the ticks since; finished, no earlier than [C] ticks after its start. *)
Definition job_phase (n C : Z) (j : Job) : Prop :=
  (start_time j = -1 ∧ finish_time j = -1 ∧ remaining_time j = C)
  ∨ (finish_time j = -1 ∧ arrival_time j ≤ start_time j < n ∧
     C - (n - start_time j) ≤ remaining_time j < C)
  ∨ (remaining_time j = 0 ∧ arrival_time j ≤ start_time j ∧
     start_time j < finish_time j ≤ n ∧ C ≤ finish_time j - start_time j).

(** ** The workload due by a time, for EDF *)

(** Execution time released at tick [n] by jobs whose absolute deadline is
    at most [L]. *)
Definition due_release (L : Z) (ts : list Task) (n : nat) : Z :=
  Zsum ((λ task, if decide (Z.of_nat n `mod` period task = 0
                            ∧ Z.of_nat n + deadline task ≤ L)
                 then wcet task else 0) <$> ts).

(** Pending execution time, at the head of tick [n], of the jobs due by
    [L], when such jobs run before all others: what was pending, plus what
    is released, minus the unit served in a tick that has some to serve. *)
Fixpoint due_work (L : Z) (ts : list Task) (n : nat) : Z :=
  match n with
  | O => 0
  | S n' =>
      let w := due_work L ts n' + due_release L ts n' in
      if decide (0 < w) then w - 1 else w
  end.

(** Execution time released by jobs due by [L] in the ticks of
    [a, a + len). *)
Fixpoint due_sum (L : Z) (ts : list Task) (a len : nat) : Z :=
  match len with
  | O => 0
  | S l => due_sum L ts a l + due_release L ts (a + l)
  end.

(** Number of jobs due by [L] that a task of period [T] and relative
    deadline [D] releases in the ticks of [a, a + len). *)
Fixpoint due_count (L T D : Z) (a len : nat) : Z :=
  match len with
  | O => 0
  | S l =>
      due_count L T D a l
      + (if decide (Z.of_nat (a + l) `mod` T = 0 ∧ Z.of_nat (a + l) + D ≤ L)
         then 1 else 0)
  end.

(** Remaining execution time of the ready jobs whose absolute deadline is at
    most [L]. *)
Definition pending_due (L : Z) (s : Scheduler) : Z :=
  Zsum ((λ a, if decide (absolute_deadline (deref s a) ≤ L)
              then remaining_time (deref s a) else 0) <$> ready_queue s).

(** * Properties *)

(** ** Generic facts about the result monad *)

Lemma bind_Ok {A B} (m : result A) (f : A → result B) (b : B) :
  m ≫= f = Ok b ↔ ∃ a, m = Ok a ∧ f a = Ok b.
Proof.
  destruct m as [a|e]; simpl.
  - split; [eauto | intros (a' & [= <-] & ?); done].
  - split; [done | intros (a' & ? & ?); done].
Qed.

(** ** The fixed-point iteration of the response-time analysis *)

Lemma ceil_div_mono (a a' b : Z) : 0 < b → a ≤ a' → ceil_div a b ≤ ceil_div a' b.
Proof.
  intros Hb Ha. unfold ceil_div.
  assert ((- a') `div` b ≤ (- a) `div` b) by (apply Z.div_le_mono; lia).
  lia.
Qed.

Lemma ceil_div_nonneg (a b : Z) : 0 < b → 0 ≤ a → 0 ≤ ceil_div a b.
Proof.
  intros Hb Ha. unfold ceil_div.
  assert ((- a) `div` b ≤ 0 `div` b) as H by (apply Z.div_le_mono; lia).
  rewrite Z.div_0_l in H by lia. lia.
Qed.

Lemma interference_of_cons (hp : Task) (hps : list Task) (R : Z) :
  interference_of (hp :: hps) R
  = ceil_div R (period hp) * wcet hp + interference_of hps R.
Proof. reflexivity. Qed.

Lemma interference_loop_eq (hps : list Task) (R acc : Z) :
  Forall (λ hp, period hp ≠ 0) hps →
  interference_loop R hps acc = Ok (acc + interference_of hps R).
Proof.
  intros Hok. revert acc.
  induction Hok as [|hp l Hp _ IH]; intros acc.
  - simpl. f_equal. unfold interference_of. simpl. lia.
  - rewrite interference_of_cons. simpl.
    unfold py_ceil_truediv. destruct (decide (period hp = 0)); [lia|].
    simpl. rewrite IH. f_equal. lia.
Qed.

Lemma interference_of_mono (hps : list Task) (R R' : Z) :
  Forall hp_ok hps →
  R ≤ R' → interference_of hps R ≤ interference_of hps R'.
Proof.
  intros Hok HR.
  induction Hok as [|hp l [Hp Hw] _ IH]; [done|].
  rewrite !interference_of_cons.
  pose proof (ceil_div_mono R R' (period hp) Hp HR). nia.
Qed.

Lemma interference_of_nonneg (hps : list Task) (R : Z) :
  Forall hp_ok hps →
  0 ≤ R → 0 ≤ interference_of hps R.
Proof.
  intros Hok HR.
  induction Hok as [|hp l [Hp Hw] _ IH]; [done|].
  rewrite interference_of_cons.
  pose proof (ceil_div_nonneg R (period hp) Hp HR). nia.
Qed.

Section wcrt_iteration.
Variables (task : Task) (hps : list Task).
Hypothesis hps_ok : Forall hp_ok hps.

Lemma wcrt_candidate_eq (R : Z) :
  wcrt_candidate task hps R = Ok (wcet task + interference_of hps R).
Proof.
  unfold wcrt_candidate. rewrite interference_loop_eq; [done|].
  eapply Forall_impl; [exact hps_ok|]. intros hp [? ?]. lia.
Qed.

Hypothesis wcet_pos : 0 < wcet task.

Lemma R_seq_mono (n : nat) : R_seq task hps n ≤ R_seq task hps (S n).
Proof.
  induction n as [|n IH].
  - simpl. pose proof (interference_of_nonneg hps (wcet task) hps_ok). lia.
  - change (R_seq task hps (S (S n)))
      with (wcet task + interference_of hps (R_seq task hps (S n))).
    change (R_seq task hps (S n))
      with (wcet task + interference_of hps (R_seq task hps n)) at 1.
    pose proof (interference_of_mono hps _ _ hps_ok IH). lia.
Qed.

Lemma wcrt_loop_step (fuel n : nat) :
  wcrt_loop (S fuel) task hps (R_seq task hps n) =
    if decide (R_seq task hps (S n) > deadline task)
    then Some (Ok (R_seq task hps (S n)))
    else if decide (R_seq task hps (S n) = R_seq task hps n)
    then Some (Ok (R_seq task hps (S n)))
    else wcrt_loop fuel task hps (R_seq task hps (S n)).
Proof. cbn [wcrt_loop]. by rewrite wcrt_candidate_eq. Qed.

(** From the [n]-th candidate, the loop leaves after at most
    [deadline - R_seq n] further passes, at the first exit test that holds. *)
Lemma wcrt_loop_from (d n : nat) :
  deadline task - R_seq task hps n ≤ Z.of_nat d →
  ∃ k : nat, (n ≤ k ≤ n + d)%nat ∧
    (∀ i : nat, (n ≤ i < k)%nat →
       R_seq task hps (S i) ≤ deadline task ∧
       R_seq task hps (S i) ≠ R_seq task hps i) ∧
    (R_seq task hps (S k) > deadline task ∨
     R_seq task hps (S k) = R_seq task hps k) ∧
    ∀ fuel : nat, (k - n < fuel)%nat →
      wcrt_loop fuel task hps (R_seq task hps n) = Some (Ok (R_seq task hps (S k))).
Proof.
  revert n. induction d as [|d IH]; intros n Hd.
  - exists n. pose proof (R_seq_mono n) as Hm.
    split; [lia|]. split; [intros i; lia|]. split; [lia|].
    intros [|fuel] Hf; [lia|]. rewrite wcrt_loop_step.
    repeat case_decide; try done; lia.
  - pose proof (R_seq_mono n) as Hm.
    destruct (decide (R_seq task hps (S n) > deadline task
                      ∨ R_seq task hps (S n) = R_seq task hps n)) as [Hex|Hne].
    + exists n. split; [lia|]. split; [intros i; lia|]. split; [done|].
      intros [|fuel] Hf; [lia|]. rewrite wcrt_loop_step.
      repeat case_decide; try done; lia.
    + destruct (IH (S n)) as (k & Hk & Hbefore & Hexit & Hrun); [lia|].
      exists k. split; [lia|]. split.
      { intros i Hi. destruct (decide (i = n)) as [->|]; [lia|].
        apply Hbefore. lia. }
      split; [done|].
      intros [|fuel] Hf; [lia|]. rewrite wcrt_loop_step.
      repeat case_decide; try lia.
      apply Hrun. lia.
Qed.
End wcrt_iteration.




(** ** Step 1: releases *)

Lemma released_nil (t : Z) (s : Scheduler) : released t [] s = s.
Proof.
  destruct s. unfold released, released_jobs. simpl.
  by rewrite !app_nil_r.
Qed.

Lemma released_jobs_cons (t : Z) (task : Task) (ts : list Task) :
  released_jobs t (task :: ts) =
    if decide (t `mod` period task = 0)
    then new_Job (id task) (t `div` period task) t (t + deadline task) (wcet task)
           :: released_jobs t ts
    else released_jobs t ts.
Proof.
  unfold released_jobs. rewrite filter_cons. by case_decide.
Qed.

Lemma release_loop_released (t : Z) (ts : list Task) (s : Scheduler) :
  Forall (λ task, period task ≠ 0) ts →
  release_loop t ts s = Ok (released t ts s).
Proof.
  intros Hok. revert s. induction Hok as [|task ts Hp _ IH]; intros s.
  - by rewrite released_nil.
  - cbn [release_loop]. unfold release_task, py_mod.
    destruct (decide (period task = 0)); [done|]. cbn [mbind result_bind].
    destruct s as [tk al tm hp rq hi cj hy].
    unfold released. rewrite released_jobs_cons.
    case_decide; cbn [mbind result_bind]; rewrite IH; unfold released; cbn.
    + f_equal. rewrite length_app, <- !app_assoc. cbn.
      by replace (length hp + 1)%nat with (S (length hp)) by lia.
    + done.
Qed.

Lemma release_zero_period (t : Z) (ts : list Task) (s : Scheduler) :
  Exists (λ task, period task = 0) ts →
  release_loop t ts s = Raise ZeroDivisionError.
Proof.
  intros Hex. revert s. induction ts as [|task ts IH]; intros s.
  - by apply Exists_nil in Hex.
  - cbn [release_loop]. unfold release_task, py_mod.
    destruct (decide (period task = 0)) as [|Hne]; [done|].
    apply Exists_cons in Hex as [?|Hex]; [done|].
    cbn [mbind result_bind]. case_decide; cbn [mbind result_bind]; by apply IH.
Qed.

(** ** Step 2: the scheduling decision *)

Lemma get_task_in_Ok (ts : list Task) (tid : Z) :
  (∃ task, task ∈ ts ∧ id task = tid) →
  ∃ t, get_task_in ts tid = Ok t ∧ t ∈ ts ∧ id t = tid.
Proof.
  induction ts as [|t0 ts IH]; intros (task & Hin & Hid).
  - by apply elem_of_nil in Hin.
  - cbn [get_task_in]. destruct (decide (id t0 = tid)) as [Heq|Hne].
    + exists t0. split; [done|]. split; [left|done].
    + apply elem_of_cons in Hin as [->|Hin]; [done|].
      destruct IH as (t & Ht & Hin' & Hid'); [eauto|].
      exists t. split; [done|]. split; [by right|done].
Qed.

Lemma get_task_in_NoDup (ts : list Task) (task : Task) :
  NoDup (id <$> ts) → task ∈ ts → get_task_in ts (id task) = Ok task.
Proof.
  induction ts as [|t0 ts IH]; intros Hnd Hin.
  - by apply elem_of_nil in Hin.
  - rewrite fmap_cons in Hnd. apply NoDup_cons in Hnd as [Hnotin Hnd].
    cbn [get_task_in]. apply elem_of_cons in Hin as [->|Hin].
    + by rewrite decide_True.
    + rewrite decide_False; [by apply IH|].
      intros Heq. apply Hnotin. rewrite Heq. by apply list_elem_of_fmap_2.
Qed.

Lemma py_min_from_spec (key : nat → result Z) (kf : nat → Z) (l : list nat) :
  ∀ (l1 : list nat) (best : nat) (l2 : list nat),
    (∀ x, x ∈ l → key x = Ok (kf x)) →
    (∀ x, x ∈ l1 → kf best < kf x) →
    (∀ x, x ∈ l2 → kf best ≤ kf x) →
    ∃ m, py_min_from key best (kf best) l = Ok m ∧
         first_min kf (l1 ++ best :: l2 ++ l) m.
Proof.
  induction l as [|x l IH]; intros l1 best l2 Hkey H1 H2.
  - exists best. split; [done|]. exists l1, l2. by rewrite app_nil_r.
  - cbn [py_min_from]. rewrite (Hkey x) by left. cbn [mbind result_bind].
    assert (∀ y, y ∈ l → key y = Ok (kf y)) as Hkey'
      by (intros y Hy; apply Hkey; by right).
    case_decide as Hlt.
    + destruct (IH (l1 ++ best :: l2) x [] Hkey') as (m & Hm & Hfm).
      * intros y Hy. apply elem_of_app in Hy as [Hy|Hy].
        { specialize (H1 y Hy). lia. }
        apply elem_of_cons in Hy as [->|Hy]; [lia|].
        specialize (H2 y Hy). lia.
      * intros y Hy. by apply elem_of_nil in Hy.
      * exists m. split; [done|].
        by rewrite <- app_assoc in Hfm.
    + destruct (IH l1 best (l2 ++ [x]) Hkey' H1) as (m & Hm & Hfm).
      * intros y Hy. apply elem_of_app in Hy as [Hy|Hy]; [by apply H2|].
        apply list_elem_of_singleton in Hy as ->. lia.
      * exists m. split; [done|].
        by rewrite <- app_assoc in Hfm.
Qed.

Lemma py_min_spec (key : nat → result Z) (kf : nat → Z) (l : list nat) :
  l ≠ [] →
  (∀ x, x ∈ l → key x = Ok (kf x)) →
  ∃ m, py_min key l = Ok m ∧ first_min kf l m.
Proof.
  destruct l as [|x l]; [done|]. intros _ Hkey.
  cbn [py_min]. rewrite (Hkey x) by left. cbn [mbind result_bind].
  destruct (py_min_from_spec key kf l [] x []) as (m & Hm & Hfm).
  - intros y Hy. apply Hkey. by right.
  - intros y Hy. by apply elem_of_nil in Hy.
  - intros y Hy. by apply elem_of_nil in Hy.
  - exists m. by split.
Qed.

Lemma first_min_elem (kf : nat → Z) (l : list nat) (m : nat) :
  first_min kf l m → m ∈ l.
Proof.
  intros (l1 & l2 & -> & _). apply elem_of_app. right. left.
Qed.

Lemma first_min_le (kf : nat → Z) (l : list nat) (m x : nat) :
  first_min kf l m → x ∈ l → kf m ≤ kf x.
Proof.
  intros (l1 & l2 & -> & H1 & H2) Hx.
  apply elem_of_app in Hx as [Hx|Hx]; [specialize (H1 x Hx); lia|].
  apply elem_of_cons in Hx as [->|Hx]; [lia|]. by apply H2.
Qed.

(** [_get_active_job] never fails on a ready queue whose jobs belong to
    known tasks; it returns the first job of minimal key, or nothing when
    the queue is empty or the algorithm is not one of the three. *)
Lemma get_active_job_spec (s : Scheduler) :
  (∀ a, a ∈ ready_queue s →
     ∃ task, task ∈ tasks s ∧ task_id (deref s a) = id task) →
  (_get_active_job s = Ok None ∧
     (ready_queue s = [] ∨ ¬ known_algorithm (algorithm s))) ∨
  (∃ m, _get_active_job s = Ok (Some m) ∧ known_algorithm (algorithm s) ∧
        first_min (job_key s) (ready_queue s) m).
Proof.
  intros Htask. unfold _get_active_job.
  destruct (ready_queue s) as [|a0 q] eqn:Hq; [left; split; [done|by left]|].
  rewrite <- Hq in *.
  assert (ready_queue s ≠ []) as Hne by (rewrite Hq; done).
  destruct (decide (algorithm s = "RM"%string ∨ algorithm s = "DM"%string))
    as [Hfp|Hnfp].
  - right.
    destruct (py_min_spec (priority_key s) (job_key s) (ready_queue s) Hne)
      as (m & Hm & Hfm).
    { intros x Hx. unfold job_key. rewrite decide_True by done.
      unfold priority_key, get_task.
      destruct (Htask x Hx) as (task & Hin & Hid).
      destruct (get_task_in_Ok (tasks s) (task_id (deref s x)))
        as (t & -> & _ & _); [by exists task|]. done. }
    exists m. rewrite Hm. split; [done|]. split; [|done].
    unfold known_algorithm. tauto.
  - destruct (decide (algorithm s = "EDF"%string)) as [Hedf|Hnedf].
    + right.
      destruct (py_min_spec (deadline_key s) (job_key s) (ready_queue s) Hne)
        as (m & Hm & Hfm).
      { intros x Hx. unfold job_key. by rewrite decide_False by done. }
      exists m. rewrite Hm. split; [done|]. split; [|done].
      unfold known_algorithm. tauto.
    + left. split; [done|]. right. unfold known_algorithm. tauto.
Qed.

(** ** Steps 3 to 5 in closed form *)

Lemma filter_all {A} (P : A → Prop) `{!∀ x, Decision (P x)} (l : list A) :
  (∀ x, x ∈ l → P x) → filter P l = l.
Proof.
  induction l as [|x l IH]; intros Hall; [done|].
  rewrite filter_cons, decide_True by (apply Hall; left).
  f_equal. apply IH. intros y Hy. apply Hall. by right.
Qed.

Lemma list_remove_spec (s : Scheduler) (x : nat) (l : list nat) :
  NoDup l → x ∈ l →
  (∀ y, y ∈ l → y ≠ x → deref s y ≠ deref s x) →
  list_remove s x l = Ok (filter (λ y, y ≠ x) l).
Proof.
  induction l as [|y l IH]; intros Hnd Hin Hne.
  - by apply elem_of_nil in Hin.
  - apply NoDup_cons in Hnd as [Hy Hnd]. cbn [list_remove].
    destruct (decide (y = x)) as [->|Hyx].
    + rewrite decide_True by (by left).
      rewrite filter_cons, decide_False by (intros ?; done).
      f_equal. symmetry. apply filter_all. intros z Hz ->. done.
    + rewrite decide_False.
      2:{ intros [?|Heq]; [done|]. apply (Hne y); [left|done|done]. }
      apply elem_of_cons in Hin as [->|Hin]; [done|].
      rewrite (IH Hnd Hin).
      * cbn [mbind result_bind]. by rewrite filter_cons, decide_True.
      * intros z Hz. apply Hne. by right.
Qed.

Lemma deref_released (t : Z) (ts : list Task) (s : Scheduler) (a : nat) :
  (a < length (heap s))%nat → deref (released t ts s) a = deref s a.
Proof. intros Ha. unfold deref, released. cbn. by apply lookup_total_app_l. Qed.

Lemma deref_update_eq (a : nat) (f : Job → Job) (s : Scheduler) :
  (a < length (heap s))%nat → deref (update_job a f s) a = f (deref s a).
Proof.
  intros Ha. unfold deref, update_job. cbn.
  by rewrite list_lookup_total_insert_eq.
Qed.

Lemma deref_update_ne (a b : nat) (f : Job → Job) (s : Scheduler) :
  a ≠ b → deref (update_job a f s) b = deref s b.
Proof.
  intros Hab. unfold deref, update_job. cbn.
  by rewrite list_lookup_total_insert_ne.
Qed.

(** Step 3 under the invariant: the job that runs is [next_job], or the
    running job when the two compare equal; in both cases its start time is
    set exactly when it is still unset. *)
Lemma context_switch_spec (t : Z) (s1 : Scheduler) (next cur : option nat) :
  (∀ c, cur = Some c → start_time (deref s1 c) ≠ -1) →
  ∃ oc, context_switch t s1 next cur = (dispatch_effect t oc s1, oc) ∧
    match oc with
    | None => next = None
    | Some c => ∃ m, next = Some m ∧
                     (c = m ∨ (cur = Some c ∧ deref s1 c = deref s1 m))
    end.
Proof.
  intros Hstarted. unfold context_switch.
  destruct next as [m|], cur as [b|]; cbn [job_ne].
  - case_bool_decide as Hne.
    + exists (Some m). split; [|exists m; split; [done|by left]].
      cbn [dispatch_effect]. by case_decide.
    + exists (Some b). split.
      * cbn [dispatch_effect]. rewrite decide_False; [done|]. by apply Hstarted.
      * exists m. split; [done|]. right. by split.
  - exists (Some m). split; [|exists m; split; [done|by left]].
    cbn [dispatch_effect]. by case_decide.
  - by exists None.
  - by exists None.
Qed.

(** Steps 4 and 5 after step 3, for a job of the ready queue. *)
Lemma execute_spec (t : Z) (s1 : Scheduler) (oc : option nat) :
  0 ≤ t →
  NoDup (ready_queue s1) →
  (∀ a, a ∈ ready_queue s1 → (a < length (heap s1))%nat) →
  (∀ a, a ∈ ready_queue s1 → finish_time (deref s1 a) = -1) →
  (∀ c, oc = Some c → c ∈ ready_queue s1) →
  execute t (dispatch_effect t oc s1) oc = Ok (tick_effect t oc s1).
Proof.
  intros Ht Hnd Hvalid Hunf Hin.
  destruct oc as [c|]; [|done].
  specialize (Hin c eq_refl). pose proof (Hvalid c Hin) as Hc.
  destruct s1 as [tk al tm hp rq hi cj hy].
  unfold deref in Hunf. cbn in Hnd, Hvalid, Hunf, Hin, Hc.
  unfold dispatch_effect, tick_effect, execute, update_job, deref. cbn.
  destruct (decide (start_time (hp !!! c) = -1)) as [Hs|Hs]; cbn;
    rewrite ?list_lookup_total_insert_eq by (rewrite ?length_insert; done);
    cbn; (case_decide as Hz; cbn;
          [|by rewrite ?list_insert_insert_eq]).
  all: unfold deref; cbn;
    rewrite ?list_lookup_total_insert_eq by (rewrite ?length_insert; done); cbn.
  all: rewrite list_remove_spec; [by rewrite ?list_insert_insert_eq|done|done|].
  all: intros y Hy Hyc; unfold deref; cbn;
    rewrite list_lookup_total_insert_eq by (rewrite ?length_insert; done);
    rewrite !list_lookup_total_insert_ne by done;
    intros Heq; pose proof (Hunf y Hy) as Hf; rewrite Heq in Hf; cbn in Hf; lia.
Qed.

(** ** The loop invariant *)

Lemma released_jobs_lookup (t : Z) (ts : list Task) (i : nat) :
  (i < length (released_jobs t ts))%nat →
  ∃ task, task ∈ ts ∧ t `mod` period task = 0 ∧
    released_jobs t ts !!! i =
      new_Job (id task) (t `div` period task) t (t + deadline task) (wcet task).
Proof.
  intros Hi. apply lookup_lt_is_Some_2 in Hi as [j Hj].
  rewrite (list_lookup_total_correct _ _ _ Hj).
  unfold released_jobs in Hj. apply list_lookup_fmap_Some in Hj as (task & -> & Htask).
  apply list_elem_of_lookup_2 in Htask. apply list_elem_of_filter in Htask as [Hm Hin].
  by exists task.
Qed.

Lemma elem_of_ready_released (t : Z) (ts : list Task) (s : Scheduler) (a : nat) :
  a ∈ ready_queue (released t ts s) ↔
  a ∈ ready_queue s ∨
  (length (heap s) ≤ a < length (heap s) + length (released_jobs t ts))%nat.
Proof.
  unfold released. cbn. rewrite elem_of_app, elem_of_seq. done.
Qed.

Lemma deref_released_new (t : Z) (ts : list Task) (s : Scheduler) (a : nat) :
  (length (heap s) ≤ a)%nat →
  deref (released t ts s) a = released_jobs t ts !!! (a - length (heap s))%nat.
Proof. intros Ha. unfold deref, released. cbn. by apply lookup_total_app_r. Qed.

Lemma length_heap_released (t : Z) (ts : list Task) (s : Scheduler) :
  length (heap (released t ts s))
  = (length (heap s) + length (released_jobs t ts))%nat.
Proof. unfold released. cbn. by rewrite length_app. Qed.

(** Step 1 keeps the invariant, the new jobs arriving at [t]. *)
Lemma released_inv (t : Z) (s : Scheduler) (cur : option nat) :
  0 ≤ t →
  sched_inv t (s, cur) →
  sched_inv (t + 1) (released t (tasks s) (set_time t s), cur).
Proof.
  intros Ht [Hvalid Hnd Hunf Htask Hcr Hcs Hcomp]. cbn [fst snd] in *.
  set (s1 := released t (tasks s) (set_time t s)).
  assert (∀ a, (a < length (heap s))%nat → deref s1 a = deref s a) as Hold.
  { intros a Ha. unfold s1. by rewrite deref_released. }
  assert (∀ a, a ∈ ready_queue s1 →
               a ∈ ready_queue s ∨
               (length (heap s) ≤ a < length (heap s1))%nat) as Hrq.
  { intros a Ha. unfold s1 in *. rewrite length_heap_released.
    by apply elem_of_ready_released in Ha. }
  assert (length (heap s) ≤ length (heap s1))%nat as Hlen.
  { unfold s1. rewrite length_heap_released. cbn. lia. }
  assert (∀ a, (length (heap s) ≤ a < length (heap s1))%nat →
     ∃ task, task ∈ tasks s ∧ t `mod` period task = 0 ∧
       deref s1 a = new_Job (id task) (t `div` period task) t
                            (t + deadline task) (wcet task)) as Hnew.
  { intros a Ha. unfold s1 in *. rewrite length_heap_released in Ha.
    rewrite deref_released_new by (cbn; lia).
    apply released_jobs_lookup. cbn in *. lia. }
  split; cbn [fst snd].
  - intros a Ha. destruct (Hrq a Ha) as [Ha'|Ha']; [|lia].
    specialize (Hvalid a Ha'). lia.
  - unfold s1, released. cbn. apply NoDup_app. split; [done|]. split.
    + intros a Ha Hseq. apply elem_of_seq in Hseq.
      specialize (Hvalid a Ha). lia.
    + apply NoDup_seq.
  - intros a Ha. destruct (Hrq a Ha) as [Ha'|Ha'].
    + rewrite Hold by (by apply Hvalid). by apply Hunf.
    + destruct (Hnew a Ha') as (task & _ & _ & ->). done.
  - intros a Ha. destruct (decide (a < length (heap s))%nat) as [Hlt|Hge].
    + rewrite Hold by done.
      destruct (Htask a Hlt) as (task & Hin & Hid & Hmod & Harr & Hdl).
      exists task. repeat split; try done; lia.
    + destruct (Hnew a) as (task & Hin & Hmod & ->); [lia|].
      exists task. cbn. repeat split; try done; lia.
  - intros c Hc. unfold s1. apply elem_of_ready_released. left. by apply Hcr.
  - intros c Hc. rewrite Hold; [by apply Hcs|]. apply Hvalid. by apply Hcr.
  - intros a Ha. destruct (Hcomp a Ha) as (Hlt & Hnr & Hfin).
    rewrite Hold by done. split; [lia|]. split; [|lia].
    intros Hin. destruct (Hrq a Hin) as [?|?]; [done|lia].
Qed.

(** Steps 3 to 5 keep the invariant. *)
Lemma tick_effect_inv (t : Z) (s1 : Scheduler) (cur oc : option nat) :
  0 ≤ t →
  sched_inv (t + 1) (s1, cur) →
  (∀ c, oc = Some c → c ∈ ready_queue s1) →
  sched_inv (t + 1) (tick_effect t oc s1).
Proof.
  intros Ht [Hvalid Hnd Hunf Htask Hcr Hcs Hcomp] Hoc. cbn [fst snd] in *.
  destruct oc as [c|]; cbn [tick_effect].
  2:{ split; cbn [fst snd]; try done. }
  specialize (Hoc c eq_refl). pose proof (Hvalid c Hoc) as Hc.
  set (j := deref s1 c).
  set (j1 := if decide (start_time j = -1) then set_start_time t j else j).
  set (j2 := set_remaining_time (remaining_time j1 - 1) j1).
  assert (task_id j2 = task_id j ∧ arrival_time j2 = arrival_time j ∧
          absolute_deadline j2 = absolute_deadline j ∧
          finish_time j2 = finish_time j ∧ start_time j2 ≠ -1)
    as (Htid & Harr & Hdl & Hfin & Hst).
  { unfold j2, j1. case_decide; cbn; repeat split; try done; lia. }
  clearbody j2. clear j1.
  destruct (decide (remaining_time j2 = 0)) as [Hz|Hnz].
  - set (h' := <[c:=set_finish_time (t + 1) j2]> (heap s1)).
    assert (∀ a, a ≠ c → h' !!! a = deref s1 a) as Hother.
    { intros a Ha. unfold h'. by rewrite list_lookup_total_insert_ne. }
    assert (h' !!! c = set_finish_time (t + 1) j2) as Hself.
    { unfold h'. by rewrite list_lookup_total_insert_eq. }
    assert (length h' = length (heap s1)) as Hlen by apply length_insert.
    split; unfold deref; cbn [fst snd heap ready_queue completed_jobs tasks].
    + intros a [_ Ha]%list_elem_of_filter. rewrite Hlen. by apply Hvalid.
    + by apply NoDup_filter.
    + intros a [Hne Ha]%list_elem_of_filter. rewrite Hother by done. by apply Hunf.
    + intros a Ha. rewrite Hlen in Ha.
      destruct (Htask a Ha) as (task & Hin & Hid & Hmod & Harr' & Hdl').
      exists task. destruct (decide (a = c)) as [->|Hne].
      * rewrite Hself. cbn. fold j in Hid, Hmod, Harr', Hdl'.
        rewrite Htid, Harr, Hdl. done.
      * rewrite Hother by done. done.
    + done.
    + done.
    + intros a Ha. rewrite Hlen. apply elem_of_app in Ha as [Ha|Ha].
      * destruct (Hcomp a Ha) as (Hlt & Hnr & Hf).
        assert (a ≠ c) by (intros ->; done).
        rewrite Hother by done. split; [done|]. split; [|done].
        intros [_ ?]%list_elem_of_filter. done.
      * apply list_elem_of_singleton in Ha as ->. split; [done|]. split.
        { intros [? _]%list_elem_of_filter. done. }
        rewrite Hself. cbn. rewrite Harr.
        destruct (Htask c Hc) as (task & _ & _ & _ & Harr' & _).
        fold j in Harr'. lia.
  - set (h' := <[c:=j2]> (heap s1)).
    assert (∀ a, a ≠ c → h' !!! a = deref s1 a) as Hother.
    { intros a Ha. unfold h'. by rewrite list_lookup_total_insert_ne. }
    assert (h' !!! c = j2) as Hself.
    { unfold h'. by rewrite list_lookup_total_insert_eq. }
    assert (length h' = length (heap s1)) as Hlen by apply length_insert.
    split; unfold deref; cbn [fst snd heap ready_queue completed_jobs tasks].
    + intros a Ha. rewrite Hlen. by apply Hvalid.
    + done.
    + intros a Ha. destruct (decide (a = c)) as [->|Hne].
      * rewrite Hself, Hfin. by apply Hunf.
      * rewrite Hother by done. by apply Hunf.
    + intros a Ha. rewrite Hlen in Ha.
      destruct (Htask a Ha) as (task & Hin & Hid & Hmod & Harr' & Hdl').
      exists task. destruct (decide (a = c)) as [->|Hne].
      * rewrite Hself. fold j in Hid, Hmod, Harr', Hdl'.
        rewrite Htid, Harr, Hdl. done.
      * rewrite Hother by done. done.
    + intros c' [= <-]. done.
    + intros c' [= <-]. by rewrite Hself.
    + intros a Ha. rewrite Hlen.
      destruct (Hcomp a Ha) as (Hlt & Hnr & Hf).
      assert (a ≠ c) by (intros ->; done).
      rewrite Hother by done. done.
Qed.

(** ** One tick in closed form *)

Lemma tasks_tick_effect (t : Z) (oc : option nat) (s1 : Scheduler) :
  tasks (tick_effect t oc s1).1 = tasks s1 ∧
  algorithm (tick_effect t oc s1).1 = algorithm s1 ∧
  hyperperiod (tick_effect t oc s1).1 = hyperperiod s1.
Proof.
  destruct oc as [c|]; cbn [tick_effect]; [|done]. by case_decide.
Qed.

Lemma tick_spec (t : Z) (st : Scheduler * option nat) :
  0 ≤ t →
  Forall (λ task, period task ≠ 0) (tasks st.1) →
  sched_inv t st →
  let s1 := released t (tasks st.1) (set_time t st.1) in
  ∃ oc, dispatch t st = Ok (dispatch_effect t oc s1, oc) ∧
        tick t st = Ok (tick_effect t oc s1) ∧
        chosen st.2 s1 oc ∧
        (∀ c, oc = Some c → c ∈ ready_queue s1) ∧
        sched_inv (t + 1) (tick_effect t oc s1).
Proof.
  intros Ht Hper Hinv s1. destruct st as [s cur]. cbn [fst snd] in *.
  pose proof (released_inv t s cur Ht Hinv) as Hinv1. fold s1 in Hinv1.
  pose proof Hinv1 as [Hvalid Hnd Hunf Htask Hcr Hcs Hcomp]. cbn [fst snd] in *.
  assert (release t (set_time t s) = Ok s1) as Hrel.
  { unfold release. by rewrite release_loop_released. }
  assert (∃ next oc,
    _get_active_job s1 = Ok next ∧
    context_switch t s1 next cur = (dispatch_effect t oc s1, oc) ∧
    chosen cur s1 oc ∧ (∀ c, oc = Some c → c ∈ ready_queue s1))
    as (next & oc & Hnext & Hsw & Hch & Hoc).
  { destruct (get_active_job_spec s1) as [[Hg Hnone]|(m & Hg & Hknown & Hfm)].
    { intros a Ha. destruct (Htask a (Hvalid a Ha)) as (task & ? & ? & _).
      by exists task. }
    - exists None. destruct (context_switch_spec t s1 None cur Hcs) as (oc & Hsw & Hrel').
      exists oc. split; [done|]. split; [done|].
      destruct oc as [c|]; [by destruct Hrel' as (m & ? & _)|]. done.
    - exists (Some m).
      destruct (context_switch_spec t s1 (Some m) cur Hcs) as (oc & Hsw & Hrel').
      exists oc. split; [done|]. split; [done|].
      destruct oc as [c|]; [|done].
      destruct Hrel' as (m' & [= <-] & Hcm). split.
      + split; [done|]. by exists m.
      + intros c' [= <-]. destruct Hcm as [->|[Hcur _]].
        * by eapply first_min_elem.
        * by apply Hcr. }
  exists oc.
  assert (dispatch t (s, cur) = Ok (dispatch_effect t oc s1, oc)) as Hdisp.
  { unfold dispatch. cbn [fst snd]. rewrite Hrel. cbn [mbind result_bind].
    rewrite Hnext. cbn [mbind result_bind]. by rewrite Hsw. }
  split; [done|]. split.
  { unfold tick. rewrite Hdisp. cbn [mbind result_bind fst snd].
    by apply execute_spec. }
  split; [done|]. split; [done|].
  by eapply tick_effect_inv.
Qed.

Lemma run_loop_app (l1 l2 : list Z) (st : Scheduler * option nat) :
  run_loop (l1 ++ l2) st = run_loop l1 st ≫= run_loop l2.
Proof.
  revert st. induction l1 as [|t l1 IH]; intros st; [done|].
  cbn [app run_loop]. destruct (tick t st) as [st'|e]; [|done].
  cbn [mbind result_bind]. apply IH.
Qed.

Lemma run_ticks_S (n : nat) (s : Scheduler) :
  run_ticks (S n) s = run_ticks n s ≫= tick (Z.of_nat n).
Proof.
  unfold run_ticks. rewrite seq_S, fmap_app, run_loop_app.
  destruct (run_loop (Z.of_nat <$> seq 0 n) (s, None)) as [st|e]; [|done].
  cbn [mbind result_bind fmap list_fmap run_loop Nat.add].
  by destruct (tick (Z.of_nat n) st).
Qed.

Lemma sched_inv_init (tasks0 : list Task) (alg : string) :
  sched_inv 0 (Scheduler_init tasks0 alg, None).
Proof.
  split; cbn [fst snd Scheduler_init ready_queue heap completed_jobs];
    try done; try apply NoDup_nil_2; intros a Ha;
    try (by apply elem_of_nil in Ha); cbn in Ha; lia.
Qed.

(** The first [n] ticks of a run never fail when no period is zero, and
    lead to a state satisfying the invariant. *)
Lemma run_ticks_inv (n : nat) (s : Scheduler) :
  Forall (λ task, period task ≠ 0) (tasks s) →
  sched_inv 0 (s, None) →
  ∃ st, run_ticks n s = Ok st ∧ sched_inv (Z.of_nat n) st ∧
        tasks st.1 = tasks s ∧ algorithm st.1 = algorithm s ∧
        hyperperiod st.1 = hyperperiod s.
Proof.
  intros Hper Hinit. induction n as [|n (st & Hrun & Hinv & Htk & Hal & Hhy)].
  - exists (s, None). split; [done|]. split; [exact Hinit|done].
  - rewrite run_ticks_S, Hrun. cbn [mbind result_bind].
    destruct (tick_spec (Z.of_nat n) st) as (oc & _ & Htick & _ & _ & Hinv');
      [lia|by rewrite Htk|done|].
    eexists. split; [exact Htick|].
    replace (Z.of_nat (S n)) with (Z.of_nat n + 1) by lia.
    split; [done|].
    destruct (tasks_tick_effect (Z.of_nat n) oc
                (released (Z.of_nat n) (tasks st.1) (set_time (Z.of_nat n) st.1)))
      as (-> & -> & ->).
    done.
Qed.

(** ** Construction *)

Lemma insert_by_perm {A K} (key : A → K) (ltb : K → K → bool) (x : A) (l : list A) :
  insert_by key ltb x l ≡ₚ x :: l.
Proof.
  induction l as [|y l IH]; [done|]. cbn [insert_by].
  destruct (ltb (key y) (key x)); [|done].
  rewrite IH. apply perm_swap.
Qed.

Lemma sort_by_perm {A K} (key : A → K) (ltb : K → K → bool) (l : list A) :
  sort_by key ltb l ≡ₚ l.
Proof.
  induction l as [|x l IH]; [done|]. unfold sort_by. cbn [foldr].
  rewrite insert_by_perm. by apply perm_skip.
Qed.

Lemma fmap_assign_priorities {B} (f : Task → B) (l : list Task) :
  (∀ p t, f (set_priority p t) = f t) →
  f <$> assign_priorities l = f <$> l.
Proof.
  intros Hf. unfold assign_priorities. rewrite fmap_imap.
  rewrite <- (imap_const f). apply imap_ext. intros i x _. apply Hf.
Qed.

(** The constructor keeps every field but the priority of every task. *)
Lemma init_tasks_fmap {B} (f : Task → B) (tasks0 : list Task) (alg : string) :
  (∀ p t, f (set_priority p t) = f t) →
  f <$> tasks (Scheduler_init tasks0 alg) ≡ₚ f <$> tasks0.
Proof.
  intros Hf. unfold Scheduler_init. cbn [tasks]. case_decide; [|done].
  rewrite fmap_assign_priorities by done.
  by rewrite sort_by_perm.
Qed.

Lemma init_tasks_period (tasks0 : list Task) (alg : string) (P : Z → Prop) :
  Forall (λ task, P (period task)) tasks0 →
  Forall (λ task, P (period task)) (tasks (Scheduler_init tasks0 alg)).
Proof.
  intros H. apply (Forall_fmap period P). apply (Forall_fmap period P) in H.
  by rewrite init_tasks_fmap.
Qed.

Lemma init_tasks_not_DM (tasks0 : list Task) (alg : string) :
  alg ≠ "DM"%string → tasks (Scheduler_init tasks0 alg) = tasks0.
Proof. intros H. unfold Scheduler_init. cbn. by rewrite decide_False. Qed.

(** ** The execution trace *)

Lemma history_tick_effect (t : Z) (oc : option nat) (s1 : Scheduler) :
  history (tick_effect t oc s1).1
  = history s1 ++ [trace_entry_of t (dispatch_effect t oc s1, oc)].
Proof.
  destruct oc as [c|]; [|done].
  assert (task_id (deref (dispatch_effect t (Some c) s1) c) = task_id (deref s1 c))
    as Htid.
  { cbn [dispatch_effect]. case_decide; [|done].
    unfold deref, update_job. cbn. rewrite list_lookup_total_insert.
    by case_decide. }
  unfold trace_entry_of. cbn [fst snd fmap option_fmap option_map]. rewrite Htid.
  cbn [tick_effect]. by case_decide.
Qed.

Lemma history_released (t : Z) (ts : list Task) (s : Scheduler) :
  history (released t ts (set_time t s)) = history s.
Proof. done. Qed.

Lemma run_ticks_history (n : nat) (s : Scheduler) :
  Forall (λ task, period task ≠ 0) (tasks s) →
  sched_inv 0 (s, None) →
  ∃ st, run_ticks n s = Ok st ∧
    length (history st.1) = (length (history s) + n)%nat ∧
    ∀ i : nat, (i < n)%nat →
      ∃ sti st2, run_ticks i s = Ok sti ∧
        dispatch (Z.of_nat i) sti = Ok st2 ∧
        history st.1 !! (length (history s) + i)%nat
          = Some (trace_entry_of (Z.of_nat i) st2) ∧
        (∀ s1, release (Z.of_nat i) (set_time (Z.of_nat i) sti.1) = Ok s1 →
               ready_queue s1 = [] →
               history st.1 !! (length (history s) + i)%nat
                 = Some (Z.of_nat i, None)).
Proof.
  intros Hper Hinit. induction n as [|n (st & Hrun & Hlen & Hent)].
  - exists (s, None). split; [done|]. split; [cbn; lia|]. intros i Hi. lia.
  - destruct (run_ticks_inv n s Hper Hinit) as (st' & Hrun' & Hinv & Htk & _).
    rewrite Hrun in Hrun'. injection Hrun' as <-.
    destruct (tick_spec (Z.of_nat n) st) as (oc & Hdisp & Htick & Hch & Hoc & _);
      [lia|by rewrite Htk|done|].
    set (s1 := released (Z.of_nat n) (tasks st.1) (set_time (Z.of_nat n) st.1)) in *.
    exists (tick_effect (Z.of_nat n) oc s1).
    split; [by rewrite run_ticks_S, Hrun|].
    rewrite history_tick_effect. unfold s1 at 1 3 5. rewrite history_released.
    split; [rewrite length_app; cbn; lia|].
    intros i Hi. destruct (decide (i = n)) as [->|Hne].
    + exists st, (dispatch_effect (Z.of_nat n) oc s1, oc).
      split; [done|]. split; [done|].
      rewrite <- Hlen. split; [by rewrite list_lookup_middle|].
      intros s1' Hrel Hempty.
      assert (s1' = s1) as ->.
      { unfold release in Hrel. rewrite release_loop_released in Hrel
          by (cbn [tasks set_time]; by rewrite Htk).
        by injection Hrel as <-. }
      destruct oc as [c|]; [|by rewrite list_lookup_middle].
      specialize (Hoc c eq_refl). rewrite Hempty in Hoc.
      by apply elem_of_nil in Hoc.
    + destruct (Hent i) as (sti & st2 & Hi1 & Hi2 & Hi3 & Hi4); [lia|].
      exists sti, st2. split; [done|]. split; [done|].
      split; [by apply lookup_app_l_Some|].
      intros s1' Hrel Hempty. apply lookup_app_l_Some. by apply (Hi4 s1').
Qed.



(** ** Runs in which nothing is dispatched *)

Lemma tick_idle (t : Z) (s : Scheduler) :
  Forall (λ task, period task ≠ 0) (tasks s) →
  let s1 := released t (tasks s) (set_time t s) in
  ready_queue s1 = [] ∨ ¬ known_algorithm (algorithm s) →
  tick t (s, None) = Ok (set_history (history s1 ++ [(t, None)]) s1, None).
Proof.
  intros Hper s1 Hidle.
  assert (_get_active_job s1 = Ok None) as Hg.
  { unfold _get_active_job. destruct (ready_queue s1) as [|a q] eqn:Hq; [done|].
    destruct Hidle as [?|Hunk]; [done|].
    change (algorithm s1) with (algorithm s).
    unfold known_algorithm in Hunk.
    rewrite decide_False by tauto. rewrite decide_False by tauto. done. }
  unfold tick, dispatch, release. cbn [fst snd].
  change (tasks (set_time t s)) with (tasks s).
  rewrite release_loop_released by done. fold s1. cbn [mbind result_bind].
  by rewrite Hg.
Qed.

Lemma idle_state_frame (n : nat) (s : Scheduler) :
  tasks (idle_state n s) = tasks s ∧
  algorithm (idle_state n s) = algorithm s ∧
  completed_jobs (idle_state n s) = completed_jobs s ∧
  hyperperiod (idle_state n s) = hyperperiod s.
Proof. induction n as [|n IH]; [done|]. cbn. exact IH. Qed.

Lemma idle_state_history (n : nat) (s : Scheduler) :
  history (idle_state n s)
  = history s ++ ((λ i : nat, (Z.of_nat i, None)) <$> seq 0 n).
Proof.
  induction n as [|n IH]; [by rewrite app_nil_r|].
  cbn [idle_state]. cbn [history set_history released set_ready_queue set_heap set_time].
  rewrite IH, seq_S, fmap_app, app_assoc. done.
Qed.

Lemma idle_state_heap (n : nat) (s : Scheduler) :
  heap (idle_state n s)
  = heap s ++ mjoin ((λ i : nat, released_jobs (Z.of_nat i) (tasks s)) <$> seq 0 n).
Proof.
  induction n as [|n IH]; [by rewrite app_nil_r|].
  cbn [idle_state]. cbn [heap set_history released set_ready_queue set_heap set_time tasks].
  destruct (idle_state_frame n s) as (-> & _).
  rewrite IH, seq_S, fmap_app, join_app, <- app_assoc. cbn. by rewrite app_nil_r.
Qed.

Lemma idle_state_ready (n : nat) (s : Scheduler) :
  ready_queue s = seq 0 (length (heap s)) →
  ready_queue (idle_state n s) = seq 0 (length (heap (idle_state n s))).
Proof.
  intros Hs. induction n as [|n IH]; [done|].
  cbn [idle_state]. cbn [heap ready_queue set_history released set_ready_queue set_heap set_time tasks].
  rewrite IH, length_app, seq_app. done.
Qed.

Lemma idle_state_ready_nil (n : nat) (s : Scheduler) :
  tasks s = [] → ready_queue s = [] → ready_queue (idle_state n s) = [].
Proof.
  intros Hnil Hq. induction n as [|n IH]; [done|].
  cbn [idle_state]. destruct (idle_state_frame n s) as (-> & _). rewrite Hnil.
  cbn. by rewrite IH.
Qed.

Lemma run_ticks_idle (n : nat) (s : Scheduler) :
  Forall (λ task, period task ≠ 0) (tasks s) →
  (tasks s = [] ∧ ready_queue s = []) ∨ ¬ known_algorithm (algorithm s) →
  run_ticks n s = Ok (idle_state n s, None).
Proof.
  intros Hper Hidle. induction n as [|n IH]; [done|].
  rewrite run_ticks_S, IH. cbn [mbind result_bind].
  destruct (idle_state_frame n s) as (Htk & Hal & _).
  rewrite tick_idle; [done|by rewrite Htk|].
  destruct Hidle as [[Hnil Hq]|Hunk]; [left|right; by rewrite Hal].
  rewrite Htk, Hnil. cbn. by rewrite idle_state_ready_nil.
Qed.

(** C10: with an algorithm other than RM, DM and EDF, a run over tasks
    without a zero period raises nothing; every trace entry is idle, no job
    completes, and every released job stays in the ready queue as created. *)
Theorem unknown_algorithm_idles (tasks0 : list Task) (alg : string)
  (duration : option Z) :
  ¬ known_algorithm alg →
  Forall (λ task, period task ≠ 0) tasks0 →
  let s0 := Scheduler_init tasks0 alg in
  let n := Z.to_nat (default (hyperperiod s0) duration) in
  ∃ s,
    run s0 duration
      = Ok (s, ([], (λ i : nat, (Z.of_nat i, None)) <$> seq 0 n)) ∧
    completed_jobs s = [] ∧
    heap s = mjoin ((λ i : nat, released_jobs (Z.of_nat i) tasks0) <$> seq 0 n) ∧
    ready_queue s = seq 0 (length (heap s)).
Proof.
  intros Hunk Hper s0 n.
  assert (alg ≠ "DM"%string) as Hdm by (intros ->; apply Hunk; right; by left).
  assert (tasks s0 = tasks0) as Htk by (by apply init_tasks_not_DM).
  exists (idle_state n s0).
  destruct (idle_state_frame n s0) as (_ & _ & Hcj & _).
  split.
  - unfold run.
    replace (match duration with Some d => d | None => hyperperiod s0 end)
      with (default (hyperperiod s0) duration) by (by destruct duration).
    fold n. rewrite run_ticks_idle; [|by rewrite Htk|by right].
    cbn [mbind result_bind fst snd]. rewrite Hcj, idle_state_history. done.
  - split; [by rewrite Hcj|]. split.
    + by rewrite idle_state_heap, Htk.
    + by apply idle_state_ready.
Qed.

Lemma unknown_algorithm_idles_witness :
  ∃ s, run (Scheduler_init [mkTask "t1" 1 1 2 5 5 0] "FIFO") (Some 3)
       = Ok (s, ([], [(0, None); (1, None); (2, None)])).
Proof.
  destruct (unknown_algorithm_idles [mkTask "t1" 1 1 2 5 5 0] "FIFO" (Some 3))
    as (s & Hrun & _).
  - unfold known_algorithm. intros [H|[H|H]]; discriminate H.
  - apply Forall_cons. split; [cbn; lia|apply Forall_nil_2].
  - exists s. exact Hrun.
Defined.

(** ** The empty task set *)

(** C4 (evaluation on the empty task set): [check_ll_bound] raises
    [ZeroDivisionError] at [1/n] with [n = 0], whereas the constructor yields
    hyperperiod [0] and a run with a caller-supplied duration [d] completes
    with [d] idle entries and no completed job. *)
Theorem empty_task_set_behaviour {F : Type} (ll_values : nat → Q → bool * F * F)
  (alg : string) (d : Z) :
  check_ll_bound ll_values [] = Raise ZeroDivisionError ∧
  hyperperiod (Scheduler_init [] alg) = 0 ∧
  ∃ s, run (Scheduler_init [] alg) (Some d)
       = Ok (s, ([], (λ i : nat, (Z.of_nat i, None)) <$> seq 0 (Z.to_nat d))).
Proof.
  split; [done|]. split; [done|].
  assert (tasks (Scheduler_init [] alg) = []) as Htk.
  { unfold Scheduler_init. cbn. by case_decide. }
  exists (idle_state (Z.to_nat d) (Scheduler_init [] alg)).
  unfold run. rewrite run_ticks_idle; [|by rewrite Htk|by left].
  cbn [mbind result_bind fst snd].
  destruct (idle_state_frame (Z.to_nat d) (Scheduler_init [] alg))
    as (_ & _ & -> & _).
  by rewrite idle_state_history.
Qed.

(** ** The CSV loader *)

(** The loader's call of the [Task] constructor omits the required field
    [name], so no row ever yields a task. *)
Lemma load_row_never_appends (row : csv_row) (tasks0 tasks1 : list Task) :
  load_row row tasks0 = Ok tasks1 → tasks1 = tasks0.
Proof.
  unfold load_row, Task_init. destruct (negb _); [by intros [= <-]|].
  repeat (cbn [mbind result_bind];
          match goal with
          | |- context [?m ≫= _] =>
              lazymatch m with
              | Raise _ => fail
              | Ok _ => fail
              | _ => destruct m; [|done]
              end
          end).
  done.
Qed.

Lemma load_rows_never_append (rows : list csv_row) (tasks0 tasks1 : list Task) :
  load_rows rows tasks0 = Ok tasks1 → tasks1 = tasks0.
Proof.
  revert tasks0. induction rows as [|row rows IH]; intros tasks0; cbn [load_rows].
  - by intros [= <-].
  - destruct (load_row row tasks0) as [tasks'|e] eqn:Hrow; [|done].
    apply load_row_never_appends in Hrow as ->. cbn [mbind result_bind].
    apply IH.
Qed.

(** C5 (evaluation on malformed input): a file whose header lacks the BCET
    column makes the loader raise [TypeError] at [int(None)], and so does a
    file whose well-formed first row precedes a row with a non-integer WCET
    (the [Task] constructor is called without [name]); neither exception is
    handled, so no empty list is returned. *)
Theorem load_tasks_malformed_raises :
  load_tasks_from_csv
    (Some [ {[ "Task" := CStr "1"; "WCET" := CStr "2"; "Period" := CStr "5";
               "Deadline" := CStr "5"; "Priority" := CStr "0" ]} ])
    = Raise TypeError
  ∧
  load_tasks_from_csv
    (Some [ {[ "Task" := CStr "1"; "BCET" := CStr "1"; "WCET" := CStr "2";
               "Period" := CStr "5"; "Deadline" := CStr "5";
               "Priority" := CStr "0" ]};
            {[ "Task" := CStr "2"; "BCET" := CStr "1"; "WCET" := CStr "x";
               "Period" := CStr "5"; "Deadline" := CStr "5";
               "Priority" := CStr "1" ]} ])
    = Raise TypeError.
Proof. split; vm_compute; reflexivity. Qed.

(** ** Result aggregation *)

Lemma py_sum_Zsum (l : list Z) : py_sum l = Zsum l.
Proof.
  unfold py_sum, Zsum.
  assert (∀ acc, foldl Z.add acc l = acc + foldr Z.add 0 l) as H.
  { induction l as [|x l IH]; intros acc; cbn; [lia|]. rewrite IH. lia. }
  rewrite H. lia.
Qed.

Lemma py_max_ge (x : Z) (l : list Z) : x ≤ py_max x l.
Proof.
  unfold py_max. revert x. induction l as [|z l IH]; intros x; cbn [foldl]; [lia|].
  specialize (IH (x `max` z)). lia.
Qed.

Lemma py_max_upper (x : Z) (l : list Z) (y : Z) :
  y ∈ x :: l → y ≤ py_max x l.
Proof.
  revert x. induction l as [|z l IH]; intros x Hy.
  - apply list_elem_of_singleton in Hy as ->. apply py_max_ge.
  - change (py_max x (z :: l)) with (py_max (x `max` z) l).
    pose proof (py_max_ge (x `max` z) l).
    apply elem_of_cons in Hy as [->|Hy]; [lia|].
    apply elem_of_cons in Hy as [->|Hy]; [lia|].
    apply IH. by right.
Qed.

Lemma py_max_elem (x : Z) (l : list Z) : py_max x l ∈ x :: l.
Proof.
  unfold py_max. revert x. induction l as [|z l IH]; intros x; [left|].
  cbn [foldl]. specialize (IH (x `max` z)).
  apply elem_of_cons in IH as [Heq|IH]; [|by do 2 right].
  rewrite Heq. destruct (Z.max_spec x z) as [[_ ->]|[_ ->]]; [right; left|left].
Qed.

Lemma response_times_finished (jobs : list Job) :
  Forall (λ j, finish_time j ≠ -1) jobs →
  response_times jobs = Ok (finished_response <$> jobs).
Proof.
  induction 1 as [|j jobs Hj _ IH]; [done|].
  cbn [response_times]. unfold response_time. rewrite decide_False by done.
  by rewrite IH.
Qed.

Lemma filter_ext_in {A} (P Q : A → Prop) `{!∀ x, Decision (P x)}
  `{!∀ x, Decision (Q x)} (l : list A) :
  (∀ x, x ∈ l → P x ↔ Q x) → filter P l = filter Q l.
Proof.
  induction l as [|x l IH]; intros Hext; [done|].
  rewrite !filter_cons, IH by (intros y Hy; apply Hext; by right).
  destruct (decide (P x)) as [HP|HP], (decide (Q x)) as [HQ|HQ]; try done.
  - exfalso. apply HQ, Hext; [left|done].
  - exfalso. apply HP, Hext; [left|done].
Qed.

Lemma length_filter_ones (P : Job → Prop) `{!∀ j, Decision (P j)} (jobs : list Job) :
  Zsum ((λ _, 1) <$> filter P jobs) = Z.of_nat (length (filter P jobs)).
Proof.
  induction (filter P jobs) as [|j l IH]; [done|].
  cbn [fmap list_fmap Zsum foldr length]. unfold Zsum in IH. rewrite IH. lia.
Qed.

(** What [analyze_results] computes for one task when every completed job
    carries a finish time. *)
Lemma task_stats_spec (completed : list Job) (task : Task) :
  Forall (λ j, finish_time j ≠ -1) completed →
  ∃ st, task_stats completed task = Ok st ∧
    let mine := filter (λ j, task_id j = id task) completed in
    (mine = [] → st = mkStats 0 0 0) ∧
    (mine ≠ [] →
       (∀ j, j ∈ mine → finished_response j ≤ Sim_WCRT st) ∧
       (∃ j, j ∈ mine ∧ Sim_WCRT st = finished_response j) ∧
       (Sim_Avg_RT st == inject_Z (Zsum (finished_response <$> mine))
                         / inject_Z (Z.of_nat (length mine)))%Q ∧
       Missed st = Z.of_nat (length
         (filter (λ j, finish_time j > absolute_deadline j) mine))).
Proof.
  intros Hfin. unfold task_stats.
  assert (Forall (λ j, finish_time j ≠ -1)
            (filter (λ j, task_id j = id task) completed)) as Hmine.
  { apply Forall_forall. intros j [_ Hj]%list_elem_of_filter.
    by eapply Forall_forall in Hfin. }
  destruct (filter (λ j, task_id j = id task) completed) as [|j0 mine'].
  { eexists. split; [done|]. split; [done|]. by intros []. }
  set (mine := j0 :: mine') in *.
  rewrite response_times_finished by done.
  cbn [mbind result_bind]. unfold mine at 1. cbn [fmap list_fmap].
  eexists. split; [done|]. split; [done|]. intros _.
  cbn [Sim_WCRT Sim_Avg_RT Missed].
  change (finished_response j0 :: (finished_response <$> mine'))
    with (finished_response <$> mine).
  split; [|split; [|split]].
  - intros j Hj. apply py_max_upper.
    change (finished_response j0 :: (finished_response <$> mine'))
      with (finished_response <$> mine).
    by apply list_elem_of_fmap_2.
  - pose proof (py_max_elem (finished_response j0) (finished_response <$> mine'))
      as Hel.
    change (finished_response j0 :: (finished_response <$> mine'))
      with (finished_response <$> mine) in Hel.
    apply list_elem_of_fmap in Hel as (j & Hj1 & Hj2).
    by exists j.
  - rewrite py_sum_Zsum.
    assert (length mine ≠ 0)%nat as Hlen by done.
    rewrite <- (Z2Pos.id (Z.of_nat (length mine))) by lia.
    rewrite <- Qmake_Qdiv.
    replace (Z.to_pos (Z.of_nat (length mine))) with (Pos.of_nat (length mine));
      [reflexivity|].
    destruct (length mine) as [|n]; [done|]. lia.
  - rewrite py_sum_Zsum.
    assert (filter (λ j, is_missed j = true) mine
            = filter (λ j, finish_time j > absolute_deadline j) mine) as ->.
    { apply filter_ext_in. intros j Hj. unfold is_missed.
      rewrite decide_False by (by eapply Forall_forall in Hmine).
      by rewrite bool_decide_eq_true. }
    apply length_filter_ones.
Qed.

Lemma task_stats_same_id (completed : list Job) (t1 t2 : Task) :
  id t1 = id t2 → task_stats completed t1 = task_stats completed t2.
Proof. intros Hid. unfold task_stats. by rewrite Hid. Qed.

Lemma stats_loop_spec (completed : list Job) (ts : list Task)
  (stats : gmap Z sim_stats) :
  (∀ task, task ∈ ts → is_Ok (task_stats completed task)) →
  ∃ stats', stats_loop completed ts stats = Ok stats' ∧
    (∀ task, task ∈ ts →
       ∃ st, task_stats completed task = Ok st ∧ stats' !! id task = Some st) ∧
    (∀ i, i ∉ id <$> ts → stats' !! i = stats !! i).
Proof.
  revert stats. induction ts as [|t ts IH]; intros stats Hok.
  - exists stats. split; [done|]. split; [|done].
    intros task Hin. by apply elem_of_nil in Hin.
  - cbn [stats_loop]. destruct (Hok t) as [st Hst]; [left|]. rewrite Hst.
    cbn [mbind result_bind].
    destruct (IH (<[id t:=st]> stats)) as (stats' & Hrun & Hin & Hout).
    { intros task Htask. apply Hok. by right. }
    exists stats'. split; [done|]. split.
    + intros task [->|Htask]%elem_of_cons; [|by apply Hin].
      destruct (decide (id t ∈ id <$> ts)) as [Hdup|Hfresh].
      * apply list_elem_of_fmap in Hdup as (t' & Hid & Ht').
        destruct (Hin t' Ht') as (st' & Hst' & Hlook).
        exists st'. rewrite Hid, Hlook. split; [|done].
        by rewrite (task_stats_same_id completed t t').
      * exists st. split; [done|]. rewrite Hout by done.
        by rewrite lookup_insert_eq.
    + intros i Hi. rewrite fmap_cons in Hi. apply not_elem_of_cons in Hi as [Hne Hi].
      rewrite Hout by done. by rewrite lookup_insert_ne.
Qed.

(** C8: after a run, [analyze_results] succeeds and, for every task, reports
    zeros when none of its jobs completed; otherwise the observed WCRT is the
    maximum of finish minus arrival over its completed jobs, the average is
    their arithmetic mean, and the missed count is the number of them whose
    finish time exceeds the absolute deadline.  Only finished jobs are in
    the completed list, and [is_missed] is false on an unfinished job. *)
Theorem analyze_results_spec (tasks0 : list Task) (alg : string)
  (duration : option Z) :
  Forall (λ task, period task ≠ 0) tasks0 →
  ∃ s jobs hist stats,
    run (Scheduler_init tasks0 alg) duration = Ok (s, (jobs, hist)) ∧
    analyze_results s = Ok stats ∧
    (∀ j, j ∈ jobs → finish_time j ≠ -1) ∧
    (∀ j, finish_time j = -1 → is_missed j = false) ∧
    ∀ task, task ∈ tasks s →
      ∃ st, stats !! id task = Some st ∧
        let mine := filter (λ j, task_id j = id task) jobs in
        (mine = [] → st = mkStats 0 0 0) ∧
        (mine ≠ [] →
           (∀ j, j ∈ mine → finished_response j ≤ Sim_WCRT st) ∧
           (∃ j, j ∈ mine ∧ Sim_WCRT st = finished_response j) ∧
           (Sim_Avg_RT st == inject_Z (Zsum (finished_response <$> mine))
                             / inject_Z (Z.of_nat (length mine)))%Q ∧
           Missed st = Z.of_nat (length
             (filter (λ j, finish_time j > absolute_deadline j) mine))).
Proof.
  intros Hper.
  set (s0 := Scheduler_init tasks0 alg).
  set (n := Z.to_nat (match duration with Some d => d | None => hyperperiod s0 end)).
  destruct (run_ticks_inv n s0) as (st & Hrun & Hinv & Htk & _).
  { by apply (init_tasks_period tasks0 alg (λ p, p ≠ 0)). }
  { apply sched_inv_init. }
  set (jobs := deref st.1 <$> completed_jobs st.1).
  assert (Forall (λ j, finish_time j ≠ -1) jobs) as Hfin.
  { apply Forall_forall. intros j (a & -> & Ha)%list_elem_of_fmap.
    destruct (inv_completed _ _ Hinv a Ha) as (Hlt & _ & Hf).
    destruct (inv_job_task _ _ Hinv a Hlt) as (task & _ & _ & _ & Harr & _).
    lia. }
  destruct (stats_loop_spec jobs (tasks st.1) ∅) as (stats & Hstats & Hin & _).
  { intros task _. destruct (task_stats_spec jobs task Hfin) as (x & Hx & _).
    by exists x. }
  exists st.1, jobs, (history st.1), stats.
  split; [unfold run; fold s0 n; by rewrite Hrun|].
  split; [done|].
  split; [intros j Hj; by eapply Forall_forall in Hfin|].
  split; [intros j Hj; unfold is_missed; by rewrite decide_True|].
  intros task Htask. destruct (Hin task Htask) as (x & Hx & Hlook).
  exists x. split; [done|].
  destruct (task_stats_spec jobs task Hfin) as (x' & Hx' & Hspec).
  rewrite Hx in Hx'. injection Hx' as <-. exact Hspec.
Qed.

Lemma analyze_results_spec_witness :
  ∃ s jobs hist stats,
    run (Scheduler_init [mkTask "t1" 1 1 2 5 5 0] "RM") (Some 10)
      = Ok (s, (jobs, hist)) ∧
    analyze_results s = Ok stats.
Proof.
  destruct (analyze_results_spec [mkTask "t1" 1 1 2 5 5 0] "RM" (Some 10))
    as (s & jobs & hist & stats & Hrun & Hstats & _).
  - apply Forall_cons. split; [cbn; lia|apply Forall_nil_2].
  - exists s, jobs, hist, stats. split; [exact Hrun|exact Hstats].
Defined.

(** ** Start times *)

Lemma start_time_released (t : Z) (ts : list Task) (s : Scheduler) (a : nat) :
  start_time <$> heap (released t ts s) !! a =
    if decide (a < length (heap s))%nat then start_time <$> heap s !! a
    else if decide (a < length (heap s) + length (released_jobs t ts))%nat
         then Some (-1) else None.
Proof.
  unfold released. cbn [heap set_ready_queue set_heap].
  case_decide as Hlt; [by rewrite lookup_app_l|].
  rewrite lookup_app_r by lia. case_decide as Hlt'.
  - destruct (released_jobs_lookup t ts (a - length (heap s))) as (task & _ & _ & Hj);
      [lia|].
    rewrite list_lookup_total_alt in Hj.
    destruct (released_jobs t ts !! (a - length (heap s))%nat) as [j|] eqn:Hl.
    + cbn in Hj. by rewrite Hj.
    + apply lookup_ge_None in Hl. lia.
  - rewrite lookup_ge_None_2; [done|lia].
Qed.

Lemma start_time_tick_effect (t : Z) (oc : option nat) (s1 : Scheduler) (a : nat) :
  start_time <$> heap (tick_effect t oc s1).1 !! a =
    (λ j, if decide (oc = Some a)
          then (if decide (start_time j = -1) then t else start_time j)
          else start_time j) <$> heap s1 !! a.
Proof.
  destruct oc as [c|]; cbn [tick_effect].
  2:{ cbn. by destruct (heap s1 !! a). }
  unfold deref. rewrite list_lookup_total_alt.
  case_decide; cbn [fst heap]; rewrite list_lookup_insert.
  all: destruct (decide (c = a)) as [->|Hne].
  all: try (rewrite decide_False by (intros [? _]; done);
            destruct (heap s1 !! a); cbn; [|done];
            by rewrite decide_False by (intros [= ?]; done)).
  all: destruct (heap s1 !! a) as [j|] eqn:Hj.
  all: try (apply lookup_ge_None in Hj as Hge; by rewrite decide_False by lia).
  all: apply lookup_lt_Some in Hj as Hlt;
    rewrite (decide_True (P := a = a ∧ (a < length (heap s1))%nat)) by done;
    cbn [default fmap option_fmap option_map];
    rewrite (decide_True (P := Some a = Some a)) by done;
    f_equal; repeat case_decide; cbn in *; congruence.
Qed.

Lemma length_heap_tick_effect (t : Z) (oc : option nat) (s1 : Scheduler) :
  length (heap (tick_effect t oc s1).1) = length (heap s1).
Proof.
  destruct oc as [c|]; cbn [tick_effect]; [|done].
  case_decide; cbn [fst heap]; by rewrite length_insert.
Qed.

Section start_times.
Variable s0 : Scheduler.
Hypothesis periods_ok : Forall (λ task, period task ≠ 0) (tasks s0).
Hypothesis init_ok : sched_inv 0 (s0, None).

Lemma runs_at_iff (t : nat) (st : Scheduler * option nat) (oc : option nat)
  (s2 : Scheduler) (a : nat) :
  run_ticks t s0 = Ok st →
  dispatch (Z.of_nat t) st = Ok (s2, oc) →
  runs_at s0 t a ↔ oc = Some a.
Proof.
  intros Hrun Hdisp. split.
  - intros (st' & s2' & Hrun' & Hdisp'). congruence.
  - intros ->. by exists st, s2.
Qed.

(** After [n] ticks, every job either has the unset start time and has
    never run, or carries the first tick in which it ran. *)
Lemma start_time_history (n : nat) :
  ∃ st, run_ticks n s0 = Ok st ∧
    (∀ t a, (t < n)%nat → runs_at s0 t a → (a < length (heap st.1))%nat) ∧
    ∀ a j, heap st.1 !! a = Some j →
      (start_time j = -1 ∧ ∀ t, (t < n)%nat → ¬ runs_at s0 t a) ∨
      (∃ t : nat, (t < n)%nat ∧ start_time j = Z.of_nat t ∧ runs_at s0 t a ∧
                  ∀ t', (t' < t)%nat → ¬ runs_at s0 t' a).
Proof.
  induction n as [|n (st & Hrun & Hran & Hstart)].
  - exists (s0, None). split; [done|]. split; [intros; lia|].
    intros a j Hj. apply lookup_lt_Some in Hj.
    destruct (inv_job_task _ _ init_ok a Hj) as (task & _ & _ & _ & Harr & _).
    lia.
  - destruct (run_ticks_inv n s0 periods_ok init_ok)
      as (st' & Hrun' & Hinv & Htk & _).
    rewrite Hrun in Hrun'. injection Hrun' as <-.
    destruct (tick_spec (Z.of_nat n) st) as (oc & Hdisp & Htick & _ & Hoc & Hinv');
      [lia|by rewrite Htk|done|].
    set (s1 := released (Z.of_nat n) (tasks st.1) (set_time (Z.of_nat n) st.1)) in *.
    exists (tick_effect (Z.of_nat n) oc s1).
    split; [by rewrite run_ticks_S, Hrun|].
    assert (sched_inv (Z.of_nat n + 1) (s1, st.2)) as Hinv1.
    { unfold s1. destruct st as [s cur]. apply released_inv; [lia|done]. }
    assert (length (heap st.1) ≤ length (heap s1))%nat as Hgrow.
    { unfold s1. rewrite length_heap_released. cbn. lia. }
    split.
    + intros t a Ht Hr. rewrite length_heap_tick_effect.
      destruct (decide (t = n)) as [->|Hne].
      * apply (runs_at_iff n st oc _ a Hrun Hdisp) in Hr.
        apply (inv_ready_valid _ _ Hinv1). by apply Hoc.
      * specialize (Hran t a ltac:(lia) Hr). lia.
    + intros a j Hj.
      pose proof (start_time_tick_effect (Z.of_nat n) oc s1 a) as Hst.
      rewrite Hj in Hst. cbn [fmap option_fmap option_map] in Hst.
      destruct (heap s1 !! a) as [j1|] eqn:Hj1; [|done].
      cbn in Hst. injection Hst as Hst.
      pose proof (start_time_released (Z.of_nat n) (tasks st.1)
                    (set_time (Z.of_nat n) st.1) a) as Hrel.
      fold s1 in Hrel. rewrite Hj1 in Hrel. cbn [fmap option_fmap option_map] in Hrel.
      cbn [heap set_time] in Hrel.
      assert (∀ t, (t < n)%nat → ¬ runs_at s0 t a →
                   (t < S n)%nat → oc ≠ Some a → ¬ runs_at s0 t a) as _ by done.
      pose proof (runs_at_iff n st oc _ a Hrun Hdisp) as Hiff.
      destruct (decide (a < length (heap st.1))%nat) as [Hold|Hnew].
      * destruct (heap st.1 !! a) as [j0|] eqn:Hj0;
          [|apply lookup_ge_None in Hj0; lia].
        cbn in Hrel. injection Hrel as Hrel.
        destruct (Hstart a j0 Hj0) as [[Hunset Hnever]|(t & Ht & Hset & Hr & Hfirst)].
        -- destruct (decide (oc = Some a)) as [Hoca|Hoca].
           ++ right. exists n. split; [lia|].
              rewrite decide_True in Hst by congruence.
              split; [congruence|]. split; [by apply Hiff|done].
           ++ left. split; [congruence|]. intros t Ht.
              destruct (decide (t = n)) as [->|?]; [by rewrite Hiff|].
              apply Hnever. lia.
        -- right. exists t. split; [lia|]. split; [|done].
           destruct (decide (oc = Some a)); [|congruence].
           rewrite decide_False in Hst by lia. congruence.
      * assert (∀ t, (t < n)%nat → ¬ runs_at s0 t a) as Hnever.
        { intros t Ht Hr. specialize (Hran t a Ht Hr). lia. }
        case_decide as Hlt; [|done]. injection Hrel as Hrel.
        destruct (decide (oc = Some a)) as [Hoca|Hoca].
        -- right. exists n. split; [lia|].
           rewrite decide_True in Hst by congruence.
           split; [congruence|]. split; [by apply Hiff|done].
        -- left. split; [congruence|]. intros t Ht.
           destruct (decide (t = n)) as [->|?]; [by rewrite Hiff|].
           apply Hnever. lia.
Qed.

Lemma start_time_at_cases (n a : nat) (v : Z) :
  start_time_at s0 n a = Some v →
  (v = -1 ∧ ∀ t, (t < n)%nat → ¬ runs_at s0 t a) ∨
  (∃ t : nat, (t < n)%nat ∧ v = Z.of_nat t ∧ runs_at s0 t a ∧
              ∀ t', (t' < t)%nat → ¬ runs_at s0 t' a).
Proof.
  unfold start_time_at.
  destruct (start_time_history n) as (st & -> & _ & Hstart).
  intros (j & Hj & ->)%fmap_Some. by apply Hstart.
Qed.

Lemma start_time_at_stable (n a : nat) (v : Z) :
  start_time_at s0 n a = Some v →
  (v = -1 ∧ ∀ t, (t < n)%nat → ¬ runs_at s0 t a) ∨
  (∃ t : nat, (t < n)%nat ∧ v = Z.of_nat t ∧ runs_at s0 t a ∧
     (∀ t', (t' < t)%nat → ¬ runs_at s0 t' a) ∧
     (∀ m v', (m ≤ t)%nat → start_time_at s0 m a = Some v' → v' = -1) ∧
     (∀ m v', (t < m)%nat → start_time_at s0 m a = Some v' → v' = Z.of_nat t)).
Proof.
  intros Hv.
  destruct (start_time_at_cases n a v Hv) as [?|(t & Ht & -> & Hr & Hfirst)];
    [by left|].
  right. exists t. repeat split; try done.
  - intros m v' Hm Hv'.
    destruct (start_time_at_cases m a v' Hv') as [[-> _]|(t2 & Ht2 & _ & Hr2 & _)];
      [done|].
    exfalso. apply (Hfirst t2); [lia|done].
  - intros m v' Hm Hv'.
    destruct (start_time_at_cases m a v' Hv')
      as [[_ Hnever]|(t2 & Ht2 & -> & Hr2 & Hfirst2)].
    + exfalso. by apply (Hnever t).
    + destruct (Nat.lt_trichotomy t t2) as [Hlt|[->|Hgt]]; [|done|].
      * exfalso. by apply (Hfirst2 t).
      * exfalso. by apply (Hfirst t2).
Qed.
End start_times.

(** C9: in a run, the start time of a job is the unset value [-1] as long
    as the job has never run; it is set in the first tick [t] in which the
    job runs, to [t], and keeps that value in every later state of the run,
    whether the job is preempted and runs again or not. *)
Theorem start_time_assigned_once (tasks0 : list Task) (alg : string)
  (n a : nat) (v : Z) :
  Forall (λ task, period task ≠ 0) tasks0 →
  start_time_at (Scheduler_init tasks0 alg) n a = Some v →
  (v = -1 ∧ ∀ t, (t < n)%nat → ¬ runs_at (Scheduler_init tasks0 alg) t a) ∨
  (∃ t : nat, (t < n)%nat ∧ v = Z.of_nat t ∧
     runs_at (Scheduler_init tasks0 alg) t a ∧
     (∀ t', (t' < t)%nat → ¬ runs_at (Scheduler_init tasks0 alg) t' a) ∧
     (∀ m v', (m ≤ t)%nat →
        start_time_at (Scheduler_init tasks0 alg) m a = Some v' → v' = -1) ∧
     (∀ m v', (t < m)%nat →
        start_time_at (Scheduler_init tasks0 alg) m a = Some v' → v' = Z.of_nat t)).
Proof.
  intros Hper. apply start_time_at_stable.
  - by apply (init_tasks_period tasks0 alg (λ p, p ≠ 0)).
  - apply sched_inv_init.
Qed.

Lemma start_time_assigned_once_witness :
  ∃ t : nat, (t < 4)%nat ∧
    runs_at (Scheduler_init [mkTask "t1" 1 1 1 2 2 1; mkTask "t2" 2 1 2 4 4 0] "RM")
            t 0.
Proof.
  destruct (start_time_assigned_once
              [mkTask "t1" 1 1 1 2 2 1; mkTask "t2" 2 1 2 4 4 0] "RM" 4 0 2)
    as [[Hv _]|(t & Ht & _ & Hr & _)].
  - apply Forall_cons. split; [cbn; lia|].
    apply Forall_cons. split; [cbn; lia|apply Forall_nil_2].
  - vm_compute. reflexivity.
  - discriminate Hv.
  - exists t. split; [exact Ht|exact Hr].
Defined.

(** ** Dispatch under RM, DM and EDF *)

(** The scheduling decision of tick [n] of a run: the job that runs is the
    first job of minimal key in the ready queue (or the running job that
    compares equal to it), and the processor idles only on an empty queue
    or under an unknown algorithm. *)
Lemma dispatch_chosen (s0 : Scheduler) (n : nat) :
  Forall (λ task, period task ≠ 0) (tasks s0) →
  sched_inv 0 (s0, None) →
  ∃ st s1 s2 oc,
    run_ticks n s0 = Ok st ∧
    release (Z.of_nat n) (set_time (Z.of_nat n) st.1) = Ok s1 ∧
    dispatch (Z.of_nat n) st = Ok (s2, oc) ∧
    tasks s1 = tasks s0 ∧ algorithm s1 = algorithm s0 ∧
    sched_inv (Z.of_nat n + 1) (s1, st.2) ∧
    chosen st.2 s1 oc.
Proof.
  intros Hper Hinit.
  destruct (run_ticks_inv n s0 Hper Hinit) as (st & Hrun & Hinv & Htk & Hal & _).
  destruct (tick_spec (Z.of_nat n) st) as (oc & Hdisp & _ & Hch & _ & _);
    [lia|by rewrite Htk|done|].
  set (s1 := released (Z.of_nat n) (tasks st.1) (set_time (Z.of_nat n) st.1)) in *.
  exists st, s1, (dispatch_effect (Z.of_nat n) oc s1), oc.
  split; [done|]. split.
  { unfold release. cbn [tasks set_time]. rewrite release_loop_released; [done|].
    by rewrite Htk. }
  split; [done|]. split; [done|]. split; [done|]. split; [|done].
  unfold s1. destruct st as [s cur]. apply released_inv; [lia|done].
Qed.

(** C1 as stated fails: constructed with "RM", the scheduler keeps the
    priorities given on input (here 1 for the task of period 2 and 0 for the
    task of period 4, where the rate-monotonic policy would store 0 and 1),
    dispatches the longer-period task first, and dispatches the other task
    first when the two input priorities are swapped. *)
Lemma rm_dispatch_depends_on_input_priority :
  tasks (Scheduler_init [mkTask "t1" 1 1 1 2 2 1; mkTask "t2" 2 1 2 4 4 0] "RM")
    ≠ rm_policy_priorities [mkTask "t1" 1 1 1 2 2 1; mkTask "t2" 2 1 2 4 4 0] ∧
  trace_of (run (Scheduler_init
                   [mkTask "t1" 1 1 1 2 2 1; mkTask "t2" 2 1 2 4 4 0] "RM") (Some 1))
    = Ok [(0, Some 2)] ∧
  trace_of (run (Scheduler_init
                   [mkTask "t1" 1 1 1 2 2 0; mkTask "t2" 2 1 2 4 4 1] "RM") (Some 1))
    = Ok [(0, Some 1)].
Proof. split; [|split]; vm_compute; [discriminate|reflexivity|reflexivity]. Qed.

(** C1 (amended): constructed with "RM", the scheduler keeps the tasks as
    given, priorities included, and in every tick the job that runs is a
    ready job whose task has the minimum priority value among the ready
    jobs, the priority being the one the task carried on input; the
    processor idles only when no job is ready. *)
Theorem rm_dispatch_min_input_priority (tasks0 : list Task) (n : nat) :
  Forall (λ task, period task ≠ 0) tasks0 →
  tasks (Scheduler_init tasks0 "RM") = tasks0 ∧
  ∃ st s1 s2 oc,
    run_ticks n (Scheduler_init tasks0 "RM") = Ok st ∧
    release (Z.of_nat n) (set_time (Z.of_nat n) st.1) = Ok s1 ∧
    dispatch (Z.of_nat n) st = Ok (s2, oc) ∧
    match oc with
    | None => ready_queue s1 = []
    | Some c =>
        c ∈ ready_queue s1 ∧
        ∃ tc, get_task_in tasks0 (task_id (deref s1 c)) = Ok tc ∧
          ∀ a, a ∈ ready_queue s1 →
            ∃ ta, get_task_in tasks0 (task_id (deref s1 a)) = Ok ta ∧
                  priority tc ≤ priority ta
    end.
Proof.
  intros Hper.
  assert (tasks (Scheduler_init tasks0 "RM") = tasks0) as Htk0 by done.
  split; [done|].
  destruct (dispatch_chosen (Scheduler_init tasks0 "RM") n)
    as (st & s1 & s2 & oc & Hrun & Hrel & Hdisp & Htk & Hal & Hinv1 & Hch).
  { by rewrite Htk0. }
  { apply sched_inv_init. }
  exists st, s1, s2, oc. split; [done|]. split; [done|]. split; [done|].
  rewrite Htk0 in Htk.
  assert (∀ a, a ∈ ready_queue s1 →
            ∃ ta, get_task_in tasks0 (task_id (deref s1 a)) = Ok ta ∧
                  job_key s1 a = priority ta) as Hkey.
  { intros a Ha.
    destruct (inv_job_task _ _ Hinv1 a (inv_ready_valid _ _ Hinv1 a Ha))
      as (task & Hin & Hid & _).
    cbn [fst] in Hin, Hid. rewrite Htk in Hin.
    destruct (get_task_in_Ok tasks0 (task_id (deref s1 a))) as (ta & Hta & _);
      [by exists task|].
    exists ta. split; [done|]. unfold job_key. rewrite Hal.
    rewrite decide_True by (by left).
    unfold priority_key, get_task. by rewrite Htk, Hta. }
  destruct oc as [c|]; cbn [chosen] in Hch.
  - destruct Hch as (_ & m & Hfm & Hcm).
    assert (c ∈ ready_queue s1 ∧ job_key s1 c = job_key s1 m) as [Hc Hcmkey].
    { destruct Hcm as [->|[Hcur Heq]]; [split; [by eapply first_min_elem|done]|].
      split; [by apply (inv_cur_ready _ _ Hinv1)|].
      unfold job_key, priority_key. by rewrite Heq. }
    split; [done|]. destruct (Hkey c Hc) as (tc & Htc & Hkc).
    exists tc. split; [done|]. intros a Ha.
    destruct (Hkey a Ha) as (ta & Hta & Hka). exists ta. split; [done|].
    rewrite <- Hkc, <- Hka, Hcmkey. by eapply first_min_le.
  - destruct Hch as [?|Hunk]; [done|]. exfalso. apply Hunk.
    rewrite Hal. by left.
Qed.

Lemma rm_dispatch_min_input_priority_witness :
  tasks (Scheduler_init [mkTask "t1" 1 1 1 2 2 1; mkTask "t2" 2 1 2 4 4 0] "RM")
  = [mkTask "t1" 1 1 1 2 2 1; mkTask "t2" 2 1 2 4 4 0].
Proof.
  destruct (rm_dispatch_min_input_priority
              [mkTask "t1" 1 1 1 2 2 1; mkTask "t2" 2 1 2 4 4 0] 0) as [Htk _].
  - apply Forall_cons. split; [cbn; lia|].
    apply Forall_cons. split; [cbn; lia|apply Forall_nil_2].
  - exact Htk.
Defined.



(** ** Response-time analysis: the arithmetic of busy periods *)

Lemma hp_release_cons (hp : Task) (hps : list Task) (n : nat) :
  hp_release (hp :: hps) n
  = (if decide (Z.of_nat n `mod` period hp = 0) then wcet hp else 0)
    + hp_release hps n.
Proof. reflexivity. Qed.

Lemma hp_release_nonneg (hps : list Task) (n : nat) :
  Forall hp_ok hps → 0 ≤ hp_release hps n.
Proof.
  induction 1 as [|hp hps [Hp Hw] _ IH]; [done|].
  rewrite hp_release_cons. case_decide; lia.
Qed.

Lemma busy_work_S (hps : list Task) (n : nat) :
  busy_work hps (S n)
  = busy_work hps n + hp_release hps n - (if decide (busy hps n) then 1 else 0).
Proof.
  destruct (decide (busy hps n)) as [Hb|Hb]; unfold busy in Hb;
    cbn [busy_work]; case_decide; lia.
Qed.

Lemma busy_work_nonneg (hps : list Task) (n : nat) :
  Forall hp_ok hps → 0 ≤ busy_work hps n.
Proof.
  intros Hok. induction n as [|n IH]; [done|].
  rewrite busy_work_S. pose proof (hp_release_nonneg hps n Hok).
  destruct (decide (busy hps n)) as [Hb|Hb]; unfold busy in Hb; lia.
Qed.

Lemma busy_count_bounds (hps : list Task) (a len : nat) :
  0 ≤ busy_count hps a len ≤ Z.of_nat len.
Proof.
  induction len as [|l IH]; [done|]. cbn [busy_count]. case_decide; lia.
Qed.

Lemma busy_count_app (hps : list Task) (a l1 l2 : nat) :
  busy_count hps a (l1 + l2) = busy_count hps a l1 + busy_count hps (a + l1) l2.
Proof.
  induction l2 as [|l2 IH]; [rewrite Nat.add_0_r; cbn; lia|].
  rewrite Nat.add_succ_r. cbn [busy_count]. rewrite IH.
  by rewrite Nat.add_assoc, Z.add_assoc.
Qed.

Lemma busy_count_all (hps : list Task) (a len : nat) :
  (∀ n, (a ≤ n < a + len)%nat → busy hps n) →
  busy_count hps a len = Z.of_nat len.
Proof.
  induction len as [|l IH]; intros Hall; [done|]. cbn [busy_count].
  rewrite IH by (intros n Hn; apply Hall; lia).
  rewrite decide_True by (apply Hall; lia). lia.
Qed.

(** Conservation of work over an interval. *)
Lemma busy_work_interval (hps : list Task) (a len : nat) :
  busy_work hps (a + len)
  = busy_work hps a + release_sum hps a len - busy_count hps a len.
Proof.
  induction len as [|l IH]; [rewrite Nat.add_0_r; cbn; lia|].
  rewrite Nat.add_succ_r, busy_work_S, IH. cbn [release_sum busy_count]. lia.
Qed.

Lemma div_pred_step (n T : Z) :
  0 < T → n `div` T - (n - 1) `div` T = if decide (n `mod` T = 0) then 1 else 0.
Proof.
  intros HT. pose proof (Z.div_mod n T ltac:(lia)) as Hdm.
  pose proof (Z.mod_pos_bound n T HT) as Hb.
  case_decide as Hm.
  - assert ((n - 1) `div` T = n `div` T - 1) as ->; [|lia].
    symmetry. apply (Z.div_unique_pos _ _ _ (T - 1)); lia.
  - assert ((n - 1) `div` T = n `div` T) as ->; [|lia].
    symmetry. apply (Z.div_unique_pos _ _ _ (n `mod` T - 1)); lia.
Qed.

Lemma ceil_div_upper (l T : Z) : 0 < T → l ≤ T * ceil_div l T.
Proof.
  intros HT. unfold ceil_div.
  pose proof (Z.div_mod (- l) T ltac:(lia)).
  pose proof (Z.mod_pos_bound (- l) T HT). lia.
Qed.

(** A task of period [T] is released at most [ceil(len / T)] times in an
    interval of [len] ticks. *)
Lemma release_sum_single (hp : Task) (a len : nat) :
  hp_ok hp →
  release_sum [hp] a len ≤ ceil_div (Z.of_nat len) (period hp) * wcet hp.
Proof.
  intros [HT HC].
  assert (release_sum [hp] a len
          = ((Z.of_nat a + Z.of_nat len - 1) `div` period hp
             - (Z.of_nat a - 1) `div` period hp) * wcet hp) as ->.
  { induction len as [|l IH];
      [cbn [release_sum]; change (Z.of_nat 0) with 0; rewrite Z.add_0_r; lia|].
    cbn [release_sum]. rewrite IH, hp_release_cons.
    pose proof (div_pred_step (Z.of_nat (a + l)) (period hp) HT) as Hstep.
    replace (Z.of_nat (a + l) - 1) with (Z.of_nat a + Z.of_nat l - 1) in Hstep by lia.
    replace (Z.of_nat a + Z.of_nat (S l) - 1) with (Z.of_nat (a + l)) by lia.
    unfold hp_release. cbn. case_decide; lia. }
  apply Z.mul_le_mono_nonneg_r; [lia|].
  pose proof (ceil_div_upper (Z.of_nat len) (period hp) HT) as Hup.
  assert ((Z.of_nat a + Z.of_nat len - 1) `div` period hp
          ≤ (Z.of_nat a - 1 + ceil_div (Z.of_nat len) (period hp) * period hp)
              `div` period hp) as Hle by (apply Z.div_le_mono; lia).
  rewrite Z.div_add in Hle by lia. lia.
Qed.

Lemma release_sum_cons (hp : Task) (hps : list Task) (a len : nat) :
  release_sum (hp :: hps) a len = release_sum [hp] a len + release_sum hps a len.
Proof.
  induction len as [|l IH]; [done|]. cbn [release_sum].
  rewrite IH, !hp_release_cons. unfold hp_release at 2. cbn. lia.
Qed.

Lemma release_sum_interference (hps : list Task) (a len : nat) :
  Forall hp_ok hps →
  release_sum hps a len ≤ interference_of hps (Z.of_nat len).
Proof.
  induction 1 as [|hp hps Hhp _ IH].
  - assert (release_sum [] a len = 0) as ->; [|done].
    induction len as [|l IHl]; [done|]. cbn [release_sum]. by rewrite IHl.
  - rewrite release_sum_cons, interference_of_cons.
    pose proof (release_sum_single hp a len Hhp). lia.
Qed.

(** Before any tick there is a latest tick at whose head no work of [hps]
    is pending. *)
Lemma last_idle_point (hps : list Task) (a : nat) :
  Forall hp_ok hps →
  ∃ s : nat, (s ≤ a)%nat ∧ busy_work hps s = 0 ∧
    ∀ n, (s < n ≤ a)%nat → 0 < busy_work hps n.
Proof.
  intros Hok. induction a as [|a (s & Hs & Hzero & Hpos)].
  - exists 0%nat. split; [done|]. split; [done|]. intros n Hn. lia.
  - destruct (decide (0 < busy_work hps (S a))) as [Hb|Hb].
    + exists s. split; [lia|]. split; [done|]. intros n Hn.
      destruct (decide (n = S a)) as [->|]; [done|]. apply Hpos. lia.
    + exists (S a). split; [done|]. split; [|intros n Hn; lia].
      pose proof (busy_work_nonneg hps (S a) Hok). lia.
Qed.

Lemma busy_of_pending_next (hps : list Task) (n : nat) :
  Forall hp_ok hps → 0 < busy_work hps (S n) → busy hps n.
Proof.
  intros Hok Hpos. rewrite busy_work_S in Hpos.
  destruct (decide (busy hps n)) as [Hb|Hb]; [done|].
  unfold busy in *. lia.
Qed.

Lemma interference_of_zero (hps : list Task) :
  Forall hp_ok hps → interference_of hps 0 = 0.
Proof.
  induction 1 as [|hp l [Hp Hw] _ IH]; [done|].
  rewrite interference_of_cons, IH. unfold ceil_div. cbn.
  rewrite Z.div_0_l by lia. lia.
Qed.

Section busy_period.
Variables (hps : list Task) (C T R : Z).
Hypothesis hps_ok : Forall hp_ok hps.
Hypothesis C_pos : 0 < C.
Hypothesis R_ge_C : C ≤ R.
Hypothesis R_fixed : R = C + interference_of hps R.
Hypothesis R_le_T : R ≤ T.

(** In any window of [R] ticks, at most [R - C] ticks serve [hps]. *)
Lemma busy_count_window (a : nat) :
  busy_count hps a (Z.to_nat R) ≤ R - C.
Proof.
  pose proof R_ge_C as HR.
  destruct (last_idle_point hps a hps_ok) as (s & Hs & Hzero & Hpos).
  assert (busy_count hps s (Z.to_nat R) ≤ R - C) as Hfrom_s.
  { pose proof (busy_work_interval hps s (Z.to_nat R)) as Hcons.
    pose proof (busy_work_nonneg hps (s + Z.to_nat R) hps_ok).
    pose proof (release_sum_interference hps s (Z.to_nat R) hps_ok) as Hrel.
    rewrite Z2Nat.id in Hrel by lia. lia. }
  assert (busy_count hps s (a - s) = Z.of_nat (a - s)) as Hfull.
  { apply busy_count_all. intros n Hn.
    apply busy_of_pending_next; [done|]. apply Hpos. lia. }
  destruct (decide (Z.to_nat R ≤ a - s)%nat) as [Hlong|Hshort].
  - exfalso.
    assert (busy_count hps s (Z.to_nat R) = Z.of_nat (Z.to_nat R)) as Hall.
    { apply busy_count_all. intros n Hn.
      apply busy_of_pending_next; [done|]. apply Hpos. lia. }
    lia.
  - replace (Z.to_nat R) with ((a - s) + (Z.to_nat R - (a - s)))%nat in Hfrom_s
      by lia.
    rewrite busy_count_app, Hfull in Hfrom_s.
    replace (s + (a - s))%nat with a in Hfrom_s by lia.
    replace (Z.to_nat R) with ((Z.to_nat R - (a - s)) + (a - s))%nat at 1 by lia.
    rewrite busy_count_app.
    pose proof (busy_count_bounds hps (a + (Z.to_nat R - (a - s))) (a - s)).
    lia.
Qed.

Lemma own_work_nonneg (n : nat) : 0 ≤ own_work hps C T n.
Proof.
  induction n as [|n IH]; [done|]. cbn [own_work].
  repeat case_decide; lia.
Qed.

(** From a release with no backlog, the pending work of the task after
    [m] ticks ([1 <= m <= T]) is [C] minus the ticks not serving [hps]. *)
Lemma own_work_after_release (a m : nat) :
  Z.of_nat a `mod` T = 0 →
  own_work hps C T a = 0 →
  (1 ≤ m)%nat → Z.of_nat m ≤ T →
  own_work hps C T (a + m)
  = 0 `max` (C - (Z.of_nat m - busy_count hps a m)).
Proof.
  intros Ha Hzero Hm1 HmT. induction m as [|m IH]; [lia|].
  rewrite Nat.add_succ_r. cbn [own_work busy_count].
  destruct (decide (m = 0)%nat) as [->|Hm].
  - rewrite !Nat.add_0_r, Hzero.
    rewrite (decide_True (P := Z.of_nat a `mod` T = 0)) by done.
    cbn [busy_count].
    destruct (decide (busy hps a)) as [Hb|Hb].
    + rewrite decide_False by tauto. lia.
    + rewrite decide_True by (split; [done|lia]). lia.
  - rewrite IH by lia.
    pose proof (busy_count_bounds hps a m) as Hbc.
    assert (Z.of_nat (a + m) `mod` T ≠ 0) as Hnz.
    { rewrite Nat2Z.inj_add, <- Zplus_mod_idemp_l, Ha, Z.add_0_l.
      rewrite Z.mod_small by lia. lia. }
    rewrite (decide_False (P := Z.of_nat (a + m) `mod` T = 0)) by done.
    destruct (decide (busy hps (a + m))) as [Hb|Hb].
    + rewrite decide_False by tauto. lia.
    + destruct (decide (0 < 0 `max` (C - (Z.of_nat m - busy_count hps a m)) + 0))
        as [Hx|Hx].
      * rewrite decide_True by done. lia.
      * rewrite decide_False by tauto. lia.
Qed.

(** The task has no pending work at its releases and from [R] ticks after
    each release to the next one. *)
Lemma own_work_zero (n : nat) :
  Z.of_nat n `mod` T = 0 ∨ R ≤ Z.of_nat n `mod` T →
  own_work hps C T n = 0.
Proof.
  assert (0 < T) as HT by lia.
  assert (∀ a m : nat, Z.of_nat a `mod` T = 0 → own_work hps C T a = 0 →
            R ≤ Z.of_nat m → Z.of_nat m ≤ T → own_work hps C T (a + m) = 0)
    as Hblock.
  { intros a m Ha Hzero HRm HmT.
    rewrite own_work_after_release by (done || lia).
    pose proof (busy_count_window a) as Hwin.
    replace m with (Z.to_nat R + (m - Z.to_nat R))%nat by lia.
    rewrite busy_count_app.
    pose proof (busy_count_bounds hps (a + Z.to_nat R) (m - Z.to_nat R)).
    lia. }
  assert (∀ k : nat, own_work hps C T (k * Z.to_nat T) = 0) as Hrel.
  { induction k as [|k IH]; [done|].
    replace (S k * Z.to_nat T)%nat with (k * Z.to_nat T + Z.to_nat T)%nat by lia.
    apply Hblock; [|done|lia|lia].
    rewrite Nat2Z.inj_mul, Z2Nat.id by lia. apply Z_mod_mult. }
  intros Hn.
  set (k := Z.to_nat (Z.of_nat n `div` T)).
  set (m := Z.to_nat (Z.of_nat n `mod` T)).
  pose proof (Z.div_mod (Z.of_nat n) T ltac:(lia)) as Hdm.
  pose proof (Z.mod_pos_bound (Z.of_nat n) T HT) as Hmb.
  assert (0 ≤ Z.of_nat n `div` T) as Hq by (apply Z.div_pos; lia).
  assert (Z.of_nat k = Z.of_nat n `div` T) as Hk by (unfold k; lia).
  assert (Z.of_nat m = Z.of_nat n `mod` T) as Hm by (unfold m; lia).
  clearbody k m.
  assert (n = k * Z.to_nat T + m)%nat as Hnkm by nia.
  rewrite <- Hm in Hn, Hmb. clear Hdm Hq Hk Hm. subst n.
  destruct Hn as [Hn|Hn].
  - assert (m = 0)%nat as -> by lia.
    rewrite Nat.add_0_r. apply Hrel.
  - apply Hblock; [|apply Hrel|lia|lia].
    rewrite Nat2Z.inj_mul, Z2Nat.id by lia. apply Z_mod_mult.
Qed.
End busy_period.

(** ** Pending work of a class of tasks along a run *)

Lemma Zsum_app (l1 l2 : list Z) : Zsum (l1 ++ l2) = Zsum l1 + Zsum l2.
Proof.
  unfold Zsum. induction l1 as [|x l1 IH]; cbn [app foldr]; [lia|].
  rewrite IH. lia.
Qed.

Lemma Zsum_cons (x : Z) (l : list Z) : Zsum (x :: l) = x + Zsum l.
Proof. reflexivity. Qed.

Lemma Zsum_nonneg (l : list Z) : Forall (λ x, 0 ≤ x) l → 0 ≤ Zsum l.
Proof. induction 1 as [|x l Hx _ IH]; [done|]. rewrite Zsum_cons. lia. Qed.

Lemma Zsum_elem_le (l : list Z) (x : Z) :
  Forall (λ y, 0 ≤ y) l → x ∈ l → x ≤ Zsum l.
Proof.
  induction 1 as [|y l Hy Hl IH]; intros Hx; [by apply elem_of_nil in Hx|].
  rewrite Zsum_cons. pose proof (Zsum_nonneg l Hl).
  apply elem_of_cons in Hx as [->|Hx]; [lia|]. specialize (IH Hx). lia.
Qed.

Lemma Zsum_filter {A} (Q : A → Prop) `{!∀ x, Decision (Q x)} (g : A → Z)
  (l : list A) :
  Zsum (g <$> filter Q l) = Zsum ((λ x, if decide (Q x) then g x else 0) <$> l).
Proof.
  induction l as [|x l IH]; [done|]. rewrite filter_cons.
  cbn [fmap list_fmap]. rewrite Zsum_cons, <- IH.
  case_decide; [by rewrite fmap_cons, Zsum_cons|lia].
Qed.

Lemma Zsum_fmap_ext {A} (f g : A → Z) (l : list A) :
  (∀ x, x ∈ l → f x = g x) → Zsum (f <$> l) = Zsum (g <$> l).
Proof.
  intros Hext. f_equal. apply list_fmap_ext. intros i x Hx.
  apply Hext. by eapply list_elem_of_lookup_2.
Qed.

Section pending.
Context (P : Z → Prop) `{!∀ i, Decision (P i)}.

Lemma pending_nonneg (s : Scheduler) : work_inv s → 0 ≤ pending P s.
Proof.
  intros Hw. unfold pending. apply Zsum_nonneg, Forall_fmap, Forall_forall.
  intros a Ha. cbn. specialize (Hw a Ha). case_decide; lia.
Qed.

Lemma pending_pos (s : Scheduler) (a : nat) :
  work_inv s → a ∈ ready_queue s → P (task_id (deref s a)) → 0 < pending P s.
Proof.
  intros Hw Ha HP. unfold pending.
  eapply Z.lt_le_trans; [apply (Hw a Ha)|].
  apply Zsum_elem_le.
  - apply Forall_fmap, Forall_forall. intros b Hb. cbn.
    specialize (Hw b Hb). case_decide; lia.
  - apply list_elem_of_fmap. exists a. by rewrite decide_True.
Qed.

Lemma pending_zero (s : Scheduler) (a : nat) :
  work_inv s → pending P s = 0 → a ∈ ready_queue s → ¬ P (task_id (deref s a)).
Proof.
  intros Hw Hz Ha HP. pose proof (pending_pos s a Hw Ha HP). lia.
Qed.

Lemma fmap_deref_released_new (t : Z) (ts : list Task) (s : Scheduler) :
  deref (released t ts s) <$> seq (length (heap s)) (length (released_jobs t ts))
  = released_jobs t ts.
Proof.
  apply list_eq. intros i. rewrite list_lookup_fmap.
  destruct (decide (i < length (released_jobs t ts))%nat) as [Hi|Hi].
  - rewrite lookup_seq_lt by done. cbn.
    rewrite deref_released_new by lia.
    replace (length (heap s) + i - length (heap s))%nat with i by lia.
    apply lookup_lt_is_Some_2 in Hi as [j Hj].
    by rewrite Hj, (list_lookup_total_correct _ _ _ Hj).
  - rewrite lookup_seq_ge by lia. cbn. symmetry. apply lookup_ge_None. lia.
Qed.

(** Step 1 adds the execution time of the released jobs of the class. *)
Lemma pending_released (t : Z) (ts : list Task) (s : Scheduler) :
  (∀ a, a ∈ ready_queue s → (a < length (heap s))%nat) →
  pending P (released t ts s)
  = pending P s
    + Zsum ((λ task, if decide (P (id task)) then wcet task else 0)
              <$> filter (λ task, t `mod` period task = 0) ts).
Proof.
  intros Hvalid. unfold pending at 1.
  change (ready_queue (released t ts s))
    with (ready_queue s ++ seq (length (heap s)) (length (released_jobs t ts))).
  rewrite fmap_app, Zsum_app. f_equal.
  - apply Zsum_fmap_ext. intros a Ha. by rewrite deref_released by (by apply Hvalid).
  - trans (Zsum ((λ j, if decide (P (task_id j)) then remaining_time j else 0)
                  <$> (deref (released t ts s)
                         <$> seq (length (heap s)) (length (released_jobs t ts)))));
      [by rewrite <- list_fmap_compose|].
    rewrite fmap_deref_released_new. unfold released_jobs.
    by rewrite <- list_fmap_compose.
Qed.
End pending.

(** ** The effect of a tick on the job that runs *)

Lemma executed_job_fields (t : Z) (j : Job) :
  task_id (executed_job t j) = task_id j ∧
  arrival_time (executed_job t j) = arrival_time j ∧
  absolute_deadline (executed_job t j) = absolute_deadline j ∧
  remaining_time (executed_job t j) = remaining_time j - 1 ∧
  finish_time (executed_job t j)
  = if decide (remaining_time j = 1) then t + 1 else finish_time j.
Proof.
  unfold executed_job. destruct (decide (start_time j = -1)); cbn;
    repeat case_decide; cbn; repeat split; try done; lia.
Qed.

Lemma tick_effect_Some (t : Z) (c : nat) (s1 : Scheduler) :
  heap (tick_effect t (Some c) s1).1
  = <[c := executed_job t (deref s1 c)]> (heap s1) ∧
  ready_queue (tick_effect t (Some c) s1).1
  = (if decide (remaining_time (deref s1 c) = 1)
     then filter (λ y, y ≠ c) (ready_queue s1) else ready_queue s1) ∧
  completed_jobs (tick_effect t (Some c) s1).1
  = (if decide (remaining_time (deref s1 c) = 1)
     then completed_jobs s1 ++ [c] else completed_jobs s1).
Proof.
  cbn [tick_effect]. unfold executed_job.
  destruct (decide (start_time (deref s1 c) = -1)); cbn;
    repeat case_decide; cbn; try done; lia.
Qed.

Lemma deref_tick_effect_other (t : Z) (oc : option nat) (s1 : Scheduler) (a : nat) :
  oc ≠ Some a → deref (tick_effect t oc s1).1 a = deref s1 a.
Proof.
  intros Hne. destruct oc as [c|]; [|done].
  unfold deref. destruct (tick_effect_Some t c s1) as (-> & _).
  apply list_lookup_total_insert_ne. congruence.
Qed.

Lemma deref_tick_effect_self (t : Z) (c : nat) (s1 : Scheduler) :
  (c < length (heap s1))%nat →
  deref (tick_effect t (Some c) s1).1 c = executed_job t (deref s1 c).
Proof.
  intros Hc. unfold deref at 1. destruct (tick_effect_Some t c s1) as (-> & _).
  by apply list_lookup_total_insert_eq.
Qed.

Lemma identity_tick_effect (t : Z) (oc : option nat) (s1 : Scheduler) (a : nat) :
  task_id (deref (tick_effect t oc s1).1 a) = task_id (deref s1 a) ∧
  arrival_time (deref (tick_effect t oc s1).1 a) = arrival_time (deref s1 a).
Proof.
  destruct (decide (oc = Some a)) as [->|Hne];
    [|by rewrite deref_tick_effect_other].
  destruct (decide (a < length (heap s1))%nat) as [Ha|Ha].
  - rewrite deref_tick_effect_self by done.
    by destruct (executed_job_fields t (deref s1 a)) as (-> & -> & _).
  - unfold deref at 1 3. destruct (tick_effect_Some t a s1) as (-> & _).
    by rewrite list_insert_ge by lia.
Qed.

Lemma elem_of_ready_tick_effect (t : Z) (oc : option nat) (s1 : Scheduler) (a : nat) :
  a ∈ ready_queue (tick_effect t oc s1).1 → a ∈ ready_queue s1.
Proof.
  destruct oc as [c|]; [|done].
  destruct (tick_effect_Some t c s1) as (_ & -> & _).
  case_decide; [|done]. by intros [_ ?]%list_elem_of_filter.
Qed.

Lemma work_inv_released (t : Z) (ts : list Task) (s : Scheduler) :
  (∀ a, a ∈ ready_queue s → (a < length (heap s))%nat) →
  Forall (λ task, 0 < wcet task) ts →
  work_inv s → work_inv (released t ts s).
Proof.
  intros Hvalid Hw Hinv a [Ha|Ha]%elem_of_ready_released.
  - rewrite deref_released by (by apply Hvalid). by apply Hinv.
  - rewrite deref_released_new by lia.
    destruct (released_jobs_lookup t ts (a - length (heap s)))
      as (task & Hin & _ & ->); [lia|].
    cbn. by eapply Forall_forall in Hw.
Qed.

Lemma work_inv_tick_effect (t : Z) (oc : option nat) (s1 : Scheduler) :
  (∀ a, a ∈ ready_queue s1 → (a < length (heap s1))%nat) →
  (∀ c, oc = Some c → c ∈ ready_queue s1) →
  work_inv s1 → work_inv (tick_effect t oc s1).1.
Proof.
  intros Hvalid Hoc Hinv a Ha.
  destruct (decide (oc = Some a)) as [->|Hne].
  - pose proof (Hvalid a (Hoc a eq_refl)) as Hlt.
    rewrite deref_tick_effect_self by done.
    destruct (executed_job_fields t (deref s1 a)) as (_ & _ & _ & -> & _).
    destruct (tick_effect_Some t a s1) as (_ & Hrq & _). rewrite Hrq in Ha.
    specialize (Hinv a (Hoc a eq_refl)).
    case_decide; [|lia]. apply list_elem_of_filter in Ha as [? _]. done.
  - rewrite deref_tick_effect_other by done.
    apply Hinv. by eapply elem_of_ready_tick_effect.
Qed.

(** Running one tick takes one unit from the class of the job that runs
    and leaves the other classes as they are. *)
Lemma pending_tick_effect (P : Z → Prop) `{!∀ i, Decision (P i)}
  (t : Z) (oc : option nat) (s1 : Scheduler) :
  NoDup (ready_queue s1) →
  (∀ a, a ∈ ready_queue s1 → (a < length (heap s1))%nat) →
  (∀ c, oc = Some c → c ∈ ready_queue s1) →
  pending P (tick_effect t oc s1).1
  = pending P s1
    - match oc with
      | Some c => if decide (P (task_id (deref s1 c))) then 1 else 0
      | None => 0
      end.
Proof.
  intros Hnd Hvalid Hoc.
  destruct oc as [c|];
    [|cbn [tick_effect fst]; unfold pending, deref;
      cbn [heap ready_queue set_history]; lia].
  specialize (Hoc c eq_refl). pose proof (Hvalid c Hoc) as Hc.
  set (s' := (tick_effect t (Some c) s1).1).
  set (f := λ s a, if decide (P (task_id (deref s a)))
                   then remaining_time (deref s a) else 0).
  assert (∀ a, a ≠ c → f s' a = f s1 a) as Hother.
  { intros a Ha. unfold f, s'. rewrite deref_tick_effect_other; [done|congruence]. }
  assert (f s' c = f s1 c - (if decide (P (task_id (deref s1 c))) then 1 else 0)
                   ∨ remaining_time (deref s1 c) = 1) as Hself.
  { left. unfold f, s'. rewrite deref_tick_effect_self by done.
    destruct (executed_job_fields t (deref s1 c)) as (-> & _ & _ & -> & _).
    case_decide; lia. }
  apply list_elem_of_split in Hoc as (l1 & l2 & Hsplit).
  rewrite Hsplit in Hnd. apply NoDup_app in Hnd as (_ & Hl1 & Hnd2).
  apply NoDup_cons in Hnd2 as [Hl2 _].
  assert (∀ a, a ∈ l1 → a ≠ c) as Hl1c.
  { intros a Ha ->. apply (Hl1 c Ha). left. }
  assert (∀ a, a ∈ l2 → a ≠ c) as Hl2c by (intros a Ha ->; done).
  unfold pending. fold (f s') (f s1).
  destruct (tick_effect_Some t c s1) as (_ & Hrq & _). fold s' in Hrq.
  rewrite Hrq, Hsplit.
  assert (Zsum (f s' <$> l1) = Zsum (f s1 <$> l1)) as H1
    by (apply Zsum_fmap_ext; intros a Ha; by apply Hother, Hl1c).
  assert (Zsum (f s' <$> l2) = Zsum (f s1 <$> l2)) as H2
    by (apply Zsum_fmap_ext; intros a Ha; by apply Hother, Hl2c).
  rewrite (fmap_app (f s1)), Zsum_app, fmap_cons, Zsum_cons.
  destruct (decide (remaining_time (deref s1 c) = 1)) as [Hone|Hmore].
  - rewrite filter_app, filter_cons, decide_False by (intros ?; done).
    rewrite !filter_all by done.
    rewrite fmap_app, Zsum_app, H1, H2.
    assert (f s1 c = if decide (P (task_id (deref s1 c))) then 1 else 0) as ->
      by (unfold f; by rewrite Hone).
    lia.
  - rewrite fmap_app, Zsum_app, fmap_cons, Zsum_cons, H1, H2.
    destruct Hself as [->|?]; [lia|done].
Qed.

(** ** Fixed-priority runs and the workload recurrences *)

Lemma Zsum_pos_exists {A} (f : A → Z) (l : list A) :
  0 < Zsum (f <$> l) → ∃ a, a ∈ l ∧ 0 < f a.
Proof.
  induction l as [|x l IH]; [cbn; lia|]. rewrite fmap_cons, Zsum_cons.
  intros Hpos. destruct (decide (0 < f x)) as [Hx|Hx].
  - exists x. split; [left|done].
  - destruct IH as (a & Ha & Hfa); [lia|]. exists a. split; [by right|done].
Qed.

Lemma pending_pos_exists (P : Z → Prop) `{!∀ i, Decision (P i)} (s : Scheduler) :
  0 < pending P s → ∃ a, a ∈ ready_queue s ∧ P (task_id (deref s a)).
Proof.
  intros (a & Ha & Hfa)%Zsum_pos_exists. exists a. split; [done|].
  by case_decide; [|lia].
Qed.

Lemma Zsum_single (g : Task → Z) (l : list Task) (x : Task) :
  NoDup (id <$> l) → x ∈ l →
  Zsum ((λ y, if decide (id y = id x) then g y else 0) <$> l) = g x.
Proof.
  induction l as [|y l IH]; intros Hnd Hx; [by apply elem_of_nil in Hx|].
  rewrite fmap_cons in Hnd. apply NoDup_cons in Hnd as [Hy Hnd].
  rewrite fmap_cons, Zsum_cons. apply elem_of_cons in Hx as [->|Hx].
  - rewrite decide_True by done.
    assert (Zsum ((λ y0, if decide (id y0 = id y) then g y0 else 0) <$> l) = 0)
      as ->; [|lia].
    clear IH Hnd. induction l as [|z l IH]; [done|].
    rewrite fmap_cons, Zsum_cons. rewrite fmap_cons in Hy.
    apply not_elem_of_cons in Hy as [Hne Hy].
    rewrite decide_False by done. rewrite IH by done. lia.
  - rewrite decide_False, IH by done || (intros Heq; apply Hy; rewrite Heq;
      by apply list_elem_of_fmap_2). lia.
Qed.

Lemma elem_of_NoDup_id (ts : list Task) (t1 t2 : Task) :
  NoDup (id <$> ts) → t1 ∈ ts → t2 ∈ ts → id t1 = id t2 → t1 = t2.
Proof.
  intros Hnd H1 H2 Hid.
  apply list_elem_of_lookup in H1 as [i Hi]. apply list_elem_of_lookup in H2 as [j Hj].
  assert (i = j) as ->.
  { eapply NoDup_lookup; [exact Hnd| |];
      rewrite list_lookup_fmap; [by rewrite Hi|by rewrite Hj, Hid]. }
  congruence.
Qed.

Lemma next_tick_in_window (A n R T : Z) :
  A `mod` T = 0 → A < n < A + R → R ≤ T →
  ¬ ((n + 1) `mod` T = 0 ∨ R ≤ (n + 1) `mod` T) →
  n + 1 < A + R.
Proof.
  intros HA Hn HRT Hnot.
  destruct (decide (n + 1 < A + R)) as [|Hge]; [done|]. exfalso. apply Hnot.
  assert (n + 1 = A + R) as -> by lia.
  rewrite <- Zplus_mod_idemp_l, HA, Z.add_0_l.
  destruct (decide (R = T)) as [->|Hne].
  - left. apply Z_mod_same_full.
  - right. rewrite Z.mod_small by lia. lia.
Qed.

Lemma release_tick_in_window (n R T : Z) :
  n `mod` T = 0 → 0 < T →
  ¬ ((n + 1) `mod` T = 0 ∨ R ≤ (n + 1) `mod` T) →
  1 < R.
Proof.
  intros Hn HT Hnot.
  destruct (decide (1 < R)) as [|Hle]; [done|]. exfalso. apply Hnot.
  rewrite <- Zplus_mod_idemp_l, Hn, Z.add_0_l.
  destruct (decide (T = 1)) as [->|Hne].
  - left. done.
  - right. rewrite Z.mod_small by lia. lia.
Qed.

Lemma sched_inv_0_empty (s : Scheduler) (cur : option nat) :
  sched_inv 0 (s, cur) → ready_queue s = [] ∧ completed_jobs s = [].
Proof.
  intros Hinv.
  assert (∀ a, ¬ (a < length (heap s))%nat) as Hnone.
  { intros a Ha.
    destruct (inv_job_task _ _ Hinv a Ha) as (t & _ & _ & _ & Harr & _). lia. }
  split.
  - destruct (ready_queue s) as [|a q] eqn:Hq; [done|]. exfalso.
    apply (Hnone a), (inv_ready_valid _ _ Hinv). cbn [fst]. rewrite Hq. left.
  - destruct (completed_jobs s) as [|a q] eqn:Hq; [done|]. exfalso.
    apply (Hnone a), (inv_completed _ _ Hinv). cbn [fst]. rewrite Hq. left.
Qed.

Section response_time_bound.
Variables (s0 : Scheduler) (task : Task) (R : Z).
Hypothesis init_ok : sched_inv 0 (s0, None).
Hypothesis alg_fp : algorithm s0 = "RM"%string ∨ algorithm s0 = "DM"%string.
Hypothesis ids_nodup : NoDup (id <$> tasks s0).
Hypothesis tasks_ok : Forall (λ t, 0 < period t ∧ 0 < wcet t) (tasks s0).
Hypothesis task_in : task ∈ tasks s0.
Hypothesis prio_distinct :
  ∀ t, t ∈ tasks s0 → t ≠ task → priority t ≠ priority task.
Hypothesis R_ge_C : wcet task ≤ R.
Hypothesis R_fixed :
  R = wcet task + interference_of (higher_priority (tasks s0) task) R.
Hypothesis R_le_T : R ≤ period task.

Lemma hp_tasks_ok : Forall hp_ok (higher_priority (tasks s0) task).
Proof.
  apply Forall_forall. intros t [_ Ht]%list_elem_of_filter.
  eapply Forall_forall in tasks_ok; [|exact Ht]. unfold hp_ok. lia.
Qed.

Lemma periods_nonzero : Forall (λ t, period t ≠ 0) (tasks s0).
Proof. eapply Forall_impl; [exact tasks_ok|]. intros t [? ?]. lia. Qed.

Lemma hp_id_iff (t : Task) :
  t ∈ tasks s0 →
  id t ∈ id <$> higher_priority (tasks s0) task ↔ priority t < priority task.
Proof.
  intros Ht. split.
  - intros (t' & Hid & [Hlt Ht']%list_elem_of_filter)%list_elem_of_fmap.
    by rewrite (elem_of_NoDup_id (tasks s0) t t' ids_nodup Ht Ht' Hid).
  - intros Hlt. apply list_elem_of_fmap_2. by apply list_elem_of_filter.
Qed.

Lemma hp_release_eq (n : nat) :
  Zsum ((λ t, if decide (id t ∈ id <$> higher_priority (tasks s0) task)
              then wcet t else 0)
          <$> filter (λ t, Z.of_nat n `mod` period t = 0) (tasks s0))
  = hp_release (higher_priority (tasks s0) task) n.
Proof.
  unfold hp_release, higher_priority. rewrite !Zsum_filter.
  apply Zsum_fmap_ext. intros t Ht. pose proof (hp_id_iff t Ht) as Hiff.
  repeat case_decide; try done; tauto.
Qed.

Lemma own_release_eq (n : nat) :
  Zsum ((λ t, if decide (id t = id task) then wcet t else 0)
          <$> filter (λ t, Z.of_nat n `mod` period t = 0) (tasks s0))
  = if decide (Z.of_nat n `mod` period task = 0) then wcet task else 0.
Proof.
  rewrite Zsum_filter.
  rewrite <- (Zsum_single
    (λ t, if decide (Z.of_nat n `mod` period t = 0) then wcet t else 0)
    (tasks s0) task ids_nodup task_in).
  apply Zsum_fmap_ext. intros t Ht. by repeat case_decide.
Qed.

(** The key of a ready job is the priority of its task. *)
Lemma ready_job_key (n : Z) (s1 : Scheduler) (cur : option nat) (a : nat) :
  sched_inv n (s1, cur) → tasks s1 = tasks s0 → algorithm s1 = algorithm s0 →
  a ∈ ready_queue s1 →
  ∃ t, t ∈ tasks s0 ∧ task_id (deref s1 a) = id t ∧ job_key s1 a = priority t.
Proof.
  intros Hinv Htk Hal Ha.
  destruct (inv_job_task _ _ Hinv a (inv_ready_valid _ _ Hinv a Ha))
    as (t & Hin & Hid & _).
  cbn [fst] in Hin, Hid. rewrite Htk in Hin.
  exists t. split; [done|]. split; [done|].
  unfold job_key. rewrite Hal, decide_True by done.
  unfold priority_key, get_task. rewrite Htk, Hid.
  by rewrite get_task_in_NoDup.
Qed.

(** The scheduling decision by classes: a pending job of higher priority
    is served first, then a pending job of the task itself. *)
Lemma chosen_class (n : Z) (s1 : Scheduler) (cur oc : option nat) :
  sched_inv n (s1, cur) → work_inv s1 →
  tasks s1 = tasks s0 → algorithm s1 = algorithm s0 →
  chosen cur s1 oc →
  let Php := λ i, i ∈ id <$> higher_priority (tasks s0) task in
  let Pown := λ i, i = id task in
  (0 < pending Php s1 →
     ∃ c, oc = Some c ∧ Php (task_id (deref s1 c)) ∧ ¬ Pown (task_id (deref s1 c))) ∧
  (pending Php s1 = 0 → ∀ c, oc = Some c → ¬ Php (task_id (deref s1 c))) ∧
  (pending Php s1 = 0 → 0 < pending Pown s1 →
     ∃ c, oc = Some c ∧ Pown (task_id (deref s1 c))) ∧
  (pending Pown s1 = 0 → ∀ c, oc = Some c → ¬ Pown (task_id (deref s1 c))).
Proof.
  intros Hinv Hw Htk Hal Hch Php Pown.
  assert (∀ a, a ∈ ready_queue s1 →
            ∃ c m, oc = Some c ∧ c ∈ ready_queue s1 ∧
                   job_key s1 c = job_key s1 m ∧ job_key s1 m ≤ job_key s1 a)
    as Hsome.
  { intros a Ha. destruct oc as [c|]; cbn [chosen] in Hch.
    - destruct Hch as (_ & m & Hfm & Hcm). exists c, m. split; [done|].
      assert (c ∈ ready_queue s1 ∧ job_key s1 c = job_key s1 m) as [? ?].
      { destruct Hcm as [->|[Hcur Heq]]; [split; [by eapply first_min_elem|done]|].
        split; [by apply (inv_cur_ready _ _ Hinv)|].
        unfold job_key, priority_key. by rewrite Heq. }
      split; [done|]. split; [done|]. by eapply first_min_le.
    - exfalso. destruct Hch as [Hnil|Hunk].
      + rewrite Hnil in Ha. by apply elem_of_nil in Ha.
      + apply Hunk. rewrite Hal. unfold known_algorithm. tauto. }
  assert (∀ c, c ∈ ready_queue s1 → job_key s1 c < priority task →
            Php (task_id (deref s1 c)) ∧ ¬ Pown (task_id (deref s1 c))) as Hhp.
  { intros c Hc Hlt.
    destruct (ready_job_key n s1 cur c Hinv Htk Hal Hc) as (t & Ht & Hid & Hkey).
    rewrite Hid. split; [apply hp_id_iff; [done|lia]|].
    unfold Pown. intros Heq.
    rewrite (elem_of_NoDup_id (tasks s0) t task ids_nodup Ht task_in Heq) in Hkey.
    lia. }
  split; [|split; [|split]].
  - intros (a & Ha & HPa)%pending_pos_exists.
    destruct (Hsome a Ha) as (c & m & -> & Hc & Hcm & Hma).
    exists c. split; [done|]. apply Hhp; [done|].
    destruct (ready_job_key n s1 cur a Hinv Htk Hal Ha) as (t & Ht & Hid & Hkey).
    rewrite Hid in HPa. apply hp_id_iff in HPa; [|done]. lia.
  - intros Hz c ->. destruct Hch as (_ & m & Hfm & Hcm).
    apply (pending_zero Php s1 c Hw Hz).
    destruct Hcm as [->|[Hcur _]]; [by eapply first_min_elem|].
    by apply (inv_cur_ready _ _ Hinv).
  - intros Hz (a & Ha & HPa)%pending_pos_exists.
    destruct (Hsome a Ha) as (c & m & -> & Hc & Hcm & Hma).
    exists c. split; [done|].
    destruct (ready_job_key n s1 cur a Hinv Htk Hal Ha) as (ta & Hta & Hida & Hkeya).
    destruct (ready_job_key n s1 cur c Hinv Htk Hal Hc) as (tc & Htc & Hidc & Hkeyc).
    unfold Pown in HPa. rewrite Hida in HPa.
    rewrite (elem_of_NoDup_id (tasks s0) ta task ids_nodup Hta task_in HPa) in Hkeya.
    pose proof (pending_zero Php s1 c Hw Hz Hc) as Hnhp.
    rewrite Hidc in Hnhp.
    assert (¬ priority tc < priority task) as Hnlt
      by (intros ?; by apply Hnhp, hp_id_iff).
    unfold Pown. rewrite Hidc. f_equal.
    destruct (decide (tc = task)) as [->|Hne]; [done|].
    pose proof (prio_distinct tc Htc Hne). lia.
  - intros Hz c ->. destruct Hch as (_ & m & Hfm & Hcm).
    apply (pending_zero Pown s1 c Hw Hz).
    destruct Hcm as [->|[Hcur _]]; [by eapply first_min_elem|].
    by apply (inv_cur_ready _ _ Hinv).
Qed.
(** Along a run, the pending work of the higher-priority tasks and of the
    task itself follow the workload recurrences; every ready job of the
    task was released less than [R] ticks ago, and every completed job of
    the task has a response time of at most [R]. *)
Lemma rta_run (n : nat) :
  ∃ st, run_ticks n s0 = Ok st ∧
    sched_inv (Z.of_nat n) st ∧ work_inv st.1 ∧
    tasks st.1 = tasks s0 ∧ algorithm st.1 = algorithm s0 ∧
    pending (λ i, i ∈ id <$> higher_priority (tasks s0) task) st.1
      = busy_work (higher_priority (tasks s0) task) n ∧
    pending (λ i, i = id task) st.1
      = own_work (higher_priority (tasks s0) task) (wcet task) (period task) n ∧
    (∀ a, a ∈ ready_queue st.1 → task_id (deref st.1 a) = id task →
       arrival_time (deref st.1 a) < Z.of_nat n
         < arrival_time (deref st.1 a) + R) ∧
    (∀ a, a ∈ completed_jobs st.1 → task_id (deref st.1 a) = id task →
       finished_response (deref st.1 a) ≤ R).
Proof.
  set (hp := higher_priority (tasks s0) task).
  set (Php := λ i, i ∈ id <$> hp). set (Pown := λ i, i = id task).
  pose proof hp_tasks_ok as Hhpok. fold hp in Hhpok.
  assert (0 < period task ∧ 0 < wcet task) as [HT HC]
    by (by eapply Forall_forall in tasks_ok).
  induction n as [|n (st & Hrun & Hinv & Hw & Htk & Hal & Hhp & Hown & Hready & Hcomp)].
  { exists (s0, None). destruct (sched_inv_0_empty s0 None init_ok) as [Hq Hc].
    cbn [fst]. unfold work_inv, pending. rewrite Hq, Hc.
    split; [done|]. split; [exact init_ok|].
    split; [intros a Ha; by apply elem_of_nil in Ha|].
    split; [done|]. split; [done|]. split; [done|]. split; [done|].
    split; intros a Ha; by apply elem_of_nil in Ha. }
  destruct (tick_spec (Z.of_nat n) st) as (oc & _ & Htick & Hch & Hoc & Hinv');
    [lia|rewrite Htk; apply periods_nonzero|done|].
  set (s1 := released (Z.of_nat n) (tasks st.1) (set_time (Z.of_nat n) st.1)) in *.
  set (st' := tick_effect (Z.of_nat n) oc s1) in *.
  assert (sched_inv (Z.of_nat n + 1) (s1, st.2)) as Hinv1.
  { unfold s1. destruct st as [s cur]. apply released_inv; [lia|done]. }
  pose proof (inv_ready_valid _ _ Hinv) as Hvalid.
  pose proof (inv_ready_valid _ _ Hinv1) as Hvalid1.
  pose proof (inv_ready_nodup _ _ Hinv1) as Hnd1. cbn [fst] in Hvalid, Hvalid1, Hnd1.
  assert (work_inv s1) as Hw1.
  { apply work_inv_released; [done| |done]. rewrite Htk.
    eapply Forall_impl; [exact tasks_ok|]. by intros t [_ ?]. }
  assert (tasks s1 = tasks s0) as Htk1 by done.
  assert (algorithm s1 = algorithm s0) as Hal1 by done.
  assert (pending Php s1 = busy_work hp n + hp_release hp n) as Hhp1.
  { unfold s1. rewrite pending_released by done. rewrite Htk.
    unfold Php, hp. rewrite hp_release_eq. fold hp Php. by rewrite <- Hhp. }
  assert (pending Pown s1
          = own_work hp (wcet task) (period task) n
            + (if decide (Z.of_nat n `mod` period task = 0) then wcet task else 0))
    as Hown1.
  { unfold s1. rewrite pending_released by done. rewrite Htk.
    unfold Pown. rewrite own_release_eq. fold Pown. by rewrite <- Hown. }
  destruct (chosen_class (Z.of_nat n + 1) s1 st.2 oc Hinv1 Hw1 Htk1 Hal1 Hch)
    as (Hc1 & Hc2 & Hc3 & Hc4). fold hp Php Pown in Hc1, Hc2, Hc3, Hc4.
  assert (work_inv st'.1) as Hw' by (by apply work_inv_tick_effect).
  pose proof (pending_nonneg Php s1 Hw1) as Hhpnn.
  pose proof (pending_nonneg Pown s1 Hw1) as Hownnn.
  assert (pending Php st'.1 = busy_work hp (S n)) as Hhp'.
  { unfold st'. rewrite pending_tick_effect by done. rewrite busy_work_S.
    destruct (decide (busy hp n)) as [Hb|Hb]; unfold busy in Hb.
    - destruct Hc1 as (c & -> & HP & _); [lia|]. rewrite decide_True by done. lia.
    - assert (pending Php s1 = 0) as Hz by lia.
      destruct oc as [c|]; [rewrite decide_False by (by apply Hc2)|]; lia. }
  assert (pending Pown st'.1 = own_work hp (wcet task) (period task) (S n)) as Hown'.
  { unfold st'. rewrite pending_tick_effect by done. cbn [own_work].
    rewrite <- Hown1.
    destruct (decide (busy hp n)) as [Hb|Hb].
    - rewrite (decide_False (P := ¬ busy hp n ∧ 0 < pending Pown s1)) by tauto.
      unfold busy in Hb.
      destruct Hc1 as (c & -> & _ & HnP); [lia|]. rewrite decide_False by done. lia.
    - assert (pending Php s1 = 0) as Hz by (unfold busy in Hb; lia).
      destruct (decide (0 < pending Pown s1)) as [Hx|Hx].
      + rewrite (decide_True (P := ¬ busy hp n ∧ 0 < pending Pown s1)) by done.
        destruct Hc3 as (c & -> & HP); [done|done|]. rewrite decide_True by done. lia.
      + rewrite (decide_False (P := ¬ busy hp n ∧ 0 < pending Pown s1)) by tauto.
        assert (pending Pown s1 = 0) as Hz' by lia.
        destruct oc as [c|]; [rewrite decide_False by (by apply Hc4)|]; lia. }
  (* the jobs of the task in the ready queue after the releases *)
  assert (∀ a, a ∈ ready_queue s1 → task_id (deref s1 a) = id task →
            arrival_time (deref s1 a) `mod` period task = 0 ∧
            ((arrival_time (deref s1 a) < Z.of_nat n
                < arrival_time (deref s1 a) + R) ∨
             (arrival_time (deref s1 a) = Z.of_nat n ∧
              Z.of_nat n `mod` period task = 0))) as Hready1.
  { intros a Ha Hid.
    destruct (inv_job_task _ _ Hinv1 a (Hvalid1 a Ha)) as (t & Hin & Hidt & Hmod & _).
    cbn [fst] in Hin, Hidt, Hmod. rewrite Htk1 in Hin.
    assert (t = task) as ->.
    { apply (elem_of_NoDup_id (tasks s0)); try done. congruence. }
    split; [done|].
    apply elem_of_ready_released in Ha as [Ha|Ha]; cbn [heap ready_queue set_time] in Ha.
    - left.
      assert (deref s1 a = deref st.1 a) as Heq.
      { trans (deref (set_time (Z.of_nat n) st.1) a); [|done].
        apply deref_released. cbn. by apply Hvalid. }
      rewrite Heq in *. by apply Hready.
    - right.
      assert (∃ t', t' ∈ tasks st.1 ∧ Z.of_nat n `mod` period t' = 0 ∧
                deref s1 a = new_Job (id t') (Z.of_nat n `div` period t')
                               (Z.of_nat n) (Z.of_nat n + deadline t') (wcet t'))
        as (t' & Hin' & Hmod' & Hj).
      { unfold s1. rewrite deref_released_new by (cbn; lia).
        apply released_jobs_lookup. cbn. lia. }
      rewrite Hj in *. cbn in Hid, Hmod |- *. split; [done|].
      rewrite Htk in Hin'.
      by rewrite <- (elem_of_NoDup_id (tasks s0) t' task ids_nodup Hin' task_in Hid). }
  exists st'. split; [by rewrite run_ticks_S, Hrun|].
  replace (Z.of_nat (S n)) with (Z.of_nat n + 1) by lia.
  split; [done|]. split; [done|].
  destruct (tasks_tick_effect (Z.of_nat n) oc s1) as (Htk' & Hal' & _).
  fold st' in Htk', Hal'.
  split; [by rewrite Htk'|]. split; [by rewrite Hal'|].
  split; [done|]. split; [done|]. split.
  - intros a Ha Hid.
    destruct (identity_tick_effect (Z.of_nat n) oc s1 a) as [Hid' Harr'].
    fold st' in Hid', Harr'. rewrite Harr'. rewrite Hid' in Hid.
    assert (0 < own_work hp (wcet task) (period task) (S n)) as Hpos.
    { rewrite <- Hown'. apply (pending_pos Pown st'.1 a); [done|done|].
      unfold Pown. by rewrite Hid'. }
    assert (¬ (Z.of_nat (S n) `mod` period task = 0
               ∨ R ≤ Z.of_nat (S n) `mod` period task)) as Hwin.
    { intros Hzero.
      rewrite (own_work_zero hp (wcet task) (period task) R) in Hpos;
        [lia|done|done|done|done|done|done]. }
    replace (Z.of_nat (S n)) with (Z.of_nat n + 1) in Hwin by lia.
    apply elem_of_ready_tick_effect in Ha.
    destruct (Hready1 a Ha Hid) as (Hmod & [Hold|[Hnew Hrel]]).
    + split; [lia|]. by eapply next_tick_in_window.
    + rewrite Hnew. pose proof (release_tick_in_window _ _ _ Hrel HT Hwin). lia.
  - intros a Ha Hid.
    destruct (identity_tick_effect (Z.of_nat n) oc s1 a) as [Hid' Harr'].
    fold st' in Hid', Harr'. rewrite Hid' in Hid.
    assert (a ∈ completed_jobs s1 ∨
            (oc = Some a ∧ remaining_time (deref s1 a) = 1)) as [Hold|[-> Hone]].
    { unfold st' in Ha. destruct oc as [c|]; [|by left].
      destruct (tick_effect_Some (Z.of_nat n) c s1) as (_ & _ & Hcj).
      rewrite Hcj in Ha. case_decide; [|by left].
      apply elem_of_app in Ha as [?|Hs]; [by left|].
      apply list_elem_of_singleton in Hs as ->. by right. }
    + destruct (inv_completed _ _ Hinv1 a Hold) as (_ & Hnr & _). cbn [fst] in Hnr.
      assert (oc ≠ Some a) as Hne by (intros ->; apply Hnr; by apply Hoc).
      unfold st'. rewrite deref_tick_effect_other by done.
      destruct (inv_completed _ _ Hinv a Hold) as (Hlt & _).
      assert (deref s1 a = deref st.1 a) as Heq.
      { trans (deref (set_time (Z.of_nat n) st.1) a); [|done].
        by apply deref_released. }
      rewrite Heq in *. by apply Hcomp.
    + pose proof (Hoc a eq_refl) as Ha1.
      unfold st', finished_response.
      rewrite deref_tick_effect_self by (by apply Hvalid1).
      destruct (executed_job_fields (Z.of_nat n) (deref s1 a))
        as (_ & -> & _ & _ & ->).
      rewrite decide_True by done.
      destruct (Hready1 a Ha1 Hid) as (Hmod & [Hold|[Hnew Hrel]]); lia.
Qed.
End response_time_bound.

(** ** The observed worst-case response time and the fixed point *)

(** For a task whose jobs are preceded exactly by the jobs of the tasks of
    smaller priority value, any fixed point [R] of the response-time
    equation that is at least the execution time and at most the period
    bounds the observed worst-case response time reported after a run. *)
Lemma simulated_wcrt_le_fixed_point (s0 : Scheduler) (task : Task) (R : Z)
  (duration : option Z) :
  sched_inv 0 (s0, None) →
  algorithm s0 = "RM"%string ∨ algorithm s0 = "DM"%string →
  NoDup (id <$> tasks s0) →
  Forall (λ t, 0 < period t ∧ 0 < wcet t) (tasks s0) →
  task ∈ tasks s0 →
  (∀ t, t ∈ tasks s0 → t ≠ task → priority t ≠ priority task) →
  wcet task ≤ R →
  R = wcet task + interference_of (higher_priority (tasks s0) task) R →
  R ≤ period task →
  ∃ w, simulated_wcrt (simulate_from s0 duration) (id task) = Some w ∧ w ≤ R.
Proof.
  intros Hinit Halg Hnd Hok Hin Hprio HRC HR HRT.
  set (n := Z.to_nat (match duration with Some d => d | None => hyperperiod s0 end)).
  destruct (rta_run s0 task R Hinit Halg Hnd Hok Hin Hprio HRC HR HRT n)
    as (st & Hrun & Hinv & _ & Htk & _ & _ & _ & _ & Hcomp).
  set (jobs := deref st.1 <$> completed_jobs st.1).
  assert (Forall (λ j, finish_time j ≠ -1) jobs) as Hfin.
  { apply Forall_forall. intros j (a & -> & Ha)%list_elem_of_fmap.
    destruct (inv_completed _ _ Hinv a Ha) as (Hlt & _ & Hf).
    destruct (inv_job_task _ _ Hinv a Hlt) as (t & _ & _ & _ & Harr & _).
    lia. }
  destruct (stats_loop_spec jobs (tasks st.1) ∅) as (stats & Hstats & Hlook & _).
  { intros t _. destruct (task_stats_spec jobs t Hfin) as (x & Hx & _).
    by exists x. }
  destruct (Hlook task) as (x & Hx & Hsome); [by rewrite Htk|].
  exists (Sim_WCRT x). split.
  - unfold simulate_from, run. fold n. rewrite Hrun. cbn [mbind result_bind fst snd].
    unfold analyze_results. fold jobs. rewrite Hstats.
    cbn [mbind result_bind simulated_wcrt snd]. by rewrite Hsome.
  - destruct (task_stats_spec jobs task Hfin) as (x' & Hx' & Hempty & Hne).
    rewrite Hx in Hx'. injection Hx' as <-.
    destruct (filter (λ j, task_id j = id task) jobs) as [|j0 mine] eqn:Hmine.
    + rewrite (Hempty eq_refl). cbn.
      assert (0 < wcet task) by (eapply Forall_forall in Hok; [|exact Hin]; lia).
      lia.
    + destruct Hne as (_ & (j & Hj & ->) & _); [done|].
      rewrite <- Hmine in Hj. apply list_elem_of_filter in Hj as [Hid Hj].
      apply list_elem_of_fmap in Hj as (a & -> & Ha). by apply Hcomp.
Qed.

(** ** What the analysis drivers return *)

Lemma R_seq_ge_wcet (task : Task) (hps : list Task) (n : nat) :
  Forall hp_ok hps → 0 < wcet task → wcet task ≤ R_seq task hps n.
Proof.
  intros Hok Hw. induction n as [|n IH]; [done|].
  pose proof (R_seq_mono task hps Hok Hw n). lia.
Qed.

(** With enough fuel the fixed-point iteration returns a value that is at
    least the execution time and, when it does not exceed the deadline,
    solves the response-time equation. *)
Lemma exact_wcrt_result (fuel : nat) (task : Task) (hps : list Task) :
  Forall hp_ok hps → 0 < wcet task → (wcrt_fuel task ≤ fuel)%nat →
  ∃ r, calculate_exact_wcrt_rm fuel task hps = Some (Ok r) ∧
       wcet task ≤ r ∧
       (r ≤ deadline task → r = wcet task + interference_of hps r).
Proof.
  intros Hok Hw Hfuel.
  destruct (wcrt_loop_from task hps Hok Hw (Z.to_nat (deadline task - wcet task)) 0)
    as (k & Hk & _ & Hexit & Hrun).
  { cbn [R_seq]. lia. }
  exists (R_seq task hps (S k)). split.
  - apply Hrun. unfold wcrt_fuel in Hfuel. lia.
  - split; [by apply R_seq_ge_wcet|]. intros Hle.
    destruct Hexit as [?|Heq]; [lia|].
    change (R_seq task hps (S k))
      with (wcet task + interference_of hps (R_seq task hps k)) at 1.
    by rewrite Heq.
Qed.

Lemma analysis_fuel_ge (tasks0 : list Task) (t : Task) :
  t ∈ tasks0 → (wcrt_fuel t ≤ analysis_fuel tasks0)%nat.
Proof.
  induction tasks0 as [|t0 l IH]; intros Ht; [by apply elem_of_nil in Ht|].
  cbn [analysis_fuel foldr]. fold (analysis_fuel l).
  apply elem_of_cons in Ht as [->|Ht]; [lia|]. specialize (IH Ht). lia.
Qed.

(** The loop of the analysis drivers: every task of [todo] gets the record
    computed against the tasks listed before it. *)
Lemma analysis_loop_spec (fuel : nat) (todo : list Task) :
  ∀ (done : list Task) (results : gmap Z analytic_record),
    NoDup (id <$> todo) →
    Forall (λ t, 0 < period t ∧ 0 < wcet t) (done ++ todo) →
    (∀ t, t ∈ todo → (wcrt_fuel t ≤ fuel)%nat) →
    ∃ results', analysis_loop fuel done todo results = Some (Ok results') ∧
      (∀ (i : nat) (t : Task), todo !! i = Some t →
        ∃ r, calculate_exact_wcrt_rm fuel t (done ++ take i todo) = Some (Ok r) ∧
             results' !! id t
             = Some (mkAnalytic (id t) (period t) (wcet t) r
                                (bool_decide (r ≤ deadline t)))) ∧
      (∀ k, k ∉ id <$> todo → results' !! k = results !! k).
Proof.
  induction todo as [|t todo IH]; intros done results Hnd Hok Hfuel.
  - exists results. split; [done|]. split; [|done].
    intros i t Hi. by rewrite lookup_nil in Hi.
  - rewrite fmap_cons in Hnd. apply NoDup_cons in Hnd as [Hfresh Hnd].
    assert (Forall hp_ok done) as Hdone.
    { apply Forall_app in Hok as [Hd _]. eapply Forall_impl; [exact Hd|].
      intros x [? ?]. unfold hp_ok. lia. }
    assert (0 < wcet t) as Hw.
    { apply Forall_app in Hok as [_ Ht]. apply Forall_cons in Ht as [[? ?] _]. done. }
    destruct (exact_wcrt_result fuel t done Hdone Hw) as (r & Hr & _);
      [apply Hfuel; left|].
    cbn [analysis_loop]. rewrite Hr.
    destruct (IH (done ++ [t])
                (<[id t := mkAnalytic (id t) (period t) (wcet t) r
                                     (bool_decide (r ≤ deadline t))]> results))
      as (results' & Hloop & Hspec & Hframe).
    { done. }
    { by rewrite <- app_assoc. }
    { intros x Hx. apply Hfuel. by right. }
    exists results'. split; [done|]. split.
    + intros [|i] x Hi.
      * injection Hi as <-. exists r. rewrite take_0, app_nil_r. split; [done|].
        rewrite Hframe by done. by rewrite lookup_insert_eq.
      * destruct (Hspec i x Hi) as (r' & Hr' & Hlook). exists r'.
        rewrite <- app_assoc in Hr'. done.
    + intros k Hk. rewrite fmap_cons in Hk. apply not_elem_of_cons in Hk as [Hne Hk].
      rewrite Hframe by done. by rewrite lookup_insert_ne.
Qed.

(** ** Priority orders *)

Lemma interference_of_perm (l l' : list Task) (R : Z) :
  l ≡ₚ l' → interference_of l R = interference_of l' R.
Proof.
  induction 1 as [|x l l' _ IH|x y l|l l' l'' _ IH1 _ IH2]; [done| | |congruence].
  - by rewrite !interference_of_cons, IH.
  - rewrite !interference_of_cons. lia.
Qed.

Lemma interference_of_same_load (l l' : list Task) (R : Z) :
  Forall2 (λ a b, period a = period b ∧ wcet a = wcet b) l l' →
  interference_of l R = interference_of l' R.
Proof.
  induction 1 as [|a b l l' [Hp Hw] _ IH]; [done|].
  by rewrite !interference_of_cons, IH, Hp, Hw.
Qed.

Lemma assign_priorities_same_load (l : list Task) :
  Forall2 (λ a b, period a = period b ∧ wcet a = wcet b) (assign_priorities l) l.
Proof.
  apply Forall2_same_length_lookup. split; [apply length_imap|].
  intros i a b Ha Hb. unfold assign_priorities in Ha.
  apply list_lookup_imap_Some in Ha as (x & Hx & ->).
  rewrite Hb in Hx. by injection Hx as <-.
Qed.

Lemma priorities_follow_assign (l : list Task) :
  priorities_follow (assign_priorities l).
Proof.
  intros i j a b Ha Hb Hij. unfold assign_priorities in *.
  apply list_lookup_imap_Some in Ha as (x & _ & ->).
  apply list_lookup_imap_Some in Hb as (y & _ & ->). cbn. lia.
Qed.

Lemma filter_none {A} (P : A → Prop) `{!∀ x, Decision (P x)} (l : list A) :
  (∀ x, x ∈ l → ¬ P x) → filter P l = [].
Proof.
  induction l as [|x l IH]; intros Hnone; [done|].
  rewrite filter_cons, decide_False by (apply Hnone; left).
  apply IH. intros y Hy. apply Hnone. by right.
Qed.

(** Along an order with strictly increasing priorities, the tasks that
    precede a task are the tasks before it in the order, and no other task
    shares its priority. *)
Lemma higher_priority_order (ts order : list Task) (i : nat) (task : Task) :
  order ≡ₚ ts → priorities_follow order → order !! i = Some task →
  higher_priority ts task ≡ₚ take i order ∧
  (NoDup (id <$> ts) → ∀ t, t ∈ ts → t ≠ task → priority t ≠ priority task).
Proof.
  intros Hperm Hfollow Hi. split.
  - unfold higher_priority. rewrite <- Hperm.
    rewrite <- (take_drop_middle order i task Hi) at 1.
    rewrite filter_app, filter_cons, decide_False by lia.
    rewrite filter_all, filter_none, app_nil_r; [done| |].
    + intros x (j & Hj)%list_elem_of_lookup. rewrite lookup_drop in Hj.
      pose proof (Hfollow i (S i + j)%nat task x Hi Hj). lia.
    + intros x (j & Hj)%list_elem_of_lookup.
      apply lookup_take_Some in Hj as [Hj Hlt].
      apply (Hfollow j i x task Hj Hi Hlt).
  - intros Hnd t Ht Hne. rewrite <- Hperm in Ht.
    apply list_elem_of_lookup in Ht as (j & Hj).
    destruct (Nat.lt_trichotomy i j) as [Hlt|[->|Hgt]].
    + pose proof (Hfollow i j task t Hi Hj Hlt). lia.
    + congruence.
    + pose proof (Hfollow j i t task Hj Hi Hgt). lia.
Qed.

(** ** Simulation against analysis *)

Lemma analysis_result (fuel : nat) (sorted : list Task) (i : nat) (task : Task) :
  NoDup (id <$> sorted) →
  Forall (λ t, 0 < period t ∧ 0 < wcet t) sorted →
  (∀ t, t ∈ sorted → (wcrt_fuel t ≤ fuel)%nat) →
  sorted !! i = Some task →
  ∃ r, analytic_wcrt (analysis_loop fuel [] sorted ∅) (id task) = Some r ∧
       wcet task ≤ r ∧
       (r ≤ deadline task → r = wcet task + interference_of (take i sorted) r).
Proof.
  intros Hnd Hok Hfuel Hi.
  destruct (analysis_loop_spec fuel sorted [] ∅ Hnd Hok Hfuel)
    as (results & Hloop & Hspec & _).
  destruct (Hspec i task Hi) as (r & Hr & Hlook). cbn [app] in Hr.
  exists r. split; [unfold analytic_wcrt; by rewrite Hloop, Hlook|].
  assert (Forall hp_ok (take i sorted)) as Hhp.
  { apply Forall_take. eapply Forall_impl; [exact Hok|].
    intros t [? ?]. unfold hp_ok. lia. }
  assert (0 < wcet task) as Hw.
  { apply list_elem_of_lookup_2 in Hi. eapply Forall_forall in Hok; [|exact Hi]. lia. }
  destruct (exact_wcrt_result fuel task (take i sorted) Hhp Hw) as (r' & Hr' & Hge & Hfix).
  { apply Hfuel. by eapply list_elem_of_lookup_2. }
  rewrite Hr in Hr'. injection Hr' as <-. done.
Qed.

Lemma simulated_wcrt_le_along_order (s0 : Scheduler) (order : list Task)
  (i : nat) (task : Task) (r : Z) (duration : option Z) :
  sched_inv 0 (s0, None) →
  algorithm s0 = "RM"%string ∨ algorithm s0 = "DM"%string →
  NoDup (id <$> tasks s0) →
  Forall (λ t, 0 < period t ∧ 0 < wcet t) (tasks s0) →
  order ≡ₚ tasks s0 → priorities_follow order → order !! i = Some task →
  wcet task ≤ r →
  r = wcet task + interference_of (take i order) r →
  r ≤ period task →
  ∃ w, simulated_wcrt (simulate_from s0 duration) (id task) = Some w ∧ w ≤ r.
Proof.
  intros Hinit Halg Hnd Hok Hperm Hfollow Hi Hge Hfix HrT.
  destruct (higher_priority_order (tasks s0) order i task Hperm Hfollow Hi)
    as [Hhp Hdistinct].
  apply simulated_wcrt_le_fixed_point; try done.
  - rewrite <- Hperm. by eapply list_elem_of_lookup_2.
  - by apply Hdistinct.
  - by rewrite (interference_of_perm _ _ r Hhp).
Qed.

Lemma init_tasks_ok (tasks0 : list Task) (alg : string) :
  NoDup (id <$> tasks0) →
  Forall (λ t, 0 < wcet t ∧ 0 < period t ∧ 0 < deadline t) tasks0 →
  NoDup (id <$> tasks (Scheduler_init tasks0 alg)) ∧
  Forall (λ t, 0 < period t ∧ 0 < wcet t) (tasks (Scheduler_init tasks0 alg)).
Proof.
  intros Hnd Hok. split.
  - by rewrite (init_tasks_fmap id tasks0 alg).
  - apply (Forall_fmap (λ t, (period t, wcet t)) (λ p, 0 < p.1 ∧ 0 < p.2)).
    rewrite (init_tasks_fmap (λ t, (period t, wcet t)) tasks0 alg) by done.
    apply Forall_fmap. eapply Forall_impl; [exact Hok|]. cbn. intros t. lia.
Qed.


(** The two further conditions of the amended statement are needed as
    well.  With a deadline beyond the period, the iteration converges below
    the deadline (7) while a later job of the same task waits for its
    predecessor and responds after 9 ticks; and under RM with input
    priorities against the rate-monotonic order, the task of period 2 is
    analysed without interference (1) but runs behind the other task (3). *)
Lemma simulated_wcrt_exceeds_analytic_other_causes :
  analytic_wcrt (perform_rm_analysis 10
    [mkTask "t1" 1 1 2 4 4 0; mkTask "t2" 2 1 3 5 7 1]) 2 = Some 7 ∧
  simulated_wcrt (simulate
    [mkTask "t1" 1 1 2 4 4 0; mkTask "t2" 2 1 3 5 7 1] "RM" None) 2 = Some 9 ∧
  analytic_wcrt (perform_rm_analysis 10
    [mkTask "t1" 1 1 1 2 2 1; mkTask "t2" 2 1 2 4 4 0]) 1 = Some 1 ∧
  simulated_wcrt (simulate
    [mkTask "t1" 1 1 1 2 2 1; mkTask "t2" 2 1 2 4 4 0] "RM" None) 1 = Some 3.
Proof. repeat split; vm_compute; reflexivity. Qed.



(** ** Worked examples *)

Example hyperperiod_4_6 :
  hyperperiod (Scheduler_init [mkTask "a" 1 1 1 4 4 0; mkTask "b" 2 1 1 6 6 1] "RM")
  = 12.
Proof. reflexivity. Qed.

Example single_task_two_jobs :
  simulate [mkTask "t1" 1 1 2 5 5 0] "RM" (Some 10)
  = Ok ([mkJob 1 0 0 5 0 0 2; mkJob 1 1 5 10 0 5 7],
        [(0, Some 1); (1, Some 1); (2, None); (3, None); (4, None);
         (5, Some 1); (6, Some 1); (7, None); (8, None); (9, None)],
        {[ 1 := mkStats 2 (4 # 2) 0 ]}).
Proof. vm_compute. reflexivity. Qed.

Lemma exact_wcrt_no_interference (fuel : nat) (task : Task) :
  calculate_exact_wcrt_rm (S fuel) task [] = Some (Ok (wcet task)).
Proof.
  unfold calculate_exact_wcrt_rm. cbn [wcrt_loop].
  unfold wcrt_candidate. cbn [interference_loop mbind result_bind].
  rewrite Z.add_0_r. case_decide; [done|]. by rewrite decide_True.
Qed.

(** * Further properties of the code *)

(** ** The CSV loader: outcomes *)

Lemma py_int_raise (v : cell) (e : exn) :
  py_int v = Raise e → e = TypeError ∨ e = ValueError.
Proof.
  destruct v as [s|]; cbn [py_int]; [|intros [= <-]; by left].
  destruct (int_of_str s); [done|]. intros [= <-]. by right.
Qed.

Lemma row_getitem_raise (row : csv_row) (k : string) (e : exn) :
  row_getitem row k = Raise e → e = KeyError k.
Proof. unfold row_getitem. destruct (row !! k); [done|]. by intros [= <-]. Qed.

Lemma bind_raises {A B} (m : result A) (f : A → result B) (P : exn → Prop) :
  (∀ e, m = Raise e → P e) →
  (∀ a, ∃ e, f a = Raise e ∧ P e) →
  ∃ e, m ≫= f = Raise e ∧ P e.
Proof. intros Hm Hf. destruct m as [a|e]; cbn; [apply Hf|eauto]. Qed.

(** A row whose [Task] cell is non-empty ends in an exception: one of the
    lookups or conversions fails, or else the [Task] constructor does. *)
Lemma load_row_data_raises (row : csv_row) (tasks0 : list Task) :
  cell_truthy (row_get row "Task") = true →
  ∃ e, load_row row tasks0 = Raise e ∧
       (e = TypeError ∨ e = ValueError ∨ ∃ k, e = KeyError k).
Proof.
  intros Htruthy. unfold load_row. rewrite Htruthy. cbn [negb].
  repeat (apply bind_raises;
          [intros e He;
           first [apply row_getitem_raise in He as ->; eauto
                 |apply py_int_raise in He as [->| ->]; eauto]
          |intros ?]).
  eexists. split; [reflexivity|]. by left.
Qed.

Lemma load_row_blank (row : csv_row) (tasks0 : list Task) :
  cell_truthy (row_get row "Task") = false → load_row row tasks0 = Ok tasks0.
Proof. intros H. unfold load_row. by rewrite H. Qed.

Lemma load_rows_blank (blanks rows : list csv_row) (tasks0 : list Task) :
  Forall (λ r, cell_truthy (row_get r "Task") = false) blanks →
  load_rows (blanks ++ rows) tasks0 = load_rows rows tasks0.
Proof.
  induction 1 as [|r l Hr _ IH]; [done|].
  cbn [app load_rows]. by rewrite load_row_blank.
Qed.

Lemma load_rows_raise (rows : list csv_row) (tasks0 : list Task) (e : exn) :
  load_rows rows tasks0 = Raise e →
  e = TypeError ∨ e = ValueError ∨ ∃ k, e = KeyError k.
Proof.
  revert tasks0. induction rows as [|row rows IH]; intros tasks0; [done|].
  cbn [load_rows].
  destruct (cell_truthy (row_get row "Task")) eqn:Htruthy.
  - destruct (load_row_data_raises row tasks0 Htruthy) as (e' & -> & He').
    by intros [= <-].
  - rewrite load_row_blank by done. apply IH.
Qed.

(** X1: whatever the file holds, [load_tasks_from_csv] returns the empty
    list or raises [TypeError]; it never returns a task, since the [Task]
    constructor is called without its required field [name]. *)
Theorem load_tasks_returns_no_task (file : option (list csv_row)) :
  load_tasks_from_csv file = Ok [] ∨
  load_tasks_from_csv file = Raise TypeError.
Proof.
  destruct file as [rows|]; [|by left]. unfold load_tasks_from_csv.
  destruct (load_rows rows []) as [tasks1|e] eqn:Hload.
  - apply load_rows_never_append in Hload as ->. by left.
  - apply load_rows_raise in Hload as [->|[->|[k ->]]]; auto.
Qed.



(** ** Task lookup *)

Lemma get_task_in_first_match (ts : list Task) (tid : Z) :
  match get_task_in ts tid with
  | Ok t => ∃ l1 l2, ts = l1 ++ t :: l2 ∧ id t = tid ∧ ∀ x, x ∈ l1 → id x ≠ tid
  | Raise e => e = ValueError ∧ ∀ x, x ∈ ts → id x ≠ tid
  end.
Proof.
  induction ts as [|t0 ts IH]; cbn [get_task_in].
  - split; [done|]. intros x Hx. by apply elem_of_nil in Hx.
  - destruct (decide (id t0 = tid)) as [Heq|Hne].
    + exists [], ts. split; [done|]. split; [done|].
      intros x Hx. by apply elem_of_nil in Hx.
    + destruct (get_task_in ts tid) as [t|e].
      * destruct IH as (l1 & l2 & -> & Hid & Hl1).
        exists (t0 :: l1), l2. split; [done|]. split; [done|].
        intros x [->|Hx]%elem_of_cons; [done|by apply Hl1].
      * destruct IH as [-> Hall]. split; [done|].
        intros x [->|Hx]%elem_of_cons; [done|by apply Hall].
Qed.

(** X3: [get_task] returns the first task of the scheduler's list whose id
    is the one asked for, and raises [ValueError] exactly when no task has
    that id. *)
Theorem get_task_first_match (s : Scheduler) (tid : Z) :
  match get_task s tid with
  | Ok t => ∃ l1 l2, tasks s = l1 ++ t :: l2 ∧ id t = tid ∧
                     ∀ x, x ∈ l1 → id x ≠ tid
  | Raise e => e = ValueError ∧ ∀ x, x ∈ tasks s → id x ≠ tid
  end.
Proof. apply get_task_in_first_match. Qed.

(** ** Division by zero in the analysis *)

Lemma interference_loop_zero_period (R : Z) (hps : list Task) (acc : Z) :
  Exists (λ hp, period hp = 0) hps →
  interference_loop R hps acc = Raise ZeroDivisionError.
Proof.
  intros Hex. revert acc. induction hps as [|hp hps IH]; intros acc.
  - by apply Exists_nil in Hex.
  - cbn [interference_loop]. unfold py_ceil_truediv.
    destruct (decide (period hp = 0)) as [Hz|Hnz]; [done|].
    cbn [mbind result_bind]. apply IH.
    apply Exists_cons in Hex as [?|?]; [done|assumption].
Qed.

Lemma wcrt_loop_never_raises (fuel : nat) (task : Task) (hps : list Task)
  (R : Z) (e : exn) :
  Forall (λ hp, period hp ≠ 0) hps →
  wcrt_loop fuel task hps R ≠ Some (Raise e).
Proof.
  intros Hok. revert R. induction fuel as [|fuel IH]; intros R; [done|].
  cbn [wcrt_loop]. unfold wcrt_candidate.
  rewrite interference_loop_eq by done. cbn [mbind result_bind].
  repeat case_decide; first [done|apply IH].
Qed.



Lemma calculate_utilization_zero_period (ts : list Task) :
  Exists (λ t, period t = 0) ts →
  calculate_utilization ts = Raise ZeroDivisionError.
Proof.
  induction ts as [|t ts IH]; intros Hex; [by apply Exists_nil in Hex|].
  cbn [calculate_utilization].
  destruct (decide (period t = 0)) as [Hz|Hnz]; [done|].
  apply Exists_cons in Hex as [?|Hex]; [done|]. by rewrite IH.
Qed.

Lemma calculate_utilization_Ok (ts : list Task) :
  Forall (λ t, period t ≠ 0) ts → ∃ u, calculate_utilization ts = Ok u.
Proof.
  induction 1 as [|t ts Ht _ [u IH]]; [by eexists|].
  cbn [calculate_utilization]. rewrite decide_False by done.
  rewrite IH. by eexists.
Qed.


(** ** The value returned by the fixed-point iteration *)

(** Every candidate of the iteration lies below every non-negative solution
    of the response-time equation. *)
Lemma R_seq_le_solution (task : Task) (hps : list Task) (R' : Z) (n : nat) :
  Forall hp_ok hps → 0 ≤ R' →
  R' = wcet task + interference_of hps R' →
  R_seq task hps n ≤ R'.
Proof.
  intros Hok Hpos Hfix. induction n as [|n IH]; cbn [R_seq].
  - pose proof (interference_of_nonneg hps R' Hok Hpos). lia.
  - pose proof (interference_of_mono hps _ _ Hok IH). lia.
Qed.



(** ** The stable sort *)

Section sort_by_order.
Context {A K : Type} (key : A → K) (ltb : K → K → bool).
Hypothesis ltb_asym : ∀ a b, ltb a b = true → ltb b a = false.
Hypothesis leb_trans :
  ∀ a b c, ltb b a = false → ltb c b = false → ltb c a = false.

Lemma insert_by_sorted (x : A) (l : list A) :
  StronglySorted (λ x y, ltb (key y) (key x) = false) l → StronglySorted (λ x y, ltb (key y) (key x) = false) (insert_by key ltb x l).
Proof.
  induction l as [|y l IH]; intros Hs; cbn [insert_by].
  - apply StronglySorted_cons. split; [apply Forall_nil_2|constructor].
  - apply StronglySorted_cons in Hs as [Hy Hs].
    destruct (ltb (key y) (key x)) eqn:Hlt.
    + apply StronglySorted_cons. split; [|by apply IH].
      rewrite insert_by_perm. apply Forall_cons. split; [|done].
      by apply ltb_asym.
    + apply StronglySorted_cons. split.
      * apply Forall_cons. split; [done|].
        eapply Forall_impl; [exact Hy|]. intros z Hz.
        cbn in *. by eapply leb_trans.
      * by apply StronglySorted_cons.
Qed.

Lemma sort_by_sorted (l : list A) : StronglySorted (λ x y, ltb (key y) (key x) = false) (sort_by key ltb l).
Proof.
  induction l as [|x l IH]; [constructor|].
  unfold sort_by. cbn [foldr]. by apply insert_by_sorted.
Qed.

Lemma sort_by_lookup_le (l : list A) (i j : nat) (a b : A) :
  sort_by key ltb l !! i = Some a → sort_by key ltb l !! j = Some b →
  (i < j)%nat → ltb (key b) (key a) = false.
Proof.
  pose proof (sort_by_sorted l) as Hs. revert Hs i j.
  generalize (sort_by key ltb l). clear l.
  induction 1 as [|x l _ IH Hx]; intros i j Hi Hj Hij.
  - by rewrite lookup_nil in Hi.
  - destruct j as [|j]; [lia|]. cbn in Hj. destruct i as [|i].
    + injection Hi as <-. eapply Forall_forall in Hx; [exact Hx|].
      by eapply list_elem_of_lookup_2.
    + cbn in Hi. apply (IH i j Hi Hj). lia.
Qed.

(** Stability: the elements that satisfy a predicate closed under equal
    keys keep their relative order. *)
Lemma filter_insert_by (P : A → Prop) `{!∀ x, Decision (P x)} (x : A) (l : list A) :
  (∀ y, P x → P y → ltb (key y) (key x) = false) →
  filter P (insert_by key ltb x l) = filter P (x :: l).
Proof.
  intros HP. induction l as [|y l IH]; [done|]. cbn [insert_by].
  destruct (ltb (key y) (key x)) eqn:Hlt; [|done].
  rewrite (filter_cons _ y), IH, !filter_cons.
  destruct (decide (P y)) as [Hy|Hy], (decide (P x)) as [Hx|Hx]; try done.
  specialize (HP y Hx Hy). congruence.
Qed.

Lemma filter_sort_by (P : A → Prop) `{!∀ x, Decision (P x)} (l : list A) :
  (∀ x y, P x → P y → ltb (key y) (key x) = false) →
  filter P (sort_by key ltb l) = filter P l.
Proof.
  intros HP. induction l as [|x l IH]; [done|].
  unfold sort_by. cbn [foldr]. rewrite filter_insert_by by (intros y; apply HP).
  rewrite !filter_cons. fold (sort_by key ltb l). by rewrite IH.
Qed.
End sort_by_order.

Lemma Z_ltb_asym (a b : Z) : (a <? b) = true → (b <? a) = false.
Proof. intros H%Z.ltb_lt. apply Z.ltb_ge. lia. Qed.

Lemma Z_leb_trans (a b c : Z) :
  (b <? a) = false → (c <? b) = false → (c <? a) = false.
Proof. rewrite !Z.ltb_ge. lia. Qed.

Lemma pair_ltb_lt (a b : Z * Z) :
  pair_ltb a b = true ↔ a.1 < b.1 ∨ (a.1 = b.1 ∧ a.2 < b.2).
Proof.
  unfold pair_ltb. rewrite orb_true_iff, andb_true_iff, !bool_decide_eq_true.
  done.
Qed.

Lemma pair_ltb_ge (a b : Z * Z) :
  pair_ltb a b = false ↔ b.1 < a.1 ∨ (a.1 = b.1 ∧ b.2 ≤ a.2).
Proof.
  rewrite <- not_true_iff_false, pair_ltb_lt. lia.
Qed.

Lemma pair_ltb_asym (a b : Z * Z) : pair_ltb a b = true → pair_ltb b a = false.
Proof. rewrite pair_ltb_lt, pair_ltb_ge. lia. Qed.

Lemma pair_leb_trans (a b c : Z * Z) :
  pair_ltb b a = false → pair_ltb c b = false → pair_ltb c a = false.
Proof. rewrite !pair_ltb_ge. lia. Qed.

(** ** The hyperperiod *)

Lemma foldl_lcm_spec (l : list Z) (a : Z) :
  0 ≤ a →
  0 ≤ foldl Z.lcm a l ∧
  Z.divide a (foldl Z.lcm a l) ∧
  (∀ x, x ∈ l → Z.divide x (foldl Z.lcm a l)) ∧
  (∀ m, Z.divide a m → (∀ x, x ∈ l → Z.divide x m) →
        Z.divide (foldl Z.lcm a l) m) ∧
  (foldl Z.lcm a l = 0 ↔ a = 0 ∨ 0 ∈ l).
Proof.
  revert a. induction l as [|x l IH]; intros a Ha; cbn [foldl].
  - split; [done|]. split; [done|]. split.
    { intros x Hx. by apply elem_of_nil in Hx. }
    split; [by intros m Hm _|].
    split; [by left|]. intros [?|Hx]; [done|]. by apply elem_of_nil in Hx.
  - destruct (IH (Z.lcm a x) (Z.lcm_nonneg a x))
      as (Hpos & Hdiv & Hall & Hleast & Hzero).
    split; [done|]. split.
    { etrans; [apply Z.divide_lcm_l|exact Hdiv]. }
    split.
    { intros y [->|Hy]%elem_of_cons; [|by apply Hall].
      etrans; [apply Z.divide_lcm_r|exact Hdiv]. }
    split.
    { intros m Hm Hxs. apply Hleast.
      - apply Z.lcm_least; [done|]. apply Hxs. left.
      - intros y Hy. apply Hxs. by right. }
    rewrite Hzero, Z.lcm_eq_0, elem_of_cons. intuition congruence.
Qed.

(** X7: for every algorithm, the hyperperiod stored by the constructor is
    the least common multiple of the periods: it is non-negative, every
    period divides it, it divides every common multiple of the periods of a
    non-empty task list, and it is zero exactly when the list is empty or
    some period is zero. *)
Theorem hyperperiod_is_lcm (tasks0 : list Task) (alg : string) :
  0 ≤ hyperperiod (Scheduler_init tasks0 alg) ∧
  (∀ t, t ∈ tasks0 → Z.divide (period t) (hyperperiod (Scheduler_init tasks0 alg))) ∧
  (∀ m, tasks0 ≠ [] → (∀ t, t ∈ tasks0 → Z.divide (period t) m) →
        Z.divide (hyperperiod (Scheduler_init tasks0 alg)) m) ∧
  (hyperperiod (Scheduler_init tasks0 alg) = 0
   ↔ tasks0 = [] ∨ Exists (λ t, period t = 0) tasks0).
Proof.
  unfold Scheduler_init. cbn [hyperperiod].
  destruct tasks0 as [|t0 ts].
  { cbn. split; [done|]. split; [intros t Ht; by apply elem_of_nil in Ht|].
    split; [done|]. split; [by left|done]. }
  set (l := t0 :: ts).
  assert (match period <$> l with [] => 0 | _ :: _ => py_lcm (period <$> l) end
          = py_lcm (period <$> l)) as -> by done.
  unfold py_lcm.
  destruct (foldl_lcm_spec (period <$> l) 1) as (Hpos & _ & Hall & Hleast & Hzero);
    [lia|].
  split; [done|]. split.
  { intros t Ht. apply Hall. by apply list_elem_of_fmap_2. }
  split.
  { intros m _ Hm. apply Hleast; [apply Z.divide_1_l|].
    intros x (t & -> & Ht)%list_elem_of_fmap. by apply Hm. }
  rewrite Hzero. split.
  - intros [?|(t & Hp & Ht)%list_elem_of_fmap]; [lia|].
    right. apply Exists_exists. by exists t.
  - intros [?|(t & Ht & Hp)%Exists_exists]; [done|].
    right. apply list_elem_of_fmap. by exists t.
Qed.

(** ** The priorities assigned by the constructor *)


(** ** The records of the response-time analysis *)

Lemma wcrt_loop_perm (fuel : nat) (task : Task) (hps hps' : list Task) (R : Z) :
  hps ≡ₚ hps' → Forall (λ hp, period hp ≠ 0) hps →
  wcrt_loop fuel task hps R = wcrt_loop fuel task hps' R.
Proof.
  intros Hperm Hok.
  assert (Forall (λ hp, period hp ≠ 0) hps') as Hok' by (by rewrite <- Hperm).
  revert R. induction fuel as [|fuel IH]; intros R; [done|].
  cbn [wcrt_loop]. unfold wcrt_candidate.
  rewrite !interference_loop_eq by done.
  rewrite (interference_of_perm hps hps' R Hperm). cbn [mbind result_bind].
  repeat case_decide; first [done|apply IH].
Qed.

(** In the rate-monotonic order, the tasks listed before a task are the
    tasks with a smaller (period, id) key. *)
Lemma rm_order_before (tasks0 : list Task) (i : nat) (task : Task) :
  NoDup (id <$> tasks0) →
  sort_by rm_key pair_ltb tasks0 !! i = Some task →
  take i (sort_by rm_key pair_ltb tasks0)
  ≡ₚ filter (λ hp, period hp < period task ∨
                   (period hp = period task ∧ id hp < id task)) tasks0.
Proof.
  intros Hnd Hi. set (sorted := sort_by rm_key pair_ltb tasks0) in *.
  assert (sorted ≡ₚ tasks0) as Hperm by apply sort_by_perm.
  assert (NoDup (id <$> sorted)) as Hnd' by (by rewrite Hperm).
  rewrite <- Hperm. rewrite <- (take_drop_middle sorted i task Hi) at 2.
  rewrite filter_app, filter_cons, decide_False by lia.
  rewrite filter_all, filter_none, app_nil_r; [done| |].
  - intros x (j & Hj)%list_elem_of_lookup. rewrite lookup_drop in Hj.
    pose proof (sort_by_lookup_le rm_key pair_ltb pair_ltb_asym pair_leb_trans
                  tasks0 i (S i + j) task x Hi Hj ltac:(lia)) as Hle.
    apply pair_ltb_ge in Hle. cbn in Hle. lia.
  - intros x (j & Hj)%list_elem_of_lookup.
    apply lookup_take_Some in Hj as [Hj Hlt].
    pose proof (sort_by_lookup_le rm_key pair_ltb pair_ltb_asym pair_leb_trans
                  tasks0 j i x task Hj Hi Hlt) as Hle.
    apply pair_ltb_ge in Hle. cbn in Hle.
    assert (id x ≠ id task) as Hne.
    { intros Heq.
      assert (j = i); [|lia].
      eapply (NoDup_lookup (id <$> sorted) j i (id x)); [done| |].
      - by rewrite list_lookup_fmap, Hj.
      - by rewrite list_lookup_fmap, Hi, Heq. }
    lia.
Qed.



(** ** Runs on a task with period zero *)

Lemma run_loop_first_raises (t : Z) (ticks : list Z) (st : Scheduler * option nat)
  (e : exn) :
  tick t st = Raise e → run_loop (t :: ticks) st = Raise e.
Proof. intros H. cbn [run_loop]. by rewrite H. Qed.

(** X10: when some task has period zero, the stored hyperperiod is zero, so
    a run of the default duration executes no tick and returns empty
    results, while a run of any positive duration raises
    [ZeroDivisionError] in the release step of tick 0. *)
Theorem run_zero_period (tasks0 : list Task) (alg : string) :
  Exists (λ t, period t = 0) tasks0 →
  run (Scheduler_init tasks0 alg) None
  = Ok (Scheduler_init tasks0 alg, ([], [])) ∧
  ∀ d, 0 < d →
    run (Scheduler_init tasks0 alg) (Some d) = Raise ZeroDivisionError.
Proof.
  intros Hex. split.
  - assert (hyperperiod (Scheduler_init tasks0 alg) = 0) as Hhy.
    { unfold Scheduler_init. cbn [hyperperiod].
      destruct tasks0 as [|t0 ts]; [done|].
      set (l := t0 :: ts) in *.
      assert (match period <$> l with [] => 0 | _ :: _ => py_lcm (period <$> l) end
              = py_lcm (period <$> l)) as -> by done.
      unfold py_lcm.
      destruct (foldl_lcm_spec (period <$> l) 1) as (_ & _ & _ & _ & Hzero);
        [lia|].
      apply Hzero. right. apply Exists_exists in Hex as (t & Ht & Hp).
      apply list_elem_of_fmap. by exists t. }
    unfold run. rewrite Hhy. done.
  - intros d Hd. unfold run.
    destruct (Z.to_nat d) as [|n] eqn:Hn; [lia|].
    unfold run_ticks. rewrite <- cons_seq, fmap_cons.
    rewrite (run_loop_first_raises _ _ _ ZeroDivisionError); [done|].
    unfold tick, dispatch, release. cbn [fst snd tasks set_time].
    rewrite release_zero_period; [done|].
    apply Exists_exists in Hex as (t & Ht & Hp).
    assert (0 ∈ period <$> tasks (Scheduler_init tasks0 alg)) as Hin.
    { rewrite (init_tasks_fmap period tasks0 alg) by done.
      apply list_elem_of_fmap. by exists t. }
    apply list_elem_of_fmap in Hin as (t' & Hp' & Ht').
    apply Exists_exists. by exists t'.
Qed.

Lemma run_zero_period_witness :
  run (Scheduler_init [mkTask "t1" 1 1 1 0 2 0] "RM") (Some 100)
  = Raise ZeroDivisionError.
Proof.
  apply (proj2 (run_zero_period [mkTask "t1" 1 1 1 0 2 0] "RM"
                  ltac:(apply Exists_cons_hd; reflexivity))).
  lia.
Defined.

(** ** Dispatch under EDF and DM *)

(** X11: constructed with "EDF", in every tick the scheduler runs a ready
    job whose absolute deadline is minimal among the ready jobs, and idles
    only when no job is ready. *)
Theorem edf_dispatch_earliest_deadline (tasks0 : list Task) (n : nat) :
  Forall (λ task, period task ≠ 0) tasks0 →
  ∃ st s1 s2 oc,
    run_ticks n (Scheduler_init tasks0 "EDF") = Ok st ∧
    release (Z.of_nat n) (set_time (Z.of_nat n) st.1) = Ok s1 ∧
    dispatch (Z.of_nat n) st = Ok (s2, oc) ∧
    match oc with
    | None => ready_queue s1 = []
    | Some c =>
        c ∈ ready_queue s1 ∧
        ∀ a, a ∈ ready_queue s1 →
          absolute_deadline (deref s1 c) ≤ absolute_deadline (deref s1 a)
    end.
Proof.
  intros Hper.
  destruct (dispatch_chosen (Scheduler_init tasks0 "EDF") n)
    as (st & s1 & s2 & oc & Hrun & Hrel & Hdisp & Htk & Hal & Hinv1 & Hch).
  { done. }
  { apply sched_inv_init. }
  exists st, s1, s2, oc. split; [done|]. split; [done|]. split; [done|].
  assert (∀ a, job_key s1 a = absolute_deadline (deref s1 a)) as Hkey.
  { intros a. unfold job_key. rewrite Hal. cbn [algorithm Scheduler_init].
    rewrite decide_False; [done|]. by intros [?|?]. }
  destruct oc as [c|]; cbn [chosen] in Hch.
  - destruct Hch as (_ & m & Hfm & Hcm).
    assert (c ∈ ready_queue s1 ∧ job_key s1 c = job_key s1 m) as [Hc Hcmkey].
    { destruct Hcm as [->|[Hcur Heq]]; [split; [by eapply first_min_elem|done]|].
      split; [by apply (inv_cur_ready _ _ Hinv1)|].
      by rewrite !Hkey, Heq. }
    split; [done|]. intros a Ha.
    rewrite <- !Hkey, Hcmkey. by eapply first_min_le.
  - destruct Hch as [?|Hunk]; [done|]. exfalso. apply Hunk.
    rewrite Hal. right. by right.
Qed.

Lemma edf_dispatch_earliest_deadline_witness :
  ∃ st s1 s2 oc,
    run_ticks 0 (Scheduler_init [mkTask "t1" 1 1 1 2 2 0] "EDF") = Ok st ∧
    release 0 (set_time 0 st.1) = Ok s1 ∧
    dispatch 0 st = Ok (s2, oc) ∧
    match oc with
    | None => ready_queue s1 = []
    | Some c =>
        c ∈ ready_queue s1 ∧
        ∀ a, a ∈ ready_queue s1 →
          absolute_deadline (deref s1 c) ≤ absolute_deadline (deref s1 a)
    end.
Proof.
  apply (edf_dispatch_earliest_deadline [mkTask "t1" 1 1 1 2 2 0] 0).
  apply Forall_cons. split; [cbn; lia|apply Forall_nil_2].
Defined.

(** Under DM the stored priorities follow the deadlines. *)
Lemma dm_priority_le_deadline (tasks0 : list Task) (a b : Task) :
  a ∈ tasks (Scheduler_init tasks0 "DM") →
  b ∈ tasks (Scheduler_init tasks0 "DM") →
  priority a ≤ priority b → deadline a ≤ deadline b.
Proof.
  assert (∀ i : nat, tasks (Scheduler_init tasks0 "DM") !! i
            = set_priority (Z.of_nat i) <$> sort_by deadline Z.ltb tasks0 !! i)
    as Hlook.
  { intros i. unfold Scheduler_init. cbn [tasks]. rewrite decide_True by done.
    unfold assign_priorities. by rewrite list_lookup_imap. }
  intros (i & Ha)%list_elem_of_lookup (j & Hb)%list_elem_of_lookup Hle.
  rewrite Hlook in Ha, Hb.
  destruct (sort_by deadline Z.ltb tasks0 !! i) as [x|] eqn:Hx; [|done].
  destruct (sort_by deadline Z.ltb tasks0 !! j) as [y|] eqn:Hy; [|done].
  injection Ha as <-. injection Hb as <-. cbn in Hle |- *.
  destruct (decide (i = j)) as [->|Hne]; [by simplify_eq|].
  apply Z.ltb_ge.
  apply (sort_by_lookup_le deadline Z.ltb Z_ltb_asym Z_leb_trans
           tasks0 i j x y Hx Hy). lia.
Qed.

(** X12: constructed with "DM", in every tick the scheduler runs a ready
    job whose task, as [get_task] finds it, has the smallest priority value
    and hence a relative deadline that no ready job's task undercuts; it
    idles only when no job is ready. *)
Theorem dm_dispatch_min_relative_deadline (tasks0 : list Task) (n : nat) :
  Forall (λ task, period task ≠ 0) tasks0 →
  ∃ st s1 s2 oc,
    run_ticks n (Scheduler_init tasks0 "DM") = Ok st ∧
    release (Z.of_nat n) (set_time (Z.of_nat n) st.1) = Ok s1 ∧
    dispatch (Z.of_nat n) st = Ok (s2, oc) ∧
    match oc with
    | None => ready_queue s1 = []
    | Some c =>
        c ∈ ready_queue s1 ∧
        ∃ tc, get_task s1 (task_id (deref s1 c)) = Ok tc ∧
          ∀ a, a ∈ ready_queue s1 →
            ∃ ta, get_task s1 (task_id (deref s1 a)) = Ok ta ∧
                  priority tc ≤ priority ta ∧ deadline tc ≤ deadline ta
    end.
Proof.
  intros Hper.
  destruct (dispatch_chosen (Scheduler_init tasks0 "DM") n)
    as (st & s1 & s2 & oc & Hrun & Hrel & Hdisp & Htk & Hal & Hinv1 & Hch).
  { by apply (init_tasks_period tasks0 "DM" (λ p, p ≠ 0)). }
  { apply sched_inv_init. }
  exists st, s1, s2, oc. split; [done|]. split; [done|]. split; [done|].
  assert (∀ a, a ∈ ready_queue s1 →
            ∃ ta, get_task s1 (task_id (deref s1 a)) = Ok ta ∧
                  ta ∈ tasks (Scheduler_init tasks0 "DM") ∧
                  job_key s1 a = priority ta) as Hkey.
  { intros a Ha.
    destruct (inv_job_task _ _ Hinv1 a (inv_ready_valid _ _ Hinv1 a Ha))
      as (task & Hin & Hid & _).
    cbn [fst] in Hin, Hid.
    destruct (get_task_in_Ok (tasks s1) (task_id (deref s1 a)))
      as (ta & Hta & Hta_in & _); [by exists task|].
    exists ta. split; [done|]. split; [by rewrite <- Htk|].
    unfold job_key. rewrite Hal.
    rewrite decide_True by (by right).
    unfold priority_key, get_task. by rewrite Hta. }
  destruct oc as [c|]; cbn [chosen] in Hch.
  - destruct Hch as (_ & m & Hfm & Hcm).
    assert (c ∈ ready_queue s1 ∧ job_key s1 c = job_key s1 m) as [Hc Hcmkey].
    { destruct Hcm as [->|[Hcur Heq]]; [split; [by eapply first_min_elem|done]|].
      split; [by apply (inv_cur_ready _ _ Hinv1)|].
      unfold job_key, priority_key. by rewrite Heq. }
    split; [done|]. destruct (Hkey c Hc) as (tc & Htc & Htc_in & Hkc).
    exists tc. split; [done|]. intros a Ha.
    destruct (Hkey a Ha) as (ta & Hta & Hta_in & Hka). exists ta. split; [done|].
    assert (priority tc ≤ priority ta) as Hle.
    { rewrite <- Hkc, <- Hka, Hcmkey. by eapply first_min_le. }
    split; [done|]. by eapply dm_priority_le_deadline.
  - destruct Hch as [?|Hunk]; [done|]. exfalso. apply Hunk.
    rewrite Hal. right. by left.
Qed.

Lemma dm_dispatch_min_relative_deadline_witness :
  ∃ st s1 s2 oc,
    run_ticks 0 (Scheduler_init [mkTask "t1" 1 1 1 2 2 0] "DM") = Ok st ∧
    release 0 (set_time 0 st.1) = Ok s1 ∧
    dispatch 0 st = Ok (s2, oc) ∧
    match oc with
    | None => ready_queue s1 = []
    | Some c =>
        c ∈ ready_queue s1 ∧
        ∃ tc, get_task s1 (task_id (deref s1 c)) = Ok tc ∧
          ∀ a, a ∈ ready_queue s1 →
            ∃ ta, get_task s1 (task_id (deref s1 a)) = Ok ta ∧
                  priority tc ≤ priority ta ∧ deadline tc ≤ deadline ta
    end.
Proof.
  apply (dm_dispatch_min_relative_deadline [mkTask "t1" 1 1 1 2 2 0] 0).
  apply Forall_cons. split; [cbn; lia|apply Forall_nil_2].
Defined.

(** ** Induction along a run *)

(** A property of the loop state holds after every number of ticks when it
    holds initially and every tick preserves it; the tick is given in its
    closed form, with the facts known about the state it starts from. *)
Lemma run_ticks_invariant (s0 : Scheduler)
  (P : nat → Scheduler * option nat → Prop) :
  Forall (λ task, period task ≠ 0) (tasks s0) →
  sched_inv 0 (s0, None) →
  P 0%nat (s0, None) →
  (∀ (n : nat) (st : Scheduler * option nat) (oc : option nat),
     run_ticks n s0 = Ok st →
     sched_inv (Z.of_nat n) st →
     tasks st.1 = tasks s0 → algorithm st.1 = algorithm s0 →
     P n st →
     sched_inv (Z.of_nat n + 1)
       (released (Z.of_nat n) (tasks s0) (set_time (Z.of_nat n) st.1), st.2) →
     chosen st.2 (released (Z.of_nat n) (tasks s0) (set_time (Z.of_nat n) st.1)) oc →
     (∀ c, oc = Some c →
        c ∈ ready_queue (released (Z.of_nat n) (tasks s0) (set_time (Z.of_nat n) st.1))) →
     run_ticks (S n) s0
     = Ok (tick_effect (Z.of_nat n) oc
             (released (Z.of_nat n) (tasks s0) (set_time (Z.of_nat n) st.1))) →
     P (S n) (tick_effect (Z.of_nat n) oc
                (released (Z.of_nat n) (tasks s0) (set_time (Z.of_nat n) st.1)))) →
  ∀ n : nat, ∃ st, run_ticks n s0 = Ok st ∧ P n st.
Proof.
  intros Hper Hinit H0 Hstep n. induction n as [|n (st & Hrun & HP)].
  - by exists (s0, None).
  - destruct (run_ticks_inv n s0 Hper Hinit) as (st' & Hrun' & Hinv & Htk & Hal & _).
    rewrite Hrun in Hrun'. injection Hrun' as <-.
    destruct (tick_spec (Z.of_nat n) st) as (oc & _ & Htick & Hch & Hoc & _);
      [lia|by rewrite Htk|done|].
    rewrite Htk in Htick, Hch, Hoc.
    assert (run_ticks (S n) s0
            = Ok (tick_effect (Z.of_nat n) oc
                    (released (Z.of_nat n) (tasks s0) (set_time (Z.of_nat n) st.1))))
      as Hrun'.
    { rewrite run_ticks_S, Hrun. exact Htick. }
    eexists. split; [exact Hrun'|].
    apply Hstep; try done.
    rewrite <- Htk. destruct st as [s cur]. apply released_inv; [lia|done].
Qed.

(** ** Longer runs extend shorter ones *)

Lemma tick_extends (t : Z) (oc : option nat) (s : Scheduler) (cur : option nat)
  (ts : list Task) :
  sched_inv t (s, cur) →
  sched_inv (t + 1) (released t ts (set_time t s), cur) →
  (∀ c, oc = Some c → c ∈ ready_queue (released t ts (set_time t s))) →
  history s `prefix_of` history (tick_effect t oc (released t ts (set_time t s))).1 ∧
  completed_jobs s
    `prefix_of` completed_jobs (tick_effect t oc (released t ts (set_time t s))).1 ∧
  ∀ a, a ∈ completed_jobs s →
    deref (tick_effect t oc (released t ts (set_time t s))).1 a = deref s a.
Proof.
  intros Hinv Hinv1 Hoc. set (s1 := released t ts (set_time t s)) in *.
  split; [|split].
  - rewrite history_tick_effect. unfold s1 at 1. rewrite history_released.
    by apply prefix_app_r.
  - destruct oc as [c|]; [|done].
    destruct (tick_effect_Some t c s1) as (_ & _ & ->).
    case_decide; [by apply prefix_app_r|done].
  - intros a Ha.
    destruct (inv_completed _ _ Hinv a Ha) as (Hlen & _ & _).
    destruct (inv_completed _ _ Hinv1 a Ha) as (_ & Hnr & _).
    cbn [fst snd] in *.
    rewrite deref_tick_effect_other.
    + unfold s1. by rewrite deref_released.
    + intros ->. apply Hnr. by apply Hoc.
Qed.

Lemma run_ticks_extends (s0 : Scheduler) :
  Forall (λ task, period task ≠ 0) (tasks s0) →
  sched_inv 0 (s0, None) →
  ∀ n : nat, ∃ st, run_ticks n s0 = Ok st ∧
    ∀ (n0 : nat) st0, (n0 ≤ n)%nat → run_ticks n0 s0 = Ok st0 →
      history st0.1 `prefix_of` history st.1 ∧
      completed_jobs st0.1 `prefix_of` completed_jobs st.1 ∧
      ∀ a, a ∈ completed_jobs st0.1 → deref st.1 a = deref st0.1 a.
Proof.
  intros Hper Hinit. apply run_ticks_invariant; [done|done| |].
  - intros n0 st0 Hn0 Hrun. replace n0 with 0%nat in Hrun by lia.
    injection Hrun as <-. done.
  - intros n st oc Hrun Hinv Htk Hal IH Hinv1 Hch Hoc Hrun' n0 st0 Hn0 Hrun0.
    destruct (decide (n0 = S n)) as [->|Hne].
    { rewrite Hrun' in Hrun0. injection Hrun0 as <-. done. }
    destruct (IH n0 st0 ltac:(lia) Hrun0) as (Hh & Hc & Hd).
    destruct st as [s cur]. cbn [fst snd] in *.
    destruct (tick_extends (Z.of_nat n) oc s cur (tasks s0) Hinv Hinv1 Hoc)
      as (Hh' & Hc' & Hd').
    split; [by etrans|]. split; [by etrans|].
    intros a Ha. rewrite Hd'; [by apply Hd|].
    destruct Hc as [k ->]. apply elem_of_app. by left.
Qed.

(** X13: on tasks without a zero period, a longer run extends a shorter one:
    the trace and the completed jobs returned for duration [d] are prefixes
    of those returned for any duration [d' ≥ d]; a completed job is never
    modified again. *)
Theorem run_prefix (tasks0 : list Task) (alg : string) (d d' : Z) :
  Forall (λ task, period task ≠ 0) tasks0 →
  d ≤ d' →
  ∃ s jobs hist s' jobs' hist',
    run (Scheduler_init tasks0 alg) (Some d) = Ok (s, (jobs, hist)) ∧
    run (Scheduler_init tasks0 alg) (Some d') = Ok (s', (jobs', hist')) ∧
    hist `prefix_of` hist' ∧ jobs `prefix_of` jobs'.
Proof.
  intros Hper Hd. set (s0 := Scheduler_init tasks0 alg).
  assert (Forall (λ task, period task ≠ 0) (tasks s0)) as Hper'
    by (by apply (init_tasks_period tasks0 alg (λ p, p ≠ 0))).
  pose proof (sched_inv_init tasks0 alg) as Hinit. fold s0 in Hinit.
  destruct (run_ticks_extends s0 Hper' Hinit (Z.to_nat d)) as (st & Hrun & _).
  destruct (run_ticks_extends s0 Hper' Hinit (Z.to_nat d')) as (st' & Hrun' & Hext).
  destruct (Hext (Z.to_nat d) st ltac:(lia) Hrun) as (Hh & Hc & Hderef).
  exists st.1, (deref st.1 <$> completed_jobs st.1), (history st.1),
         st'.1, (deref st'.1 <$> completed_jobs st'.1), (history st'.1).
  unfold run. rewrite Hrun, Hrun'. split; [done|]. split; [done|].
  split; [done|].
  destruct Hc as [k Hk]. rewrite Hk, fmap_app.
  replace (deref st'.1 <$> completed_jobs st.1)
    with (deref st.1 <$> completed_jobs st.1); [by apply prefix_app_r|].
  apply list_fmap_ext. intros i a Ha. symmetry. apply Hderef.
  by eapply list_elem_of_lookup_2.
Qed.

Lemma run_prefix_witness :
  ∃ s jobs hist s' jobs' hist',
    run (Scheduler_init [mkTask "t1" 1 1 2 5 5 0] "RM") (Some 3)
    = Ok (s, (jobs, hist)) ∧
    run (Scheduler_init [mkTask "t1" 1 1 2 5 5 0] "RM") (Some 10)
    = Ok (s', (jobs', hist')) ∧
    hist `prefix_of` hist' ∧ jobs `prefix_of` jobs'.
Proof.
  apply (run_prefix [mkTask "t1" 1 1 2 5 5 0] "RM" 3 10).
  - apply Forall_cons. split; [cbn; lia|apply Forall_nil_2].
  - lia.
Defined.

(** ** The blocks of the Gantt chart *)

Lemma block_entries_snoc (cs t c : Z) :
  cs ≤ t →
  block_entries (cs, t + 1 - cs, c) = block_entries (cs, t - cs, c) ++ [(t, Some c)].
Proof.
  intros Hle. unfold block_entries. cbn [fst snd].
  replace (Z.to_nat (t + 1 - cs)) with (S (Z.to_nat (t - cs))) by lia.
  rewrite seq_S, fmap_app. cbn [fmap list_fmap Nat.add]. do 3 f_equal. lia.
Qed.

Lemma block_entries_empty (cs c : Z) : block_entries (cs, cs - cs, c) = [].
Proof. unfold block_entries. cbn [fst snd]. by rewrite Z.sub_diag. Qed.

Lemma block_entries_one (t c : Z) :
  block_entries (t, t + 1 - t, c) = [(t, Some c)].
Proof. by rewrite block_entries_snoc, block_entries_empty by lia. Qed.

(** The loop keeps the entries of the closed blocks and of the open one
    equal to the busy entries read so far, on a trace whose times are
    consecutive. *)
Lemma merge_loop_entries (rest : list (Z * option Z)) :
  ∀ (t cs : Z) (cid : option Z) (blocks : list (Z * Z * Z)),
    (∀ (i : nat) e, rest !! i = Some e → e.1 = t + Z.of_nat i) →
    cs ≤ t →
    ∃ blocks' cs' cid',
      merge_loop rest cs cid blocks = (blocks', cs', cid') ∧
      cs' ≤ t + Z.of_nat (length rest) ∧
      mjoin (block_entries <$> blocks')
        ++ from_option (λ c, block_entries (cs', t + Z.of_nat (length rest) - cs', c)) [] cid'
      = mjoin (block_entries <$> blocks)
        ++ from_option (λ c, block_entries (cs, t - cs, c)) [] cid
        ++ filter (λ e : Z * option Z, e.2 ≠ None) rest.
Proof.
  induction rest as [|[t' tid] rest IH]; intros t cs cid blocks Htimes Hle.
  - exists blocks, cs, cid. cbn [merge_loop length]. split; [done|].
    split; [lia|]. rewrite Z.add_0_r. by rewrite filter_nil, app_nil_r.
  - assert (t' = t) as ->.
    { specialize (Htimes 0%nat (t', tid) eq_refl). cbn in Htimes. lia. }
    assert (∀ (i : nat) e, rest !! i = Some e → e.1 = (t + 1) + Z.of_nat i) as Htimes'.
    { intros i e Hi. specialize (Htimes (S i) e Hi). lia. }
    cbn [merge_loop length].
    replace (t + Z.of_nat (S (length rest))) with (t + 1 + Z.of_nat (length rest))
      by lia.
    destruct (decide (tid ≠ cid)) as [Hne|Heq].
    + destruct (IH (t + 1) t tid
                  (match cid with
                   | Some c => blocks ++ [(cs, t - cs, c)]
                   | None => blocks
                   end) Htimes' ltac:(lia))
        as (blocks' & cs' & cid' & Hloop & Hcs' & Hent).
      exists blocks', cs', cid'. split; [done|]. split; [done|].
      rewrite Hent. rewrite filter_cons. cbn [snd].
      destruct cid as [c|], tid as [c'|]; cbn [from_option].
      * rewrite decide_True by done.
        rewrite fmap_app, join_app. cbn [fmap list_fmap mjoin list_join].
        rewrite app_nil_r, block_entries_one, <- !app_assoc. done.
      * rewrite decide_False by (by intros ?).
        rewrite fmap_app, join_app. cbn [fmap list_fmap mjoin list_join].
        rewrite app_nil_r, <- !app_assoc. done.
      * rewrite decide_True by done. by rewrite block_entries_one.
      * done.
    + apply dec_stable in Heq. subst tid.
      destruct (IH (t + 1) cs cid blocks Htimes' ltac:(lia))
        as (blocks' & cs' & cid' & Hloop & Hcs' & Hent).
      exists blocks', cs', cid'. split; [done|]. split; [done|].
      rewrite Hent. rewrite filter_cons. cbn [snd].
      destruct cid as [c|]; cbn [from_option].
      * rewrite decide_True by done.
        by rewrite block_entries_snoc, <- !app_assoc by lia.
      * by rewrite decide_False by (by intros ?).
Qed.

Lemma last_consecutive (hist : list (Z * option Z)) (t0 : Z) (first : Z * option Z) :
  hist ≠ [] →
  (∀ (i : nat) e, hist !! i = Some e → e.1 = t0 + Z.of_nat i) →
  (default first (last hist)).1 + 1 = t0 + Z.of_nat (length hist).
Proof.
  intros Hne Htimes. destruct (last hist) as [e|] eqn:Hlast.
  - rewrite last_lookup in Hlast. apply Htimes in Hlast. cbn.
    destruct hist; [done|]. cbn in *. lia.
  - apply last_None in Hlast. done.
Qed.

(** On a trace with consecutive times, the blocks stand for exactly the
    busy entries, in order. *)
Lemma merged_blocks_entries (hist : list (Z * option Z)) (t0 : Z) :
  (∀ (i : nat) e, hist !! i = Some e → e.1 = t0 + Z.of_nat i) →
  mjoin (block_entries <$> merged_blocks hist)
  = filter (λ e : Z * option Z, e.2 ≠ None) hist.
Proof.
  intros Htimes. destruct hist as [|first rest]; [done|].
  assert (first.1 = t0) as Hfirst.
  { specialize (Htimes 0%nat first eq_refl). lia. }
  destruct (merge_loop_entries (first :: rest) t0 first.1 first.2 [] Htimes ltac:(lia))
    as (blocks' & cs' & cid' & Hloop & Hcs' & Hent).
  unfold merged_blocks. rewrite Hloop.
  rewrite (last_consecutive (first :: rest) t0 first) by done.
  rewrite Hfirst, Z.sub_diag in Hent. cbn [fmap list_fmap mjoin list_join app] in Hent.
  assert (from_option (λ c, block_entries (t0, 0, c)) [] first.2 = []) as Hnil
    by (by destruct first.2).
  rewrite Hnil in Hent. cbn [app] in Hent. rewrite <- Hent.
  destruct cid' as [c|]; cbn [from_option].
  - rewrite fmap_app, join_app. cbn [fmap list_fmap mjoin list_join].
    by rewrite app_nil_r.
  - by rewrite app_nil_r.
Qed.

Lemma adjacent_snoc {A} (R : A → A → Prop) (l : list A) (b : A) :
  (∀ l1 b1 b2 l2, l = l1 ++ b1 :: b2 :: l2 → R b1 b2) →
  (∀ b1, last l = Some b1 → R b1 b) →
  ∀ l1 b1 b2 l2, l ++ [b] = l1 ++ b1 :: b2 :: l2 → R b1 b2.
Proof.
  intros Hadj Hlast l1 b1 b2 l2 Heq.
  destruct l2 as [|x l2 _] using rev_ind.
  - change (l1 ++ [b1; b2]) with (l1 ++ [b1] ++ [b2]) in Heq.
    rewrite app_assoc in Heq. apply app_inj_tail in Heq as [-> ->].
    apply Hlast. by rewrite last_snoc.
  - change (l1 ++ b1 :: b2 :: l2 ++ [x]) with (l1 ++ (b1 :: b2 :: l2) ++ [x]) in Heq.
    rewrite app_assoc in Heq. apply app_inj_tail in Heq as [-> _].
    by eapply Hadj.
Qed.

(** The loop keeps the closed blocks non-empty, in increasing order, and
    never splits a stretch of one task. *)
Lemma merge_loop_blocks (rest : list (Z * option Z)) :
  ∀ (t cs : Z) (cid : option Z) (blocks : list (Z * Z * Z)),
    (∀ (i : nat) e, rest !! i = Some e → e.1 = t + Z.of_nat i) →
    cs < t →
    (∀ b, b ∈ blocks → 0 < b.1.2) →
    (∀ l1 b1 b2 l2, blocks = l1 ++ b1 :: b2 :: l2 →
       b1.1.1 + b1.1.2 ≤ b2.1.1 ∧ (b1.1.1 + b1.1.2 = b2.1.1 → b1.2 ≠ b2.2)) →
    (∀ b, last blocks = Some b →
       b.1.1 + b.1.2 ≤ cs ∧ (b.1.1 + b.1.2 = cs → cid ≠ Some b.2)) →
    ∃ blocks' cs' cid',
      merge_loop rest cs cid blocks = (blocks', cs', cid') ∧
      cs' < t + Z.of_nat (length rest) ∧
      (∀ b, b ∈ blocks' → 0 < b.1.2) ∧
      (∀ l1 b1 b2 l2, blocks' = l1 ++ b1 :: b2 :: l2 →
         b1.1.1 + b1.1.2 ≤ b2.1.1 ∧ (b1.1.1 + b1.1.2 = b2.1.1 → b1.2 ≠ b2.2)) ∧
      (∀ b, last blocks' = Some b →
         b.1.1 + b.1.2 ≤ cs' ∧ (b.1.1 + b.1.2 = cs' → cid' ≠ Some b.2)).
Proof.
  induction rest as [|[t' tid] rest IH];
    intros t cs cid blocks Htimes Hlt Hpos Hadj Hlast.
  - exists blocks, cs, cid. cbn [merge_loop length]. split; [done|].
    split; [lia|done].
  - assert (t' = t) as ->.
    { specialize (Htimes 0%nat (t', tid) eq_refl). cbn in Htimes. lia. }
    assert (∀ (i : nat) e, rest !! i = Some e → e.1 = (t + 1) + Z.of_nat i) as Htimes'.
    { intros i e Hi. specialize (Htimes (S i) e Hi). lia. }
    cbn [merge_loop length].
    replace (t + Z.of_nat (S (length rest))) with (t + 1 + Z.of_nat (length rest))
      by lia.
    destruct (decide (tid ≠ cid)) as [Hne|Heq].
    + destruct cid as [c|].
      * apply (IH (t + 1) t tid _ Htimes' ltac:(lia)).
        -- intros b [Hb|Hb]%elem_of_app; [by apply Hpos|].
           apply list_elem_of_singleton in Hb as ->. cbn. lia.
        -- apply (adjacent_snoc
                    (λ b1 b2, b1.1.1 + b1.1.2 ≤ b2.1.1 ∧
                              (b1.1.1 + b1.1.2 = b2.1.1 → b1.2 ≠ b2.2)));
             [exact Hadj|].
           intros b1 Hb1. destruct (Hlast b1 Hb1) as [Hle Hdiff]. cbn.
           split; [done|]. intros Heq Hc. apply (Hdiff Heq). by rewrite Hc.
        -- intros b Hb. rewrite last_snoc in Hb. injection Hb as <-. cbn.
           split; [lia|]. intros _ ->. done.
      * apply (IH (t + 1) t tid blocks Htimes' ltac:(lia) Hpos Hadj).
        intros b Hb. destruct (Hlast b Hb) as [Hle _]. split; [lia|lia].
    + apply (IH (t + 1) cs cid blocks Htimes' ltac:(lia) Hpos Hadj Hlast).
Qed.

(** X14: the blocks that [plot_gantt] draws for the trace of a run stand
    for exactly the busy ticks of that trace: expanding every block into its
    ticks gives the non-idle trace entries, in order. *)
Theorem gantt_blocks_cover_busy_ticks (tasks0 : list Task) (alg : string) (d : Z) :
  Forall (λ task, period task ≠ 0) tasks0 →
  ∃ s jobs hist,
    run (Scheduler_init tasks0 alg) (Some d) = Ok (s, (jobs, hist)) ∧
    mjoin (block_entries <$> merged_blocks hist)
    = filter (λ e : Z * option Z, e.2 ≠ None) hist.
Proof.
  intros Hper. set (s0 := Scheduler_init tasks0 alg).
  assert (Forall (λ task, period task ≠ 0) (tasks s0)) as Hper'
    by (by apply (init_tasks_period tasks0 alg (λ p, p ≠ 0))).
  pose proof (sched_inv_init tasks0 alg) as Hinit. fold s0 in Hinit.
  destruct (run_ticks_history (Z.to_nat d) s0 Hper' Hinit)
    as (st & Hrun & Hlen & Hent).
  exists st.1, (deref st.1 <$> completed_jobs st.1), (history st.1).
  unfold run. rewrite Hrun. split; [done|].
  apply (merged_blocks_entries _ 0). intros i e Hi.
  destruct (Hent i) as (sti & st2 & _ & _ & Hlook & _).
  { apply lookup_lt_Some in Hi. rewrite Hlen in Hi. cbn in Hi. lia. }
  cbn in Hlook. rewrite Hi in Hlook. injection Hlook as ->. cbn. lia.
Qed.

Lemma gantt_blocks_cover_busy_ticks_witness :
  ∃ s jobs hist,
    run (Scheduler_init [mkTask "t1" 1 1 2 5 5 0] "RM") (Some 10)
    = Ok (s, (jobs, hist)) ∧
    mjoin (block_entries <$> merged_blocks hist)
    = filter (λ e : Z * option Z, e.2 ≠ None) hist.
Proof.
  apply (gantt_blocks_cover_busy_ticks [mkTask "t1" 1 1 2 5 5 0] "RM" 10).
  apply Forall_cons. split; [cbn; lia|apply Forall_nil_2].
Defined.

(** X15: on a trace whose times are consecutive, every block that
    [plot_gantt] draws has a positive length and lies within the trace, the
    blocks come in increasing order without overlap, and two blocks that
    touch belong to different tasks. *)
Theorem gantt_blocks_well_formed (hist : list (Z * option Z)) (t0 : Z) :
  (∀ (i : nat) e, hist !! i = Some e → e.1 = t0 + Z.of_nat i) →
  (∀ b, b ∈ merged_blocks hist →
     0 < b.1.2 ∧ t0 ≤ b.1.1 ∧ b.1.1 + b.1.2 ≤ t0 + Z.of_nat (length hist)) ∧
  (∀ l1 b1 b2 l2, merged_blocks hist = l1 ++ b1 :: b2 :: l2 →
     b1.1.1 + b1.1.2 ≤ b2.1.1 ∧ (b1.1.1 + b1.1.2 = b2.1.1 → b1.2 ≠ b2.2)).
Proof.
  intros Htimes.
  assert ((∀ b, b ∈ merged_blocks hist → 0 < b.1.2) ∧
          (∀ l1 b1 b2 l2, merged_blocks hist = l1 ++ b1 :: b2 :: l2 →
             b1.1.1 + b1.1.2 ≤ b2.1.1 ∧ (b1.1.1 + b1.1.2 = b2.1.1 → b1.2 ≠ b2.2)))
    as [Hpos Hadj].
  { destruct hist as [|first rest].
    { split; [intros b Hb; by apply elem_of_nil in Hb|].
      intros l1 b1 b2 l2 Heq. by destruct l1. }
    assert (first.1 = t0) as Hfirst.
    { specialize (Htimes 0%nat first eq_refl). lia. }
    assert (merge_loop (first :: rest) first.1 first.2 []
            = merge_loop rest first.1 first.2 []) as Hstep.
    { destruct first as [tf idf]. cbn [merge_loop fst snd].
      by rewrite decide_False by (by intros ?). }
    destruct (merge_loop_blocks rest (t0 + 1) first.1 first.2 [])
      as (blocks' & cs' & cid' & Hloop & Hcs' & Hpos' & Hadj' & Hlast').
    { intros i e Hi. specialize (Htimes (S i) e Hi). lia. }
    { lia. }
    { intros b Hb. by apply elem_of_nil in Hb. }
    { intros l1 b1 b2 l2 Heq. by destruct l1. }
    { intros b Hb. done. }
    unfold merged_blocks. rewrite Hstep, Hloop.
    rewrite (last_consecutive (first :: rest) t0 first) by done.
    cbn [length]. destruct cid' as [c|]; [|done]. split.
    - intros b [Hb|Hb]%elem_of_app; [by apply Hpos'|].
      apply list_elem_of_singleton in Hb as ->. cbn. lia.
    - apply (adjacent_snoc
               (λ b1 b2, b1.1.1 + b1.1.2 ≤ b2.1.1 ∧
                         (b1.1.1 + b1.1.2 = b2.1.1 → b1.2 ≠ b2.2)));
        [exact Hadj'|].
      intros b1 Hb1. destruct (Hlast' b1 Hb1) as [Hle Hdiff]. cbn.
      split; [done|]. intros Heq Hc. apply (Hdiff Heq). by rewrite Hc. }
  split; [|exact Hadj].
  intros b Hb. specialize (Hpos b Hb). split; [done|].
  assert (∀ k : nat, (k < Z.to_nat b.1.2)%nat →
            t0 ≤ b.1.1 + Z.of_nat k < t0 + Z.of_nat (length hist)) as Hin.
  { intros k Hk.
    assert ((b.1.1 + Z.of_nat k, Some b.2) ∈ hist) as Hmem.
    { eapply (list_elem_of_filter (λ e : Z * option Z, e.2 ≠ None)).
      rewrite <- (merged_blocks_entries hist t0 Htimes).
      apply list_elem_of_join. exists (block_entries b). split.
      - unfold block_entries. apply list_elem_of_fmap.
        exists k. split; [done|]. apply elem_of_seq. lia.
      - by apply list_elem_of_fmap_2. }
    apply list_elem_of_lookup in Hmem as (i & Hi).
    pose proof (lookup_lt_Some _ _ _ Hi) as Hlt.
    apply Htimes in Hi. cbn in Hi. lia. }
  pose proof (Hin 0%nat ltac:(lia)).
  pose proof (Hin (Z.to_nat b.1.2 - 1)%nat ltac:(lia)). lia.
Qed.

Lemma gantt_blocks_well_formed_witness :
  merged_blocks [(0, Some 1); (1, Some 1); (2, None); (3, Some 2); (4, Some 1)]
  = [(0, 2, 1); (3, 1, 2); (4, 1, 1)] ∧
  ∀ b, b ∈ merged_blocks [(0, Some 1); (1, Some 1); (2, None); (3, Some 2); (4, Some 1)] →
       0 < b.1.2 ∧ 0 ≤ b.1.1 ∧ b.1.1 + b.1.2 ≤ 0 + Z.of_nat 5.
Proof.
  split; [reflexivity|].
  apply (gantt_blocks_well_formed
           [(0, Some 1); (1, Some 1); (2, None); (3, Some 2); (4, Some 1)] 0).
  intros i e Hi.
  do 5 (destruct i as [|i]; [injection Hi as <-; reflexivity|]). done.
Defined.

(** ** The life of a job *)

Lemma executed_job_created (t : Z) (j : Job) :
  task_id (executed_job t j) = task_id j ∧
  job_id (executed_job t j) = job_id j ∧
  arrival_time (executed_job t j) = arrival_time j ∧
  absolute_deadline (executed_job t j) = absolute_deadline j.
Proof.
  unfold executed_job. destruct (decide (start_time j = -1)); cbn;
    repeat case_decide; cbn; done.
Qed.

Lemma executed_job_of (t : Z) (task : Task) (j : Job) :
  job_of task j → job_of task (executed_job t j).
Proof.
  unfold job_of. by destruct (executed_job_created t j) as (-> & -> & -> & ->).
Qed.

Lemma executed_job_phase (t C : Z) (j : Job) :
  finish_time j = -1 → 0 ≤ arrival_time j ≤ t →
  job_phase t C j → job_phase (t + 1) C (executed_job t j).
Proof.
  intros Hfin Harr Hph. unfold job_phase, executed_job in *.
  destruct j as [tid jid arr dl rem st fin]. cbn in *.
  destruct (decide (st = -1)); cbn; repeat case_decide; cbn in *; lia.
Qed.

Lemma job_phase_mono (n C : Z) (j : Job) :
  job_phase n C j → job_phase (n + 1) C j.
Proof. unfold job_phase. lia. Qed.

(** After any number of ticks every job object created so far is a job of
    one of the tasks, in one of the three phases. *)
Lemma run_job_life (s0 : Scheduler) :
  Forall (λ task, period task ≠ 0) (tasks s0) →
  sched_inv 0 (s0, None) →
  ∀ n : nat, ∃ st, run_ticks n s0 = Ok st ∧
    sched_inv (Z.of_nat n) st ∧
    ∀ a, (a < length (heap st.1))%nat →
      ∃ task, task ∈ tasks s0 ∧ job_of task (deref st.1 a) ∧
        arrival_time (deref st.1 a) < Z.of_nat n ∧
        job_phase (Z.of_nat n) (wcet task) (deref st.1 a).
Proof.
  intros Hper Hinit n.
  destruct (run_ticks_inv n s0 Hper Hinit) as (st & Hrun & Hinv & _).
  destruct (run_ticks_invariant s0
    (λ n st, ∀ a, (a < length (heap st.1))%nat →
       ∃ task, task ∈ tasks s0 ∧ job_of task (deref st.1 a) ∧
         arrival_time (deref st.1 a) < Z.of_nat n ∧
         job_phase (Z.of_nat n) (wcet task) (deref st.1 a)) Hper Hinit)
    with (n := n) as (st' & Hrun' & HP).
  - intros a Ha. destruct Hinit as [_ _ _ Htask _ _ _].
    destruct (Htask a Ha) as (task & _ & _ & _ & ? & _). lia.
  - clear n st Hrun Hinv.
    intros n st oc Hrun Hinv Htk Hal IH Hinv1 Hch Hoc Hrun' a Ha.
    set (s1 := released (Z.of_nat n) (tasks s0) (set_time (Z.of_nat n) st.1)) in *.
    rewrite length_heap_tick_effect in Ha.
    assert (∃ task, task ∈ tasks s0 ∧ job_of task (deref s1 a) ∧
              arrival_time (deref s1 a) ≤ Z.of_nat n ∧
              job_phase (Z.of_nat n) (wcet task) (deref s1 a))
      as (task & Hin & Hof & Harr & Hph).
    { destruct (decide (a < length (heap st.1))%nat) as [Hold|Hnew].
      - destruct (IH a Hold) as (task & Hin & Hof & Harr & Hph).
        exists task. unfold s1. rewrite deref_released by done.
        change (deref (set_time (Z.of_nat n) st.1) a) with (deref st.1 a).
        split; [done|]. split; [done|]. split; [lia|done].
      - unfold s1 in Ha |- *. rewrite length_heap_released in Ha.
        rewrite deref_released_new by (cbn; lia). cbn [heap set_time] in *.
        destruct (released_jobs_lookup (Z.of_nat n) (tasks s0)
                    (a - length (heap st.1))) as (task & Hin & Hmod & ->); [lia|].
        exists task. split; [done|]. unfold job_of, job_phase, new_Job. cbn.
        split; [repeat split; try done; lia|]. split; [lia|]. by left. }
    exists task. split; [done|].
    replace (Z.of_nat (S n)) with (Z.of_nat n + 1) by lia.
    destruct (decide (oc = Some a)) as [->|Hne].
    + rewrite deref_tick_effect_self by done.
      split; [by apply executed_job_of|].
      destruct (executed_job_created (Z.of_nat n) (deref s1 a)) as (_ & _ & -> & _).
      split; [lia|]. apply executed_job_phase; [|destruct Hof as (_&_&_&_&?); lia|done].
      apply (inv_ready_unfinished _ _ Hinv1). by apply Hoc.
    + rewrite deref_tick_effect_other by done.
      split; [done|]. split; [lia|]. by apply job_phase_mono.
  - rewrite Hrun in Hrun'. injection Hrun' as <-. by exists st.
Qed.

(** X16: every completed job that a run returns was released by one of the
    tasks at a multiple of its period, carries the job id and the absolute
    deadline computed at the release, has no execution time left, started
    no earlier than it arrived and finished within the run, and its finish
    time is at least the task's execution time after its start. *)
Theorem completed_job_timing (tasks0 : list Task) (alg : string) (d : Z) :
  Forall (λ task, period task ≠ 0) tasks0 →
  ∃ s jobs hist,
    run (Scheduler_init tasks0 alg) (Some d) = Ok (s, (jobs, hist)) ∧
    ∀ j, j ∈ jobs →
      ∃ task, task ∈ tasks0 ∧ task_id j = id task ∧
        arrival_time j `mod` period task = 0 ∧
        job_id j = arrival_time j `div` period task ∧
        absolute_deadline j = arrival_time j + deadline task ∧
        remaining_time j = 0 ∧
        0 ≤ arrival_time j ≤ start_time j ∧
        start_time j < finish_time j ≤ d ∧
        wcet task ≤ finish_time j - start_time j.
Proof.
  intros Hper. set (s0 := Scheduler_init tasks0 alg).
  assert (Forall (λ task, period task ≠ 0) (tasks s0)) as Hper'
    by (by apply (init_tasks_period tasks0 alg (λ p, p ≠ 0))).
  pose proof (sched_inv_init tasks0 alg) as Hinit. fold s0 in Hinit.
  destruct (run_job_life s0 Hper' Hinit (Z.to_nat d)) as (st & Hrun & Hinv & Hlife).
  exists st.1, (deref st.1 <$> completed_jobs st.1), (history st.1).
  unfold run. rewrite Hrun. split; [done|].
  intros j (a & -> & Ha)%list_elem_of_fmap.
  destruct (inv_completed _ _ Hinv a Ha) as (Hlt & _ & Hfin).
  destruct (Hlife a Hlt) as (task & Hin & Hof & Harr & Hph).
  destruct Hof as (Hid & Hmod & Hjid & Hdl & Hpos).
  assert ((id task, period task, deadline task, wcet task)
          ∈ (λ t, (id t, period t, deadline t, wcet t)) <$> tasks0) as Hin0.
  { rewrite <- (init_tasks_fmap (λ t, (id t, period t, deadline t, wcet t))
                  tasks0 alg) by done.
    by apply (list_elem_of_fmap_2 (λ t, (id t, period t, deadline t, wcet t))). }
  apply list_elem_of_fmap in Hin0 as (task0 & Heq & Hin0).
  injection Heq as Hid0 Hp0 Hd0 Hw0.
  exists task0. rewrite <- Hid0, <- Hp0, <- Hd0, <- Hw0.
  split; [done|]. split; [done|]. split; [done|]. split; [done|]. split; [done|].
  unfold job_phase in Hph. lia.
Qed.

Lemma completed_job_timing_witness :
  ∃ s jobs hist,
    run (Scheduler_init [mkTask "t1" 1 1 2 5 5 0] "EDF") (Some 10)
    = Ok (s, (jobs, hist)) ∧
    ∀ j, j ∈ jobs →
      ∃ task, task ∈ [mkTask "t1" 1 1 2 5 5 0] ∧ task_id j = id task ∧
        arrival_time j `mod` period task = 0 ∧
        job_id j = arrival_time j `div` period task ∧
        absolute_deadline j = arrival_time j + deadline task ∧
        remaining_time j = 0 ∧
        0 ≤ arrival_time j ≤ start_time j ∧
        start_time j < finish_time j ≤ 10 ∧
        wcet task ≤ finish_time j - start_time j.
Proof.
  apply (completed_job_timing [mkTask "t1" 1 1 2 5 5 0] "EDF" 10).
  apply Forall_cons. split; [cbn; lia|apply Forall_nil_2].
Defined.

(** ** Job identities *)

Lemma released_jobs_task_ids (t : Z) (ts : list Task) :
  task_id <$> released_jobs t ts
  = id <$> filter (λ task, t `mod` period task = 0) ts.
Proof. unfold released_jobs. by rewrite <- list_fmap_compose. Qed.

Lemma NoDup_released_task_ids (t : Z) (ts : list Task) :
  NoDup (id <$> ts) → NoDup (task_id <$> released_jobs t ts).
Proof.
  intros Hnd. rewrite released_jobs_task_ids.
  eapply sublist_NoDup; [exact Hnd|]. apply fmap_sublist, sublist_filter.
Qed.

(** With distinct task ids, no two job objects share task and arrival
    time, and no job is listed twice as completed. *)
Lemma run_jobs_distinct (s0 : Scheduler) :
  NoDup (id <$> tasks s0) →
  Forall (λ task, period task ≠ 0) (tasks s0) →
  sched_inv 0 (s0, None) →
  completed_jobs s0 = [] →
  ∀ n : nat, ∃ st, run_ticks n s0 = Ok st ∧
    NoDup (completed_jobs st.1) ∧
    ∀ a b, (a < length (heap st.1))%nat → (b < length (heap st.1))%nat →
      task_id (deref st.1 a) = task_id (deref st.1 b) →
      arrival_time (deref st.1 a) = arrival_time (deref st.1 b) → a = b.
Proof.
  intros Hnd Hper Hinit Hc0.
  apply (run_ticks_invariant s0
    (λ n st, NoDup (completed_jobs st.1) ∧
       ∀ a b, (a < length (heap st.1))%nat → (b < length (heap st.1))%nat →
         task_id (deref st.1 a) = task_id (deref st.1 b) →
         arrival_time (deref st.1 a) = arrival_time (deref st.1 b) → a = b)
    Hper Hinit).
  - cbn [fst]. rewrite Hc0. split; [apply NoDup_nil_2|].
    intros a b Ha _. destruct Hinit as [_ _ _ Htask _ _ _].
    destruct (Htask a Ha) as (task & _ & _ & _ & ? & _). lia.
  - intros n st oc Hrun Hinv Htk Hal [IHc IHj] Hinv1 Hch Hoc Hrun'.
    set (s1 := released (Z.of_nat n) (tasks s0) (set_time (Z.of_nat n) st.1)) in *.
    split.
    + destruct oc as [c|]; [|exact IHc].
      destruct (tick_effect_Some (Z.of_nat n) c s1) as (_ & _ & ->).
      case_decide; [|exact IHc].
      apply NoDup_app. split; [exact IHc|]. split; [|apply NoDup_singleton].
      intros a Ha Hac. apply list_elem_of_singleton in Hac as ->.
      destruct (inv_completed _ _ Hinv1 c Ha) as (_ & Hnr & _).
      apply Hnr. by apply Hoc.
    + intros a b Ha Hb. rewrite length_heap_tick_effect in Ha, Hb.
      destruct (identity_tick_effect (Z.of_nat n) oc s1 a) as [-> ->].
      destruct (identity_tick_effect (Z.of_nat n) oc s1 b) as [-> ->].
      assert (∀ x, (x < length (heap st.1))%nat →
                deref s1 x = deref st.1 x ∧
                arrival_time (deref st.1 x) < Z.of_nat n) as Hold.
      { intros x Hx. split; [unfold s1; by rewrite deref_released|].
        destruct (inv_job_task _ _ Hinv x Hx) as (task & _ & _ & _ & ? & _). lia. }
      assert (∀ x, (length (heap st.1) ≤ x < length (heap s1))%nat →
                arrival_time (deref s1 x) = Z.of_nat n ∧
                (task_id <$> released_jobs (Z.of_nat n) (tasks s0))
                  !! (x - length (heap st.1))%nat = Some (task_id (deref s1 x)))
        as Hnew.
      { intros x Hx. unfold s1 in Hx |- *. rewrite length_heap_released in Hx.
        rewrite deref_released_new by (cbn; lia). cbn [heap set_time] in *.
        destruct (released_jobs_lookup (Z.of_nat n) (tasks s0)
                    (x - length (heap st.1))) as (task & _ & _ & Heq); [lia|].
        split; [by rewrite Heq|].
        rewrite list_lookup_fmap, list_lookup_lookup_total_lt by lia. done. }
      intros Htid Harr.
      destruct (decide (a < length (heap st.1))%nat) as [Ha'|Ha'],
               (decide (b < length (heap st.1))%nat) as [Hb'|Hb'].
      * destruct (Hold a Ha') as [Ea _], (Hold b Hb') as [Eb _].
        rewrite Ea, Eb in Htid, Harr. by apply IHj.
      * destruct (Hold a Ha') as [Ea ?], (Hnew b ltac:(lia)) as [? _].
        rewrite Ea in Harr. lia.
      * destruct (Hold b Hb') as [Eb ?], (Hnew a ltac:(lia)) as [? _].
        rewrite Eb in Harr. lia.
      * destruct (Hnew a ltac:(lia)) as [_ La], (Hnew b ltac:(lia)) as [_ Lb].
        rewrite <- Htid in Lb.
        pose proof (NoDup_lookup _ _ _ _
                      (NoDup_released_task_ids (Z.of_nat n) (tasks s0) Hnd) La Lb).
        lia.
Qed.

(** X17: for tasks with distinct ids and no zero period, the completed jobs
    that a run returns are pairwise distinct in (task id, job id): job ids
    are unique per task, and no job is reported twice. *)
Theorem completed_job_ids_unique (tasks0 : list Task) (alg : string)
  (duration : option Z) :
  NoDup (id <$> tasks0) →
  Forall (λ task, period task ≠ 0) tasks0 →
  ∃ s jobs hist,
    run (Scheduler_init tasks0 alg) duration = Ok (s, (jobs, hist)) ∧
    NoDup ((λ j, (task_id j, job_id j)) <$> jobs).
Proof.
  intros Hnd Hper. set (s0 := Scheduler_init tasks0 alg).
  assert (Forall (λ task, period task ≠ 0) (tasks s0)) as Hper'
    by (by apply (init_tasks_period tasks0 alg (λ p, p ≠ 0))).
  assert (NoDup (id <$> tasks s0)) as Hnd'
    by (unfold s0; by rewrite (init_tasks_fmap id tasks0 alg)).
  pose proof (sched_inv_init tasks0 alg) as Hinit. fold s0 in Hinit.
  set (n := Z.to_nat (match duration with Some d => d | None => hyperperiod s0 end)).
  destruct (run_jobs_distinct s0 Hnd' Hper' Hinit eq_refl n)
    as (st & Hrun & Hcnd & Hinj).
  destruct (run_job_life s0 Hper' Hinit n) as (st' & Hrun' & Hinv & Hlife).
  rewrite Hrun in Hrun'. injection Hrun' as <-.
  exists st.1, (deref st.1 <$> completed_jobs st.1), (history st.1).
  split; [unfold run; fold s0 n; by rewrite Hrun|].
  rewrite <- list_fmap_compose. apply NoDup_fmap_2_strong; [|exact Hcnd].
  intros a b Ha Hb Heq. cbn in Heq. injection Heq as Htid Hjid.
  destruct (inv_completed _ _ Hinv a Ha) as (Hla & _ & _).
  destruct (inv_completed _ _ Hinv b Hb) as (Hlb & _ & _).
  apply Hinj; try done.
  destruct (Hlife a Hla) as (ta & Hta & (Ha1 & Ha2 & Ha3 & _) & _).
  destruct (Hlife b Hlb) as (tb & Htb & (Hb1 & Hb2 & Hb3 & _) & _).
  assert (ta = tb) as ->.
  { apply (elem_of_NoDup_id (tasks s0)); try done. congruence. }
  pose proof (Z.div_mod (arrival_time (deref st.1 a)) (period tb)
                ltac:(by eapply Forall_forall in Hper')).
  pose proof (Z.div_mod (arrival_time (deref st.1 b)) (period tb)
                ltac:(by eapply Forall_forall in Hper')).
  rewrite <- Ha3, Ha2 in *. rewrite <- Hb3, Hb2 in *. rewrite Hjid in *. lia.
Qed.

Lemma completed_job_ids_unique_witness :
  ∃ s jobs hist,
    run (Scheduler_init [mkTask "t1" 1 1 2 5 5 0] "RM") (Some 10)
    = Ok (s, (jobs, hist)) ∧
    NoDup ((λ j, (task_id j, job_id j)) <$> jobs).
Proof.
  apply (completed_job_ids_unique [mkTask "t1" 1 1 2 5 5 0] "RM" (Some 10)).
  - cbn. apply NoDup_singleton.
  - apply Forall_cons. split; [cbn; lia|apply Forall_nil_2].
Defined.

(** ** The release pattern *)

Lemma released_jobs_other (t : Z) (ts : list Task) (tid : Z) :
  tid ∉ id <$> ts → filter (λ j, task_id j = tid) (released_jobs t ts) = [].
Proof.
  intros Hnotin. apply filter_none. intros j Hj Hid. apply Hnotin.
  apply (list_elem_of_fmap_2 task_id) in Hj. rewrite released_jobs_task_ids in Hj.
  rewrite Hid in Hj. apply list_elem_of_fmap in Hj as (task & -> & Hin).
  apply list_elem_of_filter in Hin as [_ Hin]. by apply list_elem_of_fmap_2.
Qed.

(** At a tick, a task with an id of its own releases one job if its period
    divides the tick, and none otherwise. *)
Lemma released_jobs_of_task (t : Z) (ts : list Task) (task : Task) :
  NoDup (id <$> ts) → task ∈ ts →
  filter (λ j, task_id j = id task) (released_jobs t ts)
  = if decide (t `mod` period task = 0)
    then [new_Job (id task) (t `div` period task) t (t + deadline task) (wcet task)]
    else [].
Proof.
  induction ts as [|x ts IH]; intros Hnd Hin; [by apply elem_of_nil in Hin|].
  rewrite fmap_cons in Hnd. apply NoDup_cons in Hnd as [Hx Hnd].
  rewrite released_jobs_cons.
  destruct (decide (x = task)) as [->|Hne].
  - case_decide; [|by apply released_jobs_other].
    rewrite filter_cons, decide_True by done.
    by rewrite released_jobs_other.
  - apply elem_of_cons in Hin as [->|Hin]; [done|].
    assert (id x ≠ id task) as Hid.
    { intros Heq. apply Hx. rewrite Heq. by apply list_elem_of_fmap_2. }
    destruct (decide (t `mod` period x = 0)); [|by apply IH].
    rewrite filter_cons, decide_False by done. by apply IH.
Qed.

Lemma ceil_div_pred (n T : Z) : 0 < T → ceil_div n T = (n - 1) `div` T + 1.
Proof.
  intros HT. unfold ceil_div.
  pose proof (Z.div_mod (- n) T ltac:(lia)).
  pose proof (Z.mod_pos_bound (- n) T HT).
  assert ((n - 1) `div` T = - ((- n) `div` T) - 1) as ->; [|lia].
  symmetry. apply (Z.div_unique_pos _ _ _ (T - 1 - (- n) `mod` T)); lia.
Qed.

Lemma ceil_div_succ (n T : Z) :
  0 < T →
  ceil_div (n + 1) T
  = ceil_div n T + (if decide (n `mod` T = 0) then 1 else 0).
Proof.
  intros HT. rewrite !ceil_div_pred by done.
  pose proof (div_pred_step n T HT). replace (n + 1 - 1) with n by lia. lia.
Qed.

Lemma ceil_div_exact (n T : Z) :
  0 < T → n `mod` T = 0 → ceil_div n T = n `div` T.
Proof.
  intros HT Hm. rewrite ceil_div_pred by done.
  pose proof (div_pred_step n T HT) as Hs. rewrite decide_True in Hs by done. lia.
Qed.

Lemma fmap_filter_insert {A B} (P : A → Prop) `{!∀ x, Decision (P x)}
  (q : A → B) (l : list A) (i : nat) (x y : A) :
  l !! i = Some x → (P x ↔ P y) → q x = q y →
  q <$> filter P (<[i := y]> l) = q <$> filter P l.
Proof.
  revert i. induction l as [|z l IH]; intros i Hi HP Hq; [done|].
  destruct i as [|i]; cbn in Hi.
  - injection Hi as ->. change (<[0%nat:=y]> (x :: l)) with (y :: l).
    rewrite !filter_cons.
    destruct (decide (P y)), (decide (P x)); try tauto.
    by rewrite !fmap_cons, Hq.
  - change (<[S i:=y]> (z :: l)) with (z :: <[i:=y]> l).
    rewrite !filter_cons. case_decide; [rewrite !fmap_cons|]; by rewrite (IH i).
Qed.

(** The jobs of one task among the job objects created in [n] ticks: one
    for every multiple of the period below [n], numbered from zero. *)
Lemma run_release_pattern (s0 : Scheduler) (task : Task) :
  NoDup (id <$> tasks s0) →
  Forall (λ task, 0 < period task) (tasks s0) →
  sched_inv 0 (s0, None) → heap s0 = [] →
  task ∈ tasks s0 →
  ∀ n : nat, ∃ st, run_ticks n s0 = Ok st ∧
    (λ j, (job_id j, arrival_time j, absolute_deadline j))
      <$> filter (λ j, task_id j = id task) (heap st.1)
    = (λ k : nat, (Z.of_nat k, Z.of_nat k * period task,
                   Z.of_nat k * period task + deadline task))
        <$> seq 0 (Z.to_nat (ceil_div (Z.of_nat n) (period task))).
Proof.
  intros Hnd Hpos Hinit Hheap Hin.
  assert (Forall (λ task, period task ≠ 0) (tasks s0)) as Hper.
  { eapply Forall_impl; [exact Hpos|]. intros t Ht. cbn in Ht. lia. }
  assert (0 < period task) as HT by (by eapply Forall_forall in Hpos).
  apply (run_ticks_invariant s0
    (λ n st,
       (λ j, (job_id j, arrival_time j, absolute_deadline j))
         <$> filter (λ j, task_id j = id task) (heap st.1)
       = (λ k : nat, (Z.of_nat k, Z.of_nat k * period task,
                      Z.of_nat k * period task + deadline task))
           <$> seq 0 (Z.to_nat (ceil_div (Z.of_nat n) (period task))))
    Hper Hinit).
  - cbn [fst]. rewrite Hheap. unfold ceil_div. cbn. by rewrite Z.div_0_l by lia.
  - intros n st oc Hrun Hinv Htk Hal IH Hinv1 Hch Hoc Hrun'.
    set (s1 := released (Z.of_nat n) (tasks s0) (set_time (Z.of_nat n) st.1)) in *.
    trans ((λ j, (job_id j, arrival_time j, absolute_deadline j))
             <$> filter (λ j, task_id j = id task) (heap s1)).
    { destruct oc as [c|]; [|done].
      destruct (tick_effect_Some (Z.of_nat n) c s1) as (-> & _ & _).
      pose proof (inv_ready_valid _ _ Hinv1 c (Hoc c eq_refl)) as Hc.
      cbn [fst] in Hc. apply lookup_lt_is_Some_2 in Hc as [j Hj].
      assert (deref s1 c = j) as ->
        by (unfold deref; by rewrite (list_lookup_total_correct _ _ _ Hj)).
      destruct (executed_job_created (Z.of_nat n) j) as (E1 & E2 & E3 & E4).
      apply (fmap_filter_insert _ _ _ c j); [done| |].
      - by rewrite E1.
      - by rewrite E2, E3, E4. }
    unfold s1, released. cbn [heap set_heap set_ready_queue set_time].
    rewrite filter_app, fmap_app, IH, released_jobs_of_task by done.
    replace (Z.of_nat (S n)) with (Z.of_nat n + 1) by lia.
    rewrite ceil_div_succ by done.
    assert (0 ≤ ceil_div (Z.of_nat n) (period task)) as Hnn
      by (apply ceil_div_nonneg; lia).
    case_decide as Hm.
    + rewrite Z2Nat.inj_add by lia. change (Z.to_nat 1) with 1%nat.
      rewrite Nat.add_1_r, seq_S, fmap_app. f_equal.
      cbn [fmap list_fmap new_Job job_id arrival_time absolute_deadline Nat.add].
      rewrite Z2Nat.id by done. rewrite (ceil_div_exact _ _ HT Hm).
      pose proof (Z.div_mod (Z.of_nat n) (period task) ltac:(lia)) as Hdm.
      rewrite Hm in Hdm.
      replace (Z.of_nat n `div` period task * period task) with (Z.of_nat n) by lia.
      done.
    + by rewrite Z.add_0_r, app_nil_r.
Qed.

(** X18: for tasks with distinct ids and positive periods, a run of [d]
    ticks creates, for each task, one job at every multiple of the period
    below [d]: the job objects of the task are, in order of creation, the
    jobs numbered 0, 1, ... up to the ceiling of [d / period], the job
    numbered [k] arriving at [k * period] with absolute deadline
    [k * period + deadline]. *)
Theorem release_pattern (tasks0 : list Task) (alg : string) (d : Z) (task : Task) :
  NoDup (id <$> tasks0) →
  Forall (λ task, 0 < period task) tasks0 →
  task ∈ tasks0 → 0 ≤ d →
  ∃ s jobs hist,
    run (Scheduler_init tasks0 alg) (Some d) = Ok (s, (jobs, hist)) ∧
    (λ j, (job_id j, arrival_time j, absolute_deadline j))
      <$> filter (λ j, task_id j = id task) (heap s)
    = (λ k : nat, (Z.of_nat k, Z.of_nat k * period task,
                   Z.of_nat k * period task + deadline task))
        <$> seq 0 (Z.to_nat (ceil_div d (period task))).
Proof.
  intros Hnd Hpos Hin Hd. set (s0 := Scheduler_init tasks0 alg).
  assert (Forall (λ task, 0 < period task) (tasks s0)) as Hpos'
    by (by apply (init_tasks_period tasks0 alg (λ p, 0 < p))).
  assert (NoDup (id <$> tasks s0)) as Hnd'
    by (unfold s0; by rewrite (init_tasks_fmap id tasks0 alg)).
  pose proof (sched_inv_init tasks0 alg) as Hinit. fold s0 in Hinit.
  assert ((id task, period task, deadline task)
          ∈ (λ t, (id t, period t, deadline t)) <$> tasks s0) as Hin'.
  { unfold s0. rewrite (init_tasks_fmap (λ t, (id t, period t, deadline t))
                          tasks0 alg) by done.
    by apply (list_elem_of_fmap_2 (λ t, (id t, period t, deadline t))). }
  apply list_elem_of_fmap in Hin' as (task' & Heq & Hin').
  injection Heq as Hid Hp Hdl.
  destruct (run_release_pattern s0 task' Hnd' Hpos' Hinit eq_refl Hin' (Z.to_nat d))
    as (st & Hrun & Hpat).
  exists st.1, (deref st.1 <$> completed_jobs st.1), (history st.1).
  unfold run. fold s0. rewrite Hrun. split; [done|].
  rewrite Hid, Hp, Hdl. rewrite Z2Nat.id in Hpat by done. exact Hpat.
Qed.

Lemma release_pattern_witness :
  ∃ s jobs hist,
    run (Scheduler_init [mkTask "t1" 1 1 1 2 2 0; mkTask "t2" 2 1 2 5 4 1] "RM")
        (Some 12) = Ok (s, (jobs, hist)) ∧
    (λ j, (job_id j, arrival_time j, absolute_deadline j))
      <$> filter (λ j, task_id j = 2) (heap s)
    = [(0, 0, 4); (1, 5, 9); (2, 10, 14)].
Proof.
  apply (release_pattern [mkTask "t1" 1 1 1 2 2 0; mkTask "t2" 2 1 2 5 4 1]
           "RM" 12 (mkTask "t2" 2 1 2 5 4 1)).
  - cbn. apply NoDup_cons. split; [|apply NoDup_singleton].
    intros Hin. apply list_elem_of_singleton in Hin. discriminate.
  - apply Forall_cons. split; [cbn; lia|].
    apply Forall_cons. split; [cbn; lia|apply Forall_nil_2].
  - apply list_elem_of_further, list_elem_of_here.
  - lia.
Defined.

(** ** Conservation of work *)

Lemma Zsum_perm (l l' : list Z) : l ≡ₚ l' → Zsum l = Zsum l'.
Proof.
  induction 1 as [|x l l' _ IH|x y l|l l' l'' _ IH1 _ IH2];
    rewrite ?Zsum_cons; try done; lia.
Qed.

(** From tick 0 on, a task of positive period [T] has released its
    execution time [ceil(len / T)] times after [len] ticks. *)
Lemma release_sum_from_zero (ts : list Task) (len : nat) :
  Forall (λ task, 0 < period task) ts →
  release_sum ts 0 len
  = Zsum ((λ task, ceil_div (Z.of_nat len) (period task) * wcet task) <$> ts).
Proof.
  intros Hpos. induction len as [|l IH].
  - cbn [release_sum]. symmetry.
    induction Hpos as [|t ts Ht _ IHts]; [done|].
    rewrite fmap_cons, Zsum_cons, IHts. change (Z.of_nat 0) with 0.
    unfold ceil_div. rewrite Z.opp_0, Z.div_0_l by lia. lia.
  - cbn [release_sum Nat.add]. rewrite IH. clear IH.
    replace (Z.of_nat (S l)) with (Z.of_nat l + 1) by lia.
    induction Hpos as [|t ts Ht _ IHts]; [done|].
    rewrite hp_release_cons, !fmap_cons, !Zsum_cons.
    rewrite (ceil_div_succ (Z.of_nat l) (period t) Ht).
    case_decide; lia.
Qed.

(** The execution time still owed to the ready jobs of a class of tasks
    plus the ticks that the trace gives to the class is the execution time
    the class has released so far.  [E] tells the trace entries of the
    class. *)
Lemma run_work_conserved (s0 : Scheduler)
  (P : Z → Prop) `{!∀ i, Decision (P i)}
  (E : Z * option Z → Prop) `{!∀ e, Decision (E e)} :
  (∀ t o, E (t, o) ↔ ∃ i, o = Some i ∧ P i) →
  Forall (λ task, period task ≠ 0) (tasks s0) →
  sched_inv 0 (s0, None) →
  ready_queue s0 = [] → history s0 = [] →
  ∀ n : nat, ∃ st, run_ticks n s0 = Ok st ∧
    pending P st.1 + Z.of_nat (length (filter E (history st.1)))
    = release_sum (filter (λ task, P (id task)) (tasks s0)) 0 n.
Proof.
  intros HE Hper Hinit Hrq0 Hh0.
  apply (run_ticks_invariant s0
    (λ n st,
       pending P st.1 + Z.of_nat (length (filter E (history st.1)))
       = release_sum (filter (λ task, P (id task)) (tasks s0)) 0 n) Hper Hinit).
  - cbn [fst]. unfold pending. by rewrite Hrq0, Hh0.
  - intros n st oc Hrun Hinv Htk Hal IH Hinv1 Hch Hoc Hrun'.
    set (s1 := released (Z.of_nat n) (tasks s0) (set_time (Z.of_nat n) st.1)) in *.
    rewrite (pending_tick_effect P (Z.of_nat n) oc s1
               (inv_ready_nodup _ _ Hinv1) (inv_ready_valid _ _ Hinv1) Hoc).
    unfold s1 at 1. rewrite pending_released by apply (inv_ready_valid _ _ Hinv).
    change (pending P (set_time (Z.of_nat n) st.1)) with (pending P st.1).
    rewrite history_tick_effect. change (history s1) with (history st.1).
    rewrite filter_app, length_app.
    cbn [release_sum Nat.add]. rewrite <- IH.
    assert (Zsum ((λ task, if decide (P (id task)) then wcet task else 0)
                    <$> filter (λ task, Z.of_nat n `mod` period task = 0) (tasks s0))
            = hp_release (filter (λ task, P (id task)) (tasks s0)) n) as ->.
    { unfold hp_release.
      rewrite (Zsum_filter (λ task, Z.of_nat n `mod` period task = 0)
                 (λ task, if decide (P (id task)) then wcet task else 0)).
      rewrite (Zsum_filter (λ task, P (id task))
                 (λ hp, if decide (Z.of_nat n `mod` period hp = 0)
                        then wcet hp else 0)).
      apply Zsum_fmap_ext. intros t _. by repeat case_decide. }
    unfold trace_entry_of. cbn [fst snd].
    assert (task_id_dispatch :
              ∀ c, oc = Some c →
                task_id (deref (dispatch_effect (Z.of_nat n) oc s1) c)
                = task_id (deref s1 c)).
    { intros c ->. cbn [dispatch_effect]. case_decide; [|done].
      unfold deref, update_job. cbn. rewrite list_lookup_total_insert.
      by case_decide. }
    destruct oc as [c|]; cbn [fmap option_fmap option_map].
    + rewrite (task_id_dispatch c eq_refl), filter_cons, filter_nil.
      destruct (decide (P (task_id (deref s1 c)))) as [HP|HP].
      * rewrite decide_True by (apply HE; by eexists). cbn [length]. lia.
      * rewrite decide_False; [cbn [length]; lia|].
        intros (i & [= <-] & HPi)%HE. done.
    + rewrite filter_cons, filter_nil, decide_False; [cbn [length]; lia|].
      by intros (i & [=] & _)%HE.
Qed.

(** X19: for tasks with distinct ids and positive periods, after a run of
    [d] ticks the remaining execution time of the ready jobs of a task plus
    the number of ticks that the trace gives to the task equals the
    execution time the task has released, [ceil(d / period) * wcet]: every
    tick of the trace consumes one unit of the work of its task, and none
    is lost. *)
Theorem work_conservation (tasks0 : list Task) (alg : string) (d : Z)
  (task : Task) :
  NoDup (id <$> tasks0) →
  Forall (λ task, 0 < period task) tasks0 →
  task ∈ tasks0 → 0 ≤ d →
  ∃ s jobs hist,
    run (Scheduler_init tasks0 alg) (Some d) = Ok (s, (jobs, hist)) ∧
    pending (λ i, i = id task) s
    + Z.of_nat (length (filter (λ e : Z * option Z, e.2 = Some (id task)) hist))
    = ceil_div d (period task) * wcet task.
Proof.
  intros Hnd Hpos Hin Hd. set (s0 := Scheduler_init tasks0 alg).
  assert (Forall (λ task, 0 < period task) (tasks s0)) as Hpos'
    by (by apply (init_tasks_period tasks0 alg (λ p, 0 < p))).
  assert (Forall (λ task, period task ≠ 0) (tasks s0)) as Hper.
  { eapply Forall_impl; [exact Hpos'|]. intros t Ht. cbn in Ht. lia. }
  assert (NoDup (id <$> tasks s0)) as Hnd'
    by (unfold s0; by rewrite (init_tasks_fmap id tasks0 alg)).
  pose proof (sched_inv_init tasks0 alg) as Hinit. fold s0 in Hinit.
  assert ((id task, period task, wcet task)
          ∈ (λ t, (id t, period t, wcet t)) <$> tasks s0) as Hin'.
  { unfold s0. rewrite (init_tasks_fmap (λ t, (id t, period t, wcet t))
                          tasks0 alg) by done.
    by apply (list_elem_of_fmap_2 (λ t, (id t, period t, wcet t))). }
  apply list_elem_of_fmap in Hin' as (task' & Heq & Hin').
  injection Heq as Hid Hp Hw.
  destruct (run_work_conserved s0 (λ i, i = id task)
              (λ e : Z * option Z, e.2 = Some (id task)))
    with (n := Z.to_nat d) as (st & Hrun & Hcons); try done.
  { intros t o. cbn. split; [intros ->; by eexists|].
    by intros (i & -> & ->). }
  exists st.1, (deref st.1 <$> completed_jobs st.1), (history st.1).
  unfold run. fold s0. rewrite Hrun. split; [done|].
  rewrite Hcons.
  assert (filter (λ t, id t = id task) (tasks s0) = [task']) as ->.
  { apply list_elem_of_split in Hin' as (l1 & l2 & Hsplit). rewrite Hsplit in Hnd' |- *.
    rewrite fmap_app, fmap_cons in Hnd'.
    apply NoDup_app in Hnd' as (_ & Hl1 & Hnd2). apply NoDup_cons in Hnd2 as [Hl2 _].
    rewrite filter_app, filter_cons, decide_True by done.
    rewrite !filter_none; [done| |].
    - intros x Hx Hidx. apply Hl2. rewrite <- Hid, <- Hidx. by apply list_elem_of_fmap_2.
    - intros x Hx Hidx. apply (Hl1 (id x)); [by apply list_elem_of_fmap_2|].
      rewrite Hidx, Hid. left. }
  rewrite release_sum_from_zero
    by (apply Forall_cons; split; [by eapply Forall_forall in Hpos'|apply Forall_nil_2]).
  cbn [fmap list_fmap]. rewrite Zsum_cons, Z2Nat.id by done.
  rewrite <- Hp, <- Hw. cbn. lia.
Qed.

Lemma work_conservation_witness :
  ∃ s jobs hist,
    run (Scheduler_init [mkTask "t1" 1 1 2 5 5 0] "RM") (Some 7)
    = Ok (s, (jobs, hist)) ∧
    pending (λ i, i = 1) s
    + Z.of_nat (length (filter (λ e : Z * option Z, e.2 = Some 1) hist))
    = 4.
Proof.
  apply (work_conservation [mkTask "t1" 1 1 2 5 5 0] "RM" 7
           (mkTask "t1" 1 1 2 5 5 0)).
  - cbn. apply NoDup_singleton.
  - apply Forall_cons. split; [cbn; lia|apply Forall_nil_2].
  - apply list_elem_of_here.
  - lia.
Defined.

(** ** Idle time of an underutilised task set *)

Lemma run_work_inv (s0 : Scheduler) :
  Forall (λ task, period task ≠ 0) (tasks s0) →
  Forall (λ task, 0 < wcet task) (tasks s0) →
  sched_inv 0 (s0, None) → ready_queue s0 = [] →
  ∀ n : nat, ∃ st, run_ticks n s0 = Ok st ∧ work_inv st.1.
Proof.
  intros Hper Hw Hinit Hrq0.
  apply (run_ticks_invariant s0 (λ n st, work_inv st.1) Hper Hinit).
  - intros a Ha. cbn [fst] in Ha. rewrite Hrq0 in Ha. by apply elem_of_nil in Ha.
  - intros n st oc Hrun Hinv Htk Hal IH Hinv1 Hch Hoc Hrun'.
    apply work_inv_tick_effect; [apply (inv_ready_valid _ _ Hinv1)|done|].
    apply work_inv_released; [apply (inv_ready_valid _ _ Hinv)|done|done].
Qed.

Lemma hyperperiod_positive (tasks0 : list Task) (alg : string) :
  tasks0 ≠ [] → Forall (λ task, 0 < period task) tasks0 →
  0 < hyperperiod (Scheduler_init tasks0 alg) ∧
  ∀ task, task ∈ tasks0 →
    hyperperiod (Scheduler_init tasks0 alg) `mod` period task = 0.
Proof.
  intros Hne Hpos. unfold Scheduler_init. cbn [hyperperiod].
  destruct tasks0 as [|t0 ts]; [done|]. set (l := t0 :: ts) in *.
  assert (match period <$> l with [] => 0 | _ :: _ => py_lcm (period <$> l) end
          = py_lcm (period <$> l)) as -> by done.
  unfold py_lcm.
  destruct (foldl_lcm_spec (period <$> l) 1) as (Hnn & _ & Hall & _ & Hzero);
    [lia|].
  split.
  - assert (foldl Z.lcm 1 (period <$> l) ≠ 0); [|lia].
    intros Hz. apply Hzero in Hz as [?|Hin]; [lia|].
    apply list_elem_of_fmap in Hin as (t & Hp & Ht).
    eapply Forall_forall in Hpos; [|exact Ht]. cbn in Hpos. lia.
  - intros task Ht. apply Z.mod_divide.
    + eapply Forall_forall in Hpos; [|exact Ht]. cbn in Hpos. lia.
    + apply Hall. by apply list_elem_of_fmap_2.
Qed.

(** Scaled by a common multiple [H] of the periods, the utilisation is the
    execution time released in [H] ticks. *)
Lemma utilization_scaled (H : Z) (ts : list Task) (u : Q) :
  Forall (λ task, 0 < period task ∧ H `mod` period task = 0) ts →
  calculate_utilization ts = Ok u →
  (inject_Z H * u
   == inject_Z (Zsum ((λ task, (H `div` period task * wcet task)%Z) <$> ts)))%Q.
Proof.
  intros Hok. revert u. induction Hok as [|t ts [HT Hmod] _ IH]; intros u Hu.
  - injection Hu as <-. cbn. ring.
  - cbn [calculate_utilization] in Hu. rewrite decide_False in Hu by lia.
    destruct (calculate_utilization ts) as [u'|]; [|done].
    cbn [mbind result_bind] in Hu. injection Hu as <-.
    rewrite fmap_cons, Zsum_cons, inject_Z_plus, inject_Z_mult, <- (IH u' eq_refl).
    pose proof (Z.div_mod H (period t) ltac:(lia)) as Hdm. rewrite Hmod in Hdm.
    assert (inject_Z H == inject_Z (period t) * inject_Z (H `div` period t))%Q as HH.
    { rewrite <- inject_Z_mult.
      by replace (period t * H `div` period t)%Z with H by lia. }
    rewrite HH. field.
    intros Hz. unfold Qeq in Hz. cbn in Hz. lia.
Qed.

Lemma filter_short_exists {A} (P : A → Prop) `{!∀ x, Decision (P x)} (l : list A) :
  (length (filter P l) < length l)%nat → ∃ x, x ∈ l ∧ ¬ P x.
Proof.
  induction l as [|x l IH]; [cbn; lia|].
  rewrite filter_cons. destruct (decide (P x)) as [HP|HP].
  - cbn [length]. intros Hlt. destruct IH as (y & Hy & HPy); [lia|].
    exists y. split; [by right|done].
  - intros _. exists x. split; [left|done].
Qed.



(** ** Missed deadlines and the observed WCRT *)

Lemma task_stats_missed_link (completed : list Job) (task : Task) :
  Forall (λ j, finish_time j ≠ -1) completed →
  (∀ j, j ∈ completed → task_id j = id task →
        absolute_deadline j = arrival_time j + deadline task) →
  0 ≤ deadline task →
  ∃ st, task_stats completed task = Ok st ∧
        (Missed st = 0 ↔ Sim_WCRT st ≤ deadline task).
Proof.
  intros Hfin Hdl Hpos.
  destruct (task_stats_spec completed task Hfin) as (st & Hst & Hempty & Hsome).
  exists st. split; [done|].
  set (mine := filter (λ j, task_id j = id task) completed) in *.
  destruct (decide (mine = [])) as [He|Hne].
  { rewrite (Hempty He). cbn. split; [done|lia]. }
  destruct (Hsome Hne) as (Hmax & (jm & Hjm & Hwcrt) & _ & Hmissed).
  assert (∀ j, j ∈ mine →
            (finish_time j > absolute_deadline j ↔ deadline task < finished_response j))
    as Hlate.
  { intros j Hj. apply list_elem_of_filter in Hj as [Hid Hj].
    rewrite (Hdl j Hj Hid). unfold finished_response. lia. }
  rewrite Hmissed. split.
  - intros Hz.
    assert (filter (λ j, finish_time j > absolute_deadline j) mine = []) as Hnone.
    { apply length_zero_iff_nil. lia. }
    rewrite Hwcrt.
    destruct (decide (deadline task < finished_response jm)) as [Hl|]; [|lia].
    apply (Hlate jm Hjm) in Hl.
    assert (jm ∈ filter (λ j, finish_time j > absolute_deadline j) mine) as Hin
      by (by apply list_elem_of_filter).
    rewrite Hnone in Hin. by apply elem_of_nil in Hin.
  - intros Hle. rewrite filter_none; [done|].
    intros j Hj Hl. apply (Hlate j Hj) in Hl. specialize (Hmax j Hj). lia.
Qed.

(** After a run with distinct task ids, a task has no missed deadline in
    the statistics exactly when its observed WCRT is within its relative
    deadline. *)
Lemma simulate_missed_link (s0 : Scheduler) (duration : option Z) :
  Forall (λ task, period task ≠ 0) (tasks s0) →
  sched_inv 0 (s0, None) →
  NoDup (id <$> tasks s0) →
  ∃ out, simulate_from s0 duration = Ok out ∧
    ∀ task, task ∈ tasks s0 → 0 ≤ deadline task →
      ∃ st, out.2 !! id task = Some st ∧
            (Missed st = 0 ↔ Sim_WCRT st ≤ deadline task).
Proof.
  intros Hper Hinit Hnd.
  set (n := Z.to_nat (match duration with Some d => d | None => hyperperiod s0 end)).
  destruct (run_ticks_inv n s0 Hper Hinit) as (st & Hrun & Hinv & Htk & _).
  set (jobs := deref st.1 <$> completed_jobs st.1).
  assert (Forall (λ j, finish_time j ≠ -1) jobs) as Hfin.
  { apply Forall_forall. intros j (a & -> & Ha)%list_elem_of_fmap.
    destruct (inv_completed _ _ Hinv a Ha) as (Hlt & _ & Hf).
    destruct (inv_job_task _ _ Hinv a Hlt) as (task & _ & _ & _ & Harr & _).
    lia. }
  assert (∀ task, task ∈ tasks s0 →
            ∀ j, j ∈ jobs → task_id j = id task →
              absolute_deadline j = arrival_time j + deadline task) as Hdl.
  { intros task Hin j (a & -> & Ha)%list_elem_of_fmap Hid.
    destruct (inv_completed _ _ Hinv a Ha) as (Hlt & _ & _).
    destruct (inv_job_task _ _ Hinv a Hlt) as (task' & Hin' & Hid' & _ & _ & Habs).
    rewrite Htk in Hin'.
    assert (task' = task) as ->
      by (apply (elem_of_NoDup_id (tasks s0)); try done; congruence).
    done. }
  destruct (stats_loop_spec jobs (tasks st.1) ∅) as (stats & Hstats & Hin & _).
  { intros task _. destruct (task_stats_spec jobs task Hfin) as (x & Hx & _).
    by exists x. }
  exists (jobs, history st.1, stats). split.
  { unfold simulate_from, run. fold n. rewrite Hrun. cbn [mbind result_bind fst snd].
    unfold analyze_results. fold jobs. by rewrite Hstats. }
  intros task Htask Hpos. cbn [snd].
  destruct (Hin task ltac:(by rewrite Htk)) as (x & Hx & Hlook).
  exists x. split; [done|].
  destruct (task_stats_missed_link jobs task Hfin (Hdl task Htask) Hpos)
    as (x' & Hx' & Hlink).
  rewrite Hx in Hx'. by injection Hx' as <-.
Qed.

(** X21: for tasks with distinct ids and no zero period, the statistics of
    a simulation report no missed deadline for a task exactly when the
    observed WCRT of the task is within its relative deadline. *)
Theorem missed_zero_iff_wcrt_within_deadline (tasks0 : list Task) (alg : string)
  (duration : option Z) :
  NoDup (id <$> tasks0) →
  Forall (λ task, period task ≠ 0) tasks0 →
  ∃ jobs hist stats,
    simulate tasks0 alg duration = Ok (jobs, hist, stats) ∧
    ∀ task, task ∈ tasks0 → 0 ≤ deadline task →
      ∃ st, stats !! id task = Some st ∧
            (Missed st = 0 ↔ Sim_WCRT st ≤ deadline task).
Proof.
  intros Hnd Hper. set (s0 := Scheduler_init tasks0 alg).
  assert (Forall (λ task, period task ≠ 0) (tasks s0)) as Hper'
    by (by apply (init_tasks_period tasks0 alg (λ p, p ≠ 0))).
  assert (NoDup (id <$> tasks s0)) as Hnd'
    by (unfold s0; by rewrite (init_tasks_fmap id tasks0 alg)).
  pose proof (sched_inv_init tasks0 alg) as Hinit. fold s0 in Hinit.
  destruct (simulate_missed_link s0 duration Hper' Hinit Hnd')
    as ([[jobs hist] stats] & Hsim & Hlink).
  exists jobs, hist, stats. split; [done|]. intros task Hin Hpos.
  assert ((id task, deadline task)
          ∈ (λ t, (id t, deadline t)) <$> tasks s0) as Hin'.
  { unfold s0. rewrite (init_tasks_fmap (λ t, (id t, deadline t)) tasks0 alg) by done.
    by apply (list_elem_of_fmap_2 (λ t, (id t, deadline t))). }
  apply list_elem_of_fmap in Hin' as (task' & Heq & Hin').
  injection Heq as Hid Hdl. rewrite Hid, Hdl. apply Hlink; [done|]. by rewrite <- Hdl.
Qed.

Lemma missed_zero_iff_wcrt_within_deadline_witness :
  ∃ jobs hist stats,
    simulate [mkTask "t1" 1 1 2 5 5 0] "RM" (Some 10) = Ok (jobs, hist, stats) ∧
    ∀ task, task ∈ [mkTask "t1" 1 1 2 5 5 0] → 0 ≤ deadline task →
      ∃ st, stats !! id task = Some st ∧
            (Missed st = 0 ↔ Sim_WCRT st ≤ deadline task).
Proof.
  apply (missed_zero_iff_wcrt_within_deadline [mkTask "t1" 1 1 2 5 5 0] "RM" (Some 10)).
  - cbn. apply NoDup_singleton.
  - apply Forall_cons. split; [cbn; lia|apply Forall_nil_2].
Defined.

(** ** What a schedulable verdict means for the simulation *)



(** ** The analysis is monotone in the interfering load *)

Lemma interference_of_app (l1 l2 : list Task) (R : Z) :
  interference_of (l1 ++ l2) R = interference_of l1 R + interference_of l2 R.
Proof.
  induction l1 as [|hp l1 IH]; [done|].
  cbn [app]. rewrite !interference_of_cons, IH. lia.
Qed.

(** Every candidate of the iteration lies below every non-negative value
    that the loop body does not increase. *)
Lemma R_seq_le_prefixed (task : Task) (hps : list Task) (R' : Z) (n : nat) :
  Forall hp_ok hps → 0 ≤ R' →
  wcet task + interference_of hps R' ≤ R' →
  R_seq task hps n ≤ R'.
Proof.
  intros Hok Hpos Hfix. induction n as [|n IH]; cbn [R_seq].
  - pose proof (interference_of_nonneg hps R' Hok Hpos). lia.
  - pose proof (interference_of_mono hps _ _ Hok IH). lia.
Qed.



(** ** EDF: the workload due by a time *)

Lemma due_release_cons (L : Z) (task : Task) (ts : list Task) (n : nat) :
  due_release L (task :: ts) n
  = (if decide (Z.of_nat n `mod` period task = 0 ∧ Z.of_nat n + deadline task ≤ L)
     then wcet task else 0)
    + due_release L ts n.
Proof. reflexivity. Qed.

Lemma due_release_nonneg (L : Z) (ts : list Task) (n : nat) :
  Forall (λ task, 0 ≤ wcet task) ts → 0 ≤ due_release L ts n.
Proof.
  induction 1 as [|t ts Ht _ IH]; [done|].
  rewrite due_release_cons. case_decide; lia.
Qed.

Lemma due_work_S (L : Z) (ts : list Task) (n : nat) :
  due_work L ts (S n)
  = due_work L ts n + due_release L ts n
    - (if decide (0 < due_work L ts n + due_release L ts n) then 1 else 0).
Proof. cbn [due_work]. case_decide; lia. Qed.

Lemma due_work_nonneg (L : Z) (ts : list Task) (n : nat) :
  Forall (λ task, 0 ≤ wcet task) ts → 0 ≤ due_work L ts n.
Proof.
  intros Hok. induction n as [|n IH]; [done|].
  rewrite due_work_S. pose proof (due_release_nonneg L ts n Hok).
  case_decide; lia.
Qed.

(** While work due by [L] stays pending, every tick serves one unit. *)
Lemma due_work_interval (L : Z) (ts : list Task) (a len : nat) :
  (∀ m : nat, (a < m ≤ a + len)%nat → 0 < due_work L ts m) →
  due_work L ts (a + len) = due_work L ts a + due_sum L ts a len - Z.of_nat len.
Proof.
  induction len as [|l IH]; intros Hbusy.
  - rewrite Nat.add_0_r. cbn [due_sum]. lia.
  - rewrite Nat.add_succ_r, due_work_S. cbn [due_sum].
    pose proof (Hbusy (S (a + l)) ltac:(lia)) as Hpos.
    rewrite due_work_S in Hpos.
    rewrite IH in Hpos |- * by (intros m Hm; apply Hbusy; lia).
    case_decide; lia.
Qed.

Lemma due_last_zero (L : Z) (ts : list Task) (n : nat) :
  Forall (λ task, 0 ≤ wcet task) ts →
  ∃ s : nat, (s ≤ n)%nat ∧ due_work L ts s = 0 ∧
    ∀ m : nat, (s < m ≤ n)%nat → 0 < due_work L ts m.
Proof.
  intros Hok. induction n as [|n (s & Hs & Hz & Hbusy)].
  - exists 0%nat. split; [lia|]. split; [done|]. intros m Hm. lia.
  - destruct (decide (due_work L ts (S n) = 0)) as [Hzero|Hpos].
    + exists (S n). split; [lia|]. split; [done|]. intros m Hm. lia.
    + exists s. split; [lia|]. split; [done|]. intros m Hm.
      destruct (decide (m = S n)) as [->|]; [|apply Hbusy; lia].
      pose proof (due_work_nonneg L ts (S n) Hok). lia.
Qed.

Lemma due_sum_cons (L : Z) (task : Task) (ts : list Task) (a len : nat) :
  due_sum L (task :: ts) a len
  = wcet task * due_count L (period task) (deadline task) a len
    + due_sum L ts a len.
Proof.
  induction len as [|l IH]; [cbn; lia|].
  cbn [due_sum due_count]. rewrite IH, due_release_cons. case_decide; lia.
Qed.

(** The jobs due by [L] that a task releases from tick [a] on are spaced
    by its period, the last of them no later than [L - D]. *)
Lemma due_count_spaced (L T D : Z) (a len : nat) :
  0 < T →
  due_count L T D a len = 0 ∨
  ∃ m : Z, Z.of_nat a ≤ m < Z.of_nat (a + len) ∧ m + D ≤ L ∧ m `mod` T = 0 ∧
           0 < due_count L T D a len ∧
           (due_count L T D a len - 1) * T ≤ m - Z.of_nat a.
Proof.
  intros HT. induction len as [|l IH]; [by left|].
  cbn [due_count]. case_decide as Hc.
  - destruct Hc as [Hmod Hdue]. right. exists (Z.of_nat (a + l)).
    split; [lia|]. split; [done|]. split; [done|].
    destruct IH as [->|(m & Hm1 & Hm2 & Hm3 & Hpos & Hsp)]; [lia|].
    split; [lia|].
    assert (m + T ≤ Z.of_nat (a + l)) as Hgap.
    { pose proof (Z.div_mod m T ltac:(lia)) as E1.
      pose proof (Z.div_mod (Z.of_nat (a + l)) T ltac:(lia)) as E2.
      rewrite Hm3 in E1. rewrite Hmod in E2.
      assert (m `div` T < Z.of_nat (a + l) `div` T) by nia. nia. }
    lia.
  - rewrite Z.add_0_r. destruct IH as [?|(m & Hm1 & Hm2 & Hm3 & Hpos & Hsp)];
      [by left|].
    right. exists m. split; [lia|done].
Qed.

Lemma due_count_bound (L T D : Z) (a len : nat) :
  0 < T → T ≤ D → Z.of_nat a ≤ L →
  0 ≤ due_count L T D a len ∧ due_count L T D a len * T ≤ L - Z.of_nat a.
Proof.
  intros HT HD Ha.
  destruct (due_count_spaced L T D a len HT)
    as [->|(m & Hm1 & Hm2 & Hm3 & Hpos & Hsp)]; lia.
Qed.

Lemma Q_share_le (C N T Δ : Z) :
  0 < T → 0 ≤ C → N * T ≤ Δ →
  (inject_Z (C * N) <= inject_Z Δ * (inject_Z C / inject_Z T))%Q.
Proof.
  intros HT HC HN.
  assert (inject_Z Δ * (inject_Z C / inject_Z T)
          == (inject_Z Δ * inject_Z C) / inject_Z T)%Q as ->.
  { unfold Qdiv. by rewrite Qmult_assoc. }
  apply Qle_shift_div_l.
  - change 0%Q with (inject_Z 0). by rewrite <- Zlt_Qlt.
  - rewrite <- !inject_Z_mult, <- Zle_Qle. nia.
Qed.

(** With utilisation [u], the execution time of jobs due by [L] that is
    released from tick [a] on is at most [u] times the length of the window
    [a, L), when no deadline is shorter than the period. *)
Lemma due_sum_utilization (L : Z) (ts : list Task) (a len : nat) (u : Q) :
  Forall (λ task, 0 < period task ∧ period task ≤ deadline task ∧ 0 ≤ wcet task) ts →
  calculate_utilization ts = Ok u →
  Z.of_nat a ≤ L →
  (inject_Z (due_sum L ts a len) <= inject_Z (L - Z.of_nat a) * u)%Q.
Proof.
  intros Hok. revert u. induction Hok as [|t ts (HT & HD & HC) _ IH]; intros u Hu Ha.
  - injection Hu as <-.
    assert (due_sum L [] a len = 0) as ->.
    { induction len as [|l IHl]; [done|]. cbn [due_sum]. by rewrite IHl. }
    rewrite Qmult_0_r. apply Qle_refl.
  - cbn [calculate_utilization] in Hu. rewrite decide_False in Hu by lia.
    destruct (calculate_utilization ts) as [u'|]; [|done].
    cbn [mbind result_bind] in Hu. injection Hu as <-.
    rewrite due_sum_cons, inject_Z_plus, Qmult_plus_distr_r.
    apply Qplus_le_compat; [|by apply IH].
    destruct (due_count_bound L (period t) (deadline t) a len HT HD Ha) as [_ Hb].
    by apply Q_share_le.
Qed.

(** With utilisation at most one and no deadline shorter than its period,
    no work due by [L] is pending at the head of tick [L]. *)
Lemma due_work_zero (ts : list Task) (u : Q) (n : nat) :
  Forall (λ task, 0 < period task ∧ period task ≤ deadline task ∧ 0 ≤ wcet task) ts →
  calculate_utilization ts = Ok u → (u <= 1)%Q →
  due_work (Z.of_nat n) ts n = 0.
Proof.
  intros Hok Hu Hle.
  assert (Forall (λ task, 0 ≤ wcet task) ts) as Hw.
  { eapply Forall_impl; [exact Hok|]. cbn. intros t. lia. }
  destruct (due_last_zero (Z.of_nat n) ts n Hw) as (s & Hs & Hz & Hbusy).
  destruct (decide (s = n)) as [->|Hne]; [done|]. exfalso.
  pose proof (Hbusy n ltac:(lia)) as Hpos.
  replace n with (s + (n - s))%nat in Hpos at 2 by lia.
  rewrite due_work_interval in Hpos
    by (intros m Hm; apply Hbusy; lia).
  rewrite Hz in Hpos.
  assert (due_sum (Z.of_nat n) ts s (n - s) ≤ Z.of_nat n - Z.of_nat s) as Hsum.
  { rewrite Zle_Qle.
    eapply Qle_trans; [by apply (due_sum_utilization _ _ _ _ u); [| |lia]|].
    rewrite <- (Qmult_1_r (inject_Z (Z.of_nat n - Z.of_nat s))) at 2.
    apply Qmult_le_l; [|done].
    change 0%Q with (inject_Z 0). rewrite <- Zlt_Qlt. lia. }
  lia.
Qed.

(** ** EDF: the simulator against the workload due *)

Lemma pending_due_nonneg (L : Z) (s : Scheduler) :
  work_inv s → 0 ≤ pending_due L s.
Proof.
  intros Hw. unfold pending_due. apply Zsum_nonneg, Forall_fmap, Forall_forall.
  intros a Ha. cbn. specialize (Hw a Ha). case_decide; lia.
Qed.

Lemma pending_due_pos (L : Z) (s : Scheduler) (a : nat) :
  work_inv s → a ∈ ready_queue s → absolute_deadline (deref s a) ≤ L →
  0 < pending_due L s.
Proof.
  intros Hw Ha Hdl. unfold pending_due.
  eapply Z.lt_le_trans; [apply (Hw a Ha)|].
  apply Zsum_elem_le.
  - apply Forall_fmap, Forall_forall. intros b Hb. cbn.
    specialize (Hw b Hb). case_decide; lia.
  - apply list_elem_of_fmap. exists a. by rewrite decide_True.
Qed.

(** Step 1 adds the execution time of the released jobs due by [L]. *)
Lemma pending_due_released (L : Z) (n : nat) (ts : list Task) (s : Scheduler) :
  (∀ a, a ∈ ready_queue s → (a < length (heap s))%nat) →
  pending_due L (released (Z.of_nat n) ts s) = pending_due L s + due_release L ts n.
Proof.
  intros Hvalid. unfold pending_due at 1.
  change (ready_queue (released (Z.of_nat n) ts s))
    with (ready_queue s
          ++ seq (length (heap s)) (length (released_jobs (Z.of_nat n) ts))).
  rewrite fmap_app, Zsum_app. f_equal.
  - apply Zsum_fmap_ext. intros a Ha. by rewrite deref_released by (by apply Hvalid).
  - trans (Zsum ((λ j, if decide (absolute_deadline j ≤ L)
                       then remaining_time j else 0)
                  <$> (deref (released (Z.of_nat n) ts s)
                         <$> seq (length (heap s))
                               (length (released_jobs (Z.of_nat n) ts)))));
      [by rewrite <- list_fmap_compose|].
    rewrite fmap_deref_released_new. unfold released_jobs.
    rewrite <- list_fmap_compose. unfold due_release.
    rewrite (Zsum_filter (λ task, Z.of_nat n `mod` period task = 0)).
    apply Zsum_fmap_ext. intros task _. cbn. repeat case_decide; try done; tauto.
Qed.

(** Running one tick takes one unit from the work due by [L] when the job
    that runs is due by [L]. *)
Lemma pending_due_tick_effect (L : Z) (t : Z) (oc : option nat) (s1 : Scheduler) :
  NoDup (ready_queue s1) →
  (∀ a, a ∈ ready_queue s1 → (a < length (heap s1))%nat) →
  (∀ c, oc = Some c → c ∈ ready_queue s1) →
  pending_due L (tick_effect t oc s1).1
  = pending_due L s1
    - match oc with
      | Some c => if decide (absolute_deadline (deref s1 c) ≤ L) then 1 else 0
      | None => 0
      end.
Proof.
  intros Hnd Hvalid Hoc.
  destruct oc as [c|];
    [|cbn [tick_effect fst]; unfold pending_due, deref;
      cbn [heap ready_queue set_history]; lia].
  specialize (Hoc c eq_refl). pose proof (Hvalid c Hoc) as Hc.
  set (s' := (tick_effect t (Some c) s1).1).
  set (f := λ s a, if decide (absolute_deadline (deref s a) ≤ L)
                   then remaining_time (deref s a) else 0).
  assert (∀ a, a ≠ c → f s' a = f s1 a) as Hother.
  { intros a Ha. unfold f, s'. rewrite deref_tick_effect_other; [done|congruence]. }
  assert (f s' c = f s1 c - (if decide (absolute_deadline (deref s1 c) ≤ L)
                             then 1 else 0)) as Hself.
  { unfold f, s'. rewrite deref_tick_effect_self by done.
    destruct (executed_job_fields t (deref s1 c)) as (_ & _ & -> & -> & _).
    case_decide; lia. }
  apply list_elem_of_split in Hoc as (l1 & l2 & Hsplit).
  rewrite Hsplit in Hnd. apply NoDup_app in Hnd as (_ & Hl1 & Hnd2).
  apply NoDup_cons in Hnd2 as [Hl2 _].
  assert (∀ a, a ∈ l1 → a ≠ c) as Hl1c.
  { intros a Ha ->. apply (Hl1 c Ha). left. }
  assert (∀ a, a ∈ l2 → a ≠ c) as Hl2c by (intros a Ha ->; done).
  unfold pending_due. fold (f s') (f s1).
  destruct (tick_effect_Some t c s1) as (_ & Hrq & _). fold s' in Hrq.
  rewrite Hrq, Hsplit.
  assert (Zsum (f s' <$> l1) = Zsum (f s1 <$> l1)) as H1
    by (apply Zsum_fmap_ext; intros a Ha; by apply Hother, Hl1c).
  assert (Zsum (f s' <$> l2) = Zsum (f s1 <$> l2)) as H2
    by (apply Zsum_fmap_ext; intros a Ha; by apply Hother, Hl2c).
  rewrite (fmap_app (f s1)), Zsum_app, fmap_cons, Zsum_cons.
  destruct (decide (remaining_time (deref s1 c) = 1)) as [Hone|Hmore].
  - rewrite filter_app, filter_cons, decide_False by (intros ?; done).
    rewrite !filter_all by done.
    rewrite fmap_app, Zsum_app, H1, H2.
    assert (f s1 c = if decide (absolute_deadline (deref s1 c) ≤ L) then 1 else 0)
      as -> by (unfold f; by rewrite Hone).
    lia.
  - rewrite fmap_app, Zsum_app, fmap_cons, Zsum_cons, H1, H2, Hself. lia.
Qed.

(** Under EDF the job that runs has the earliest absolute deadline of the
    ready queue. *)
Lemma edf_chosen_earliest (n : Z) (s1 : Scheduler) (cur oc : option nat) :
  algorithm s1 = "EDF"%string →
  sched_inv n (s1, cur) →
  chosen cur s1 oc →
  match oc with
  | None => ready_queue s1 = []
  | Some c =>
      ∀ a, a ∈ ready_queue s1 →
        absolute_deadline (deref s1 c) ≤ absolute_deadline (deref s1 a)
  end.
Proof.
  intros Hal Hinv Hch.
  assert (∀ a, job_key s1 a = absolute_deadline (deref s1 a)) as Hkey.
  { intros a. unfold job_key. rewrite Hal.
    rewrite decide_False; [done|]. by intros [?|?]. }
  destruct oc as [c|]; cbn [chosen] in Hch.
  - destruct Hch as (_ & m & Hfm & Hcm). intros a Ha.
    assert (job_key s1 c = job_key s1 m) as Hcmkey.
    { destruct Hcm as [->|[_ Heq]]; [done|]. by rewrite !Hkey, Heq. }
    rewrite <- !Hkey, Hcmkey. by eapply first_min_le.
  - destruct Hch as [?|Hunk]; [done|]. exfalso. apply Hunk.
    rewrite Hal. right. by right.
Qed.

(** Under EDF with utilisation at most one and no deadline shorter than
    its period: ready jobs have execution time left, the work due by any
    time follows the recurrence, and every finished job met its deadline. *)
Lemma edf_run_deadlines (s0 : Scheduler) (u : Q) :
  algorithm s0 = "EDF"%string →
  Forall (λ task, 0 < period task ∧ period task ≤ deadline task ∧ 0 < wcet task)
         (tasks s0) →
  calculate_utilization (tasks s0) = Ok u → (u <= 1)%Q →
  sched_inv 0 (s0, None) → ready_queue s0 = [] →
  ∀ n : nat, ∃ st, run_ticks n s0 = Ok st ∧
    work_inv st.1 ∧
    (∀ L, pending_due L st.1 = due_work L (tasks s0) n) ∧
    (∀ a, (a < length (heap st.1))%nat →
       finish_time (deref st.1 a) ≠ -1 →
       finish_time (deref st.1 a) ≤ absolute_deadline (deref st.1 a)).
Proof.
  intros Hal Hok Hu Hle Hinit Hrq0.
  assert (Forall (λ task, period task ≠ 0) (tasks s0)) as Hper.
  { eapply Forall_impl; [exact Hok|]. cbn. intros t. lia. }
  assert (Forall (λ task, 0 < wcet task) (tasks s0)) as Hw.
  { eapply Forall_impl; [exact Hok|]. cbn. intros t. lia. }
  assert (Forall (λ task, 0 < period task ∧ period task ≤ deadline task
                          ∧ 0 ≤ wcet task) (tasks s0)) as Hok'.
  { eapply Forall_impl; [exact Hok|]. cbn. intros t. lia. }
  apply (run_ticks_invariant s0
    (λ n st, work_inv st.1 ∧
       (∀ L, pending_due L st.1 = due_work L (tasks s0) n) ∧
       (∀ a, (a < length (heap st.1))%nat →
          finish_time (deref st.1 a) ≠ -1 →
          finish_time (deref st.1 a) ≤ absolute_deadline (deref st.1 a)))
    Hper Hinit).
  - cbn [fst]. split; [|split].
    + intros a Ha. rewrite Hrq0 in Ha. by apply elem_of_nil in Ha.
    + intros L. unfold pending_due. by rewrite Hrq0.
    + intros a Ha. destruct Hinit as [_ _ _ Htask _ _ _].
      destruct (Htask a Ha) as (task & _ & _ & _ & ? & _). lia.
  - intros n st oc Hrun Hinv Htk Hal' (IHw & IHd & IHf) Hinv1 Hch Hoc Hrun'.
    set (s1 := released (Z.of_nat n) (tasks s0) (set_time (Z.of_nat n) st.1)) in *.
    assert (work_inv s1) as Hw1.
    { apply work_inv_released; [apply (inv_ready_valid _ _ Hinv)|done|done]. }
    assert (∀ L, pending_due L s1 = due_work L (tasks s0) n + due_release L (tasks s0) n)
      as Hd1.
    { intros L. unfold s1.
      rewrite pending_due_released by apply (inv_ready_valid _ _ Hinv).
      change (pending_due L (set_time (Z.of_nat n) st.1)) with (pending_due L st.1).
      by rewrite IHd. }
    pose proof (edf_chosen_earliest (Z.of_nat n + 1) s1 st.2 oc
                  ltac:(by rewrite <- Hal) Hinv1 Hch) as Hedf.
    split; [|split].
    + apply work_inv_tick_effect; [apply (inv_ready_valid _ _ Hinv1)|done|done].
    + intros L.
      rewrite (pending_due_tick_effect L (Z.of_nat n) oc s1
                 (inv_ready_nodup _ _ Hinv1) (inv_ready_valid _ _ Hinv1) Hoc).
      rewrite due_work_S, Hd1. f_equal.
      pose proof (pending_due_nonneg L s1 Hw1) as Hnn. rewrite Hd1 in Hnn.
      destruct (decide (0 < due_work L (tasks s0) n + due_release L (tasks s0) n))
        as [Hpos|Hzero].
      * rewrite <- Hd1 in Hpos. unfold pending_due in Hpos.
        apply Zsum_pos_exists in Hpos as (a & Ha & Hpa).
        case_decide as Hla; [|lia].
        destruct oc as [c|]; [|rewrite Hedf in Ha; by apply elem_of_nil in Ha].
        specialize (Hedf a Ha). rewrite decide_True by lia. done.
      * destruct oc as [c|]; [|done].
        case_decide as Hlc; [|done].
        pose proof (pending_due_pos L s1 c Hw1 (Hoc c eq_refl) Hlc) as Hp.
        rewrite Hd1 in Hp. lia.
    + intros a Ha. rewrite length_heap_tick_effect in Ha.
      destruct (decide (oc = Some a)) as [->|Hne].
      * rewrite deref_tick_effect_self by done.
        destruct (executed_job_fields (Z.of_nat n) (deref s1 a))
          as (_ & _ & -> & _ & ->).
        pose proof (inv_ready_unfinished _ _ Hinv1 a (Hoc a eq_refl)) as Hunf.
        cbn [fst] in Hunf. case_decide; [|by rewrite Hunf]. intros _.
        (* the job completes in tick [n]: its deadline is after [n] *)
        pose proof (Hoc a eq_refl) as Hrdy. unfold s1 in Hrdy.
        apply elem_of_ready_released in Hrdy as [Hold|Hnew].
        -- cbn [ready_queue set_time] in Hold.
           pose proof (inv_ready_valid _ _ Hinv a Hold) as Hlt. cbn [fst] in Hlt.
           unfold s1. rewrite deref_released by done.
           change (deref (set_time (Z.of_nat n) st.1) a) with (deref st.1 a).
           destruct (decide (absolute_deadline (deref st.1 a) ≤ Z.of_nat n))
             as [Hlate|]; [|lia].
           pose proof (pending_due_pos (Z.of_nat n) st.1 a IHw Hold Hlate) as Hp.
           rewrite IHd, (due_work_zero (tasks s0) u n Hok' Hu Hle) in Hp. lia.
        -- cbn [heap set_time] in Hnew. unfold s1.
           rewrite deref_released_new by (cbn; lia). cbn [heap set_time].
           destruct (released_jobs_lookup (Z.of_nat n) (tasks s0)
                       (a - length (heap st.1))) as (task & Hin & _ & ->); [lia|].
           eapply Forall_forall in Hok; [|exact Hin]. cbn in Hok |- *. lia.
      * rewrite deref_tick_effect_other by done.
        destruct (decide (a < length (heap st.1))%nat) as [Hold|Hnew].
        -- unfold s1. rewrite deref_released by done. by apply IHf.
        -- unfold s1 in Ha |- *. rewrite length_heap_released in Ha.
           rewrite deref_released_new by (cbn; lia). cbn [heap set_time] in *.
           destruct (released_jobs_lookup (Z.of_nat n) (tasks s0)
                       (a - length (heap st.1))) as (task & Hin & _ & ->); [lia|].
           cbn. done.
Qed.



(** ** EDF: one ready job per task *)



(** ** Backlog of an overloaded task set *)



(** ** Bounds on the statistics *)

Lemma Zsum_bounds (l : list Z) (lo hi : Z) :
  (∀ x, x ∈ l → lo ≤ x ≤ hi) →
  Z.of_nat (length l) * lo ≤ Zsum l ≤ Z.of_nat (length l) * hi.
Proof.
  induction l as [|x l IH]; intros Hall; [cbn; lia|].
  rewrite Zsum_cons. cbn [length].
  pose proof (Hall x ltac:(left)).
  specialize (IH (λ y Hy, Hall y ltac:(by right))). lia.
Qed.

(** X27: for tasks with distinct ids and no zero period, the statistics of
    a task are consistent with its completed jobs: the missed count lies
    between zero and the number of completed jobs of the task, and when the
    task completed a job, its average response time lies between its
    execution time and its observed WCRT. *)
Theorem stats_bounds (tasks0 : list Task) (alg : string) (duration : option Z) :
  NoDup (id <$> tasks0) →
  Forall (λ task, period task ≠ 0) tasks0 →
  ∃ jobs hist stats,
    simulate tasks0 alg duration = Ok (jobs, hist, stats) ∧
    ∀ task, task ∈ tasks0 →
      ∃ st, stats !! id task = Some st ∧
        0 ≤ Missed st ≤ Z.of_nat (length (filter (λ j, task_id j = id task) jobs)) ∧
        (filter (λ j, task_id j = id task) jobs ≠ [] →
         (inject_Z (wcet task) <= Sim_Avg_RT st)%Q ∧
         (Sim_Avg_RT st <= inject_Z (Sim_WCRT st))%Q).
Proof.
  intros Hnd Hper. set (s0 := Scheduler_init tasks0 alg).
  assert (Forall (λ task, period task ≠ 0) (tasks s0)) as Hper'
    by (by apply (init_tasks_period tasks0 alg (λ p, p ≠ 0))).
  assert (NoDup (id <$> tasks s0)) as Hnd'
    by (unfold s0; by rewrite (init_tasks_fmap id tasks0 alg)).
  pose proof (sched_inv_init tasks0 alg) as Hinit. fold s0 in Hinit.
  set (n := Z.to_nat (match duration with Some d => d | None => hyperperiod s0 end)).
  destruct (run_job_life s0 Hper' Hinit n) as (st & Hrun & Hinv & Hlife).
  destruct (run_ticks_inv n s0 Hper' Hinit) as (st' & Hrun' & _ & Htk & _).
  rewrite Hrun in Hrun'. injection Hrun' as <-.
  set (jobs := deref st.1 <$> completed_jobs st.1).
  assert (Forall (λ j, finish_time j ≠ -1) jobs) as Hfin.
  { apply Forall_forall. intros j (a & -> & Ha)%list_elem_of_fmap.
    destruct (inv_completed _ _ Hinv a Ha) as (Hlt & _ & Hf).
    destruct (inv_job_task _ _ Hinv a Hlt) as (task & _ & _ & _ & Harr & _).
    lia. }
  destruct (stats_loop_spec jobs (tasks st.1) ∅) as (stats & Hstats & Hin & _).
  { intros task _. destruct (task_stats_spec jobs task Hfin) as (x & Hx & _).
    by exists x. }
  exists jobs, (history st.1), stats. split.
  { unfold simulate, simulate_from, run. fold s0 n. rewrite Hrun.
    cbn [mbind result_bind fst snd]. unfold analyze_results. fold jobs.
    by rewrite Hstats. }
  intros task Htask.
  assert ((id task, wcet task) ∈ (λ t, (id t, wcet t)) <$> tasks s0) as Hin'.
  { unfold s0. rewrite (init_tasks_fmap (λ t, (id t, wcet t)) tasks0 alg) by done.
    by apply (list_elem_of_fmap_2 (λ t, (id t, wcet t))). }
  apply list_elem_of_fmap in Hin' as (task' & Heq & Hin').
  injection Heq as Hid Hw. rewrite Hid, Hw.
  destruct (Hin task' ltac:(by rewrite Htk)) as (x & Hx & Hlook).
  exists x. split; [done|].
  destruct (task_stats_spec jobs task' Hfin) as (x' & Hx' & Hempty & Hsome).
  rewrite Hx in Hx'. injection Hx' as <-.
  set (mine := filter (λ j, task_id j = id task') jobs) in *.
  destruct (decide (mine = [])) as [He|Hne].
  { rewrite (Hempty He), He. cbn. split; [lia|done]. }
  destruct (Hsome Hne) as (Hmax & _ & Havg & Hmissed).
  split.
  { rewrite Hmissed. split; [lia|]. apply inj_le, length_filter. }
  intros _.
  assert (∀ r, r ∈ finished_response <$> mine → wcet task' ≤ r ≤ Sim_WCRT x) as Hrange.
  { intros r (j & -> & Hj)%list_elem_of_fmap. split; [|by apply Hmax].
    apply list_elem_of_filter in Hj as [Hjid Hj].
    apply list_elem_of_fmap in Hj as (a & -> & Ha).
    destruct (inv_completed _ _ Hinv a Ha) as (Hlt & _ & Hf).
    destruct (Hlife a Hlt) as (t & Ht & (Htid & _ & _ & _ & Hpos) & _ & Hph).
    assert (t = task') as ->
      by (apply (elem_of_NoDup_id (tasks s0)); try done; congruence).
    unfold job_phase in Hph. unfold finished_response. lia. }
  pose proof (Zsum_bounds _ _ _ Hrange) as [Hlo Hhi].
  rewrite length_fmap in Hlo, Hhi.
  assert (0 < Z.of_nat (length mine)) as Hlen.
  { destruct mine; [done|]. cbn [length]. lia. }
  assert (0 < inject_Z (Z.of_nat (length mine)))%Q as HlenQ.
  { change 0%Q with (inject_Z 0). by rewrite <- Zlt_Qlt. }
  rewrite Havg. split.
  - apply Qle_shift_div_l; [done|].
    rewrite <- inject_Z_mult, <- Zle_Qle. lia.
  - apply Qle_shift_div_r; [done|].
    rewrite <- inject_Z_mult, <- Zle_Qle. lia.
Qed.

Lemma stats_bounds_witness :
  ∃ jobs hist stats,
    simulate [mkTask "t1" 1 1 2 5 5 0] "RM" (Some 10) = Ok (jobs, hist, stats) ∧
    ∀ task, task ∈ [mkTask "t1" 1 1 2 5 5 0] →
      ∃ st, stats !! id task = Some st ∧
        0 ≤ Missed st ≤ Z.of_nat (length (filter (λ j, task_id j = id task) jobs)) ∧
        (filter (λ j, task_id j = id task) jobs ≠ [] →
         (inject_Z (wcet task) <= Sim_Avg_RT st)%Q ∧
         (Sim_Avg_RT st <= inject_Z (Sim_WCRT st))%Q).
Proof.
  apply (stats_bounds [mkTask "t1" 1 1 2 5 5 0] "RM" (Some 10)).
  - cbn. apply NoDup_singleton.
  - apply Forall_cons. split; [cbn; lia|apply Forall_nil_2].
Defined.
